(** * A shallow embedding of the hafnian library (src/src/hafnian.hpp)

    The C++ header computes the hafnian and the loop hafnian of a dense
    matrix with the power-trace algorithm ([do_chunk], [do_chunk_loops])
    and the hafnian of an integer matrix with a recursive engine on arrays
    of polynomials ([recursive_int]).

    Conventions of the embedding.
    - [int], [char], [Byte] and [unsigned long long] values are integers of
      [Z]; conversions to a narrower type are written out ([to_Byte],
      [to_char], [to_ull], [wrap64]).  C's [/] and [%] are [Z.quot] and
      [Z.rem].
    - [std::vector<X>] is [list X], indexed by [Z].  Inside the
      floating-point workers every vector is allocated by the worker itself
      with the size it needs and is read with [vget]; the integer engine
      receives its arrays from the caller and its accesses are checked
      ([vat], [vput]): an access outside the vector is undefined behaviour
      in C++ and is the error [OutOfBounds] here.
    - The template parameter [T] of the workers is a type with the
      operations of [ScalarOps]; [std::complex<double>] is [cplx] over the
      scalar.  The code is written over the operations alone and runs on
      binary64 ([Binary64.float_ops]) as on the rationals or the reals.
      A statement over a [Scalar], the class of the laws of exact
      arithmetic, is a statement about the code in exact arithmetic: it
      says nothing of rounding.
    - A conversion of a [double] to an integer type that cannot hold the
      value is undefined behaviour in C++ and is the error
      [UnrepresentableValue] here.
    - The dense eigenvalue solver (Eigen) is not part of the repository; it
      is a parameter of [powtrace_complex] and [powtrace_double].
    - The OpenMP loops are run in index order. *)

From Stdlib Require Import ZArith List Lia Bool Ring Field Permutation.
From Stdlib Require Import QArith Qcanon.
From Stdlib Require Import Reals Lra.
From Stdlib Require Floats Uint63.
Import ListNotations.

Open Scope Z_scope.

Ltac Zify.zify_post_hook ::= Z.to_euclidean_division_equations.

(** ** Machine integers *)

(** C's integer division and remainder (truncation towards zero). *)
Definition cdiv (a b : Z) : Z := Z.quot a b.
Definition cmod (a b : Z) : Z := Z.rem a b.

(** Conversion to [unsigned char] (the header's [Byte]). *)
Definition to_Byte (z : Z) : Z := z mod 256.
(** Conversion to [char] (signed, 8 bits). *)
Definition to_char (z : Z) : Z := (z + 128) mod 256 - 128.
(** Conversion to [unsigned long long]. *)
Definition to_ull (z : Z) : Z := z mod 2 ^ 64.
(** Conversion to [long long] (two's-complement wrap-around). *)
Definition wrap64 (z : Z) : Z := (z + 2 ^ 63) mod 2 ^ 64 - 2 ^ 63.

Definition ll_add (a b : Z) : Z := wrap64 (a + b).
Definition ll_mul (a b : Z) : Z := wrap64 (a * b).

(** ** Errors *)

Inductive error : Type :=
| EvenDimensionRequired   (* assert(n % 2 == 0) failed *)
| OutOfBounds             (* a vector was indexed outside its size *)
| UnrepresentableValue    (* a double was converted to an integer type
                             that cannot hold its value *)
| OutOfFuel.              (* the recursion budget of the model ran out *)

Definition result (A : Type) : Type := (error + A)%type.

Definition ok {A} (a : A) : result A := inr a.
Definition fail {A} (e : error) : result A := inl e.

Definition bind {A B} (r : result A) (k : A -> result B) : result B :=
  match r with
  | inl e => inl e
  | inr a => k a
  end.

Declare Scope result_scope.
Delimit Scope result_scope with result.
Notation "x <- r ;; k" := (bind r (fun x => k))
  (at level 61, r at next level, right associativity) : result_scope.
Notation "' p <- r ;; k" := (bind r (fun x => let p := x in k))
  (at level 61, p pattern, r at next level, right associativity) : result_scope.

(** ** Vectors *)

Section Vectors.
Context {A : Type}.

Definition vlen (v : list A) : Z := Z.of_nat (length v).

(** [std::vector<A> v(k, x)]. *)
Definition vmake (k : Z) (x : A) : list A := repeat x (Z.to_nat k).

Fixpoint upd (k : nat) (x : A) (v : list A) : list A :=
  match v with
  | [] => []
  | h :: t =>
      match k with
      | O => x :: t
      | S k' => h :: upd k' x t
      end
  end.

(** [v[i]] where the index is known to be in range; [d] stands for the
    unspecified value outside. *)
Definition vget (d : A) (v : list A) (i : Z) : A :=
  if 0 <=? i then nth (Z.to_nat i) v d else d.

(** [v[i] = x] where the index is known to be in range. *)
Definition vset (v : list A) (i : Z) (x : A) : list A :=
  if 0 <=? i then upd (Z.to_nat i) x v else v.

(** Checked [v[i]]. *)
Definition vat (v : list A) (i : Z) : result A :=
  if 0 <=? i then
    match nth_error v (Z.to_nat i) with
    | Some x => ok x
    | None => fail OutOfBounds
    end
  else fail OutOfBounds.

(** Checked [v[i] = x]. *)
Definition vput (v : list A) (i : Z) (x : A) : result (list A) :=
  if (0 <=? i) && (i <? vlen v) then ok (upd (Z.to_nat i) x v)
  else fail OutOfBounds.
End Vectors.

(** Two-dimensional access [a[r][j]]. *)
Definition get2 {A} (d : A) (a : list (list A)) (r j : Z) : A :=
  vget d (vget [] a r) j.
Definition set2 {A} (a : list (list A)) (r j : Z) (x : A) : list (list A) :=
  vset a r (vset (vget [] a r) j x).

Definition at2 {A} (a : list (list A)) (r j : Z) : result A :=
  (row <- vat a r ;; vat row j)%result.
Definition put2 {A} (a : list (list A)) (r j : Z) (x : A)
  : result (list (list A)) :=
  (row <- vat a r ;; row' <- vput row j x ;; vput a r row')%result.

(** ** Counted loops *)

Section Loops.
Context {S : Type}.

Fixpoint for_up (cnt : nat) (lo : Z) (body : Z -> S -> S) (s : S) : S :=
  match cnt with
  | O => s
  | Datatypes.S c => for_up c (lo + 1) body (body lo s)
  end.

(** [for (i = lo; i < hi; i++) s = body i s]. *)
Definition for_range (lo hi : Z) (body : Z -> S -> S) (s : S) : S :=
  for_up (Z.to_nat (hi - lo)) lo body s.

Fixpoint for_upM (cnt : nat) (lo : Z) (body : Z -> S -> result S) (s : S)
  : result S :=
  match cnt with
  | O => ok s
  | Datatypes.S c => bind (body lo s) (for_upM c (lo + 1) body)
  end.

(** The same loop when the body can fail. *)
Definition for_rangeM (lo hi : Z) (body : Z -> S -> result S) (s : S)
  : result S :=
  for_upM (Z.to_nat (hi - lo)) lo body s.
End Loops.

(** ** Scalars

    [T] ranges over the element types the templates are instantiated with.
    The operations are those the workers use: [0.0] and [1.0], [+], [*],
    unary and binary [-], the conversion of an [int] to the scalar type,
    division by a converted [int] ([x / (2.0 * i)], [x / (1.0 * j)]) and
    the literal [0.5].  The code is written over the operations alone. *)

Class ScalarOps (T : Type) : Type := {
  s0 : T;
  s1 : T;
  sadd : T -> T -> T;
  smul : T -> T -> T;
  ssub : T -> T -> T;
  sopp : T -> T;
  sofZ : Z -> T;
  sdivZ : T -> Z -> T;
  shalf : T
}.

(** Exact arithmetic: the operations form a commutative ring in which the
    division by a nonzero converted integer is exact.  The real and the
    rational numbers are instances; binary64 is not.  A statement over a
    [Scalar] is a statement about the code run in exact arithmetic. *)
Class Scalar (T : Type) {OT : ScalarOps T} : Prop := {
  s_ring : ring_theory s0 s1 sadd smul ssub sopp eq;
  sofZ_1 : sofZ 1 = s1;
  sofZ_add : forall a b, sofZ (a + b) = sadd (sofZ a) (sofZ b);
  sofZ_mul : forall a b, sofZ (a * b) = smul (sofZ a) (sofZ b);
  sdivZ_spec : forall x z, z <> 0 -> smul (sofZ z) (sdivZ x z) = x;
  shalf_spec : sadd shalf shalf = s1
}.

(** [std::complex<double>] over the scalar [K]. *)
Record cplx (K : Type) : Type := mkC { re : K; im : K }.
Arguments mkC {K} _ _.
Arguments re {K} _.
Arguments im {K} _.

Section ComplexOps.
Context {K : Type} {OK : ScalarOps K}.

Definition c0 : cplx K := mkC s0 s0.
Definition c1 : cplx K := mkC s1 s0.
Definition cadd (a b : cplx K) : cplx K :=
  mkC (sadd (re a) (re b)) (sadd (im a) (im b)).
Definition cmul (a b : cplx K) : cplx K :=
  mkC (ssub (smul (re a) (re b)) (smul (im a) (im b)))
      (sadd (smul (re a) (im b)) (smul (im a) (re b))).
Definition csub (a b : cplx K) : cplx K :=
  mkC (ssub (re a) (re b)) (ssub (im a) (im b)).
Definition copp (a : cplx K) : cplx K := mkC (sopp (re a)) (sopp (im a)).
Definition cofZ (z : Z) : cplx K := mkC (sofZ z) s0.
Definition cdivZ (a : cplx K) (z : Z) : cplx K :=
  mkC (sdivZ (re a) z) (sdivZ (im a) z).
Definition chalf : cplx K := mkC shalf s0.

#[export] Instance cplx_ops : ScalarOps (cplx K) := {|
  s0 := c0; s1 := c1; sadd := cadd; smul := cmul; ssub := csub;
  sopp := copp; sofZ := cofZ; sdivZ := cdivZ; shalf := chalf
|}.
End ComplexOps.

(** ** Sums and powers used to state the results *)

Section Algebra.
Context {T : Type} {OT : ScalarOps T}.

(** [x ^ k]. *)
Fixpoint spow (x : T) (k : nat) : T :=
  match k with
  | O => s1
  | S k' => smul x (spow x k')
  end.

(** [f lo + f (lo+1) + ... ] with [cnt] terms. *)
Fixpoint sum_from (cnt : nat) (lo : Z) (f : Z -> T) : T :=
  match cnt with
  | O => s0
  | S c => sadd (f lo) (sum_from c (lo + 1) f)
  end.

(** The sum of [f x] for [lo <= x < hi]. *)
Definition sum_range (lo hi : Z) (f : Z -> T) : T :=
  sum_from (Z.to_nat (hi - lo)) lo f.
End Algebra.

(** ** The power-trace routine

    [eig z n] stands for [ComplexEigenSolver(A, false).eigenvalues()] on
    the [n] by [n] matrix stored in [z]. *)

Section Powtrace.
Context {K : Type} {OK : ScalarOps K}.

(** The loops of [powtrace], after [vals] is set.  The two overloads have
    the same text; they differ in the element type [A] of [traces] and in
    what is stored there: [sum] or [sum.real()]. *)
Definition powtrace_loops {A : Type} (store : cplx K -> A) (a0 : A)
    (vals : list (cplx K)) (n l : Z) : list A :=
  let traces := vmake l a0 in
  let pvals := vmake n c0 in
  let pvals :=
    for_range 0 n (fun j pvals => vset pvals j (vget c0 vals j)) pvals in
  fst (for_range 0 l (fun i '(traces, pvals) =>
         let sum :=
           for_range 0 n (fun j sum => cadd sum (vget c0 pvals j)) c0 in
         let traces := vset traces i (store sum) in
         let pvals :=
           for_range 0 n
             (fun j pvals =>
                vset pvals j (cmul (vget c0 pvals j) (vget c0 vals j)))
             pvals in
         (traces, pvals)) (traces, pvals)).

(** [vec_complex powtrace(vec_complex &z, int n, int l)]. *)
Definition powtrace_complex (eig : list (cplx K) -> Z -> list (cplx K))
    (z : list (cplx K)) (n l : Z) : list (cplx K) :=
  let vals := vmake n c0 in
  let vals := if negb (n =? 0) then eig z n else vals in
  powtrace_loops (fun sum => sum) c0 vals n l.

(** [vec_double powtrace(vec_double &z, int n, int l)]. *)
Definition powtrace_double (eig : list K -> Z -> list (cplx K))
    (z : list K) (n l : Z) : list K :=
  let vals := vmake n c0 in
  let vals := if negb (n =? 0) then eig z n else vals in
  powtrace_loops (fun sum => re sum) s0 vals n l.
End Powtrace.

(** ** Decoding a subset index *)

(** The loop of [dec2bin] for [i = cnt-1] down to [0], writing through the
    advancing pointer [dst]. *)
Fixpoint dec2bin_loop (cnt : nat) (x : Z) (dst : list Z) (p : Z) : list Z :=
  match cnt with
  | O => dst
  | S c =>
      dec2bin_loop c x
        (vset dst p (to_char (Z.land (Z.shiftr x (Z.of_nat c)) 1))) (p + 1)
  end.

(** [dec2bin(dst, x, len)]: [char i = len - 1] runs down to [0].  [x] is
    an [unsigned long long]; the shift [x >> i] is defined for [i < 64]. *)
Definition dec2bin (dst : list Z) (x len : Z) : list Z :=
  dec2bin_loop (Z.to_nat (to_char (len - 1) + 1)) x dst 0.

(** [find2(dst, len, pos)], returning the array [pos] and [2 * j]. *)
Definition find2 (dst : list Z) (len : Z) (pos : list Z) : list Z * Z :=
  let '(pos, j) :=
    for_range 0 len (fun i '(pos, j) =>
      if 1 =? vget 0 dst i then
        let pos := vset pos (2 * j) (to_Byte (2 * i)) in
        let pos := vset pos (2 * j + 1) (to_Byte (2 * i + 1)) in
        (pos, to_Byte (j + 1))
      else (pos, j)) (pos, 0) in
  (pos, to_Byte (2 * j)).

(** The first lines of a worker's loop body: [m], [dst], [pos], [sum].
    The arrays come from [new] and hold unspecified values until written;
    they are zero here. *)
Definition decode (n x : Z) : list Z * Z :=
  let m := to_Byte (cdiv n 2) in
  let dst := vmake m 0 in
  let pos := vmake n 0 in
  let dst := dec2bin dst x m in
  find2 dst m pos.

(** The position list [pos(x)]: the [sum] entries that were written. *)
Definition pos_list (n x : Z) : list Z :=
  let '(pos, sum) := decode n x in firstn (Z.to_nat sum) pos.

(** ** The chunk workers *)

(** The state of the generating-function fold: the two rows of [comb],
    the sign [cnt] and the row selector [cntindex]. *)
Record fold_state (T : Type) : Type := mkFold {
  comb : list (list T);
  cnt : Z;
  cntindex : Z
}.
Arguments mkFold {T} _ _ _.
Arguments comb {T} _.
Arguments cnt {T} _.
Arguments cntindex {T} _.

Section Workers.
Context {T : Type} {OT : ScalarOps T}.

(** The overload of [powtrace] that the element type selects. *)
Variable powtrace : list T -> Z -> Z -> list T.

(** [B[i*sum+j] = mat[pos[i] * n + ((pos[j]) ^ 1)]]. *)
Definition build_B (mat : list T) (n : Z) (pos : list Z) (sum : Z)
  : list T :=
  for_range 0 sum (fun i B =>
    for_range 0 sum (fun j B =>
      vset B (i * sum + j)
        (vget s0 mat (vget 0 pos i * n + Z.lxor (vget 0 pos j) 1))) B)
    (vmake (sum * sum) s0).

(** [comb(2, vector(m+1, 0.0)); comb[0][0] = 1.0; cnt = 1; cntindex = 0]. *)
Definition fold_init (m : Z) : fold_state T :=
  mkFold (set2 (vmake 2 (vmake (m + 1) s0)) 0 0 s1) 1 0.

(** [for (j = 0; j < n / 2 + 1; j++)
      comb[1 - cntindex][j] = comb[cntindex][j];] *)
Definition copy_row (n cntindex : Z) (comb : list (list T))
  : list (list T) :=
  for_range 0 (cdiv n 2 + 1) (fun j comb =>
    set2 comb (1 - cntindex) j (get2 s0 comb cntindex j)) comb.

(** [for (k = i * j + 1; k <= n / 2 + 1; k++)
      comb[1 - cntindex][k - 1] += comb[cntindex][k - i * j - 1] * powfactor;] *)
Definition add_shifted (n i j cntindex : Z) (powfactor : T)
    (comb : list (list T)) : list (list T) :=
  for_range (i * j + 1) (cdiv n 2 + 1 + 1) (fun k comb =>
    set2 comb (1 - cntindex) (k - 1)
      (sadd (get2 s0 comb (1 - cntindex) (k - 1))
            (smul (get2 s0 comb cntindex (k - i * j - 1)) powfactor))) comb.

(** [powfactor = 1.0] and the loop [for (j = 1; j <= (n / (2 * i)); j++)]. *)
Definition add_powers (n i cntindex : Z) (factor : T)
    (comb : list (list T)) : list (list T) :=
  let powfactor := s1 in
  fst (for_range 1 (cdiv n (2 * i) + 1) (fun j '(comb, powfactor) =>
         let powfactor := sdivZ (smul powfactor factor) j in
         (add_shifted n i j cntindex powfactor comb, powfactor))
         (comb, powfactor)).

(** The body of the loop over [i] once [factor] is known; the text is the
    same in both workers. *)
Definition comb_update (n i : Z) (factor : T) (st : fold_state T)
  : fold_state T :=
  let cnt := to_char (- cnt st) in
  let cntindex := to_Byte (cdiv (1 + cnt) 2) in
  let comb := copy_row n cntindex (comb st) in
  let comb := add_powers n i cntindex factor comb in
  mkFold comb cnt cntindex.

(** One iteration of [for (i = 1; i <= n / 2; i++)] in [do_chunk]. *)
Definition fold_step (n : Z) (traces : list T) (i : Z)
    (st : fold_state T) : fold_state T :=
  let factor := sdivZ (vget s0 traces (i - 1)) (2 * i) in
  comb_update n i factor st.

(** The lines after the loop: the signed coefficient. *)
Definition signed_coeff (n sum : Z) (st : fold_state T) : T :=
  if cmod (cdiv sum 2) 2 =? cmod (cdiv n 2) 2
  then get2 s0 (comb st) (1 - cntindex st) (cdiv n 2)
  else sopp (get2 s0 (comb st) (1 - cntindex st) (cdiv n 2)).

(** The vector [traces] of [do_chunk] for the subset [x]. *)
Definition traces_of (mat : list T) (n x : Z) : list T :=
  let m := to_Byte (cdiv n 2) in
  let '(pos, sum) := decode n x in
  let B := build_B mat n pos sum in
  powtrace B sum m.

(** The state of the fold of [do_chunk] for the subset [x] after the
    iterations [1 .. i]. *)
Definition fold_upto (mat : list T) (n x i : Z) : fold_state T :=
  let m := to_Byte (cdiv n 2) in
  let traces := traces_of mat n x in
  for_range 1 (i + 1) (fold_step n traces) (fold_init m).

(** The body of the loop over [x] in [do_chunk], up to [res += summand]. *)
Definition summand (mat : list T) (n x : Z) : T :=
  let '(pos, sum) := decode n x in
  signed_coeff n sum (fold_upto mat n x (cdiv n 2)).

(** [T do_chunk(std::vector<T> &mat, int n, X, chunksize)]. *)
Definition do_chunk (mat : list T) (n X chunksize : Z) : T :=
  for_range X (to_ull (X + chunksize))
    (fun x res => sadd res (summand mat n x)) s0.

(** The state of the loop over [i] in [do_chunk_loops]: the fold and
    the vector [C1]. *)
Definition loops_step (n : Z) (traces B D1 : list T) (sum : Z) (i : Z)
    (st : fold_state T * list T) : fold_state T * list T :=
  let '(fs, C1) := st in
  let factor := sdivZ (vget s0 traces (i - 1)) (2 * i) in
  let tmpn :=
    for_range 0 sum (fun i tmpn =>
      sadd tmpn (smul (vget s0 C1 i) (vget s0 D1 i))) s0 in
  let factor := sadd factor (smul shalf tmpn) in
  let tmp_c1 :=
    for_range 0 sum (fun i tmp_c1 =>
      let tmp :=
        for_range 0 sum (fun j tmp =>
          sadd tmp (smul (vget s0 C1 j) (vget s0 B (j * sum + i)))) s0 in
      vset tmp_c1 i tmp) (vmake sum s0) in
  let C1 :=
    for_range 0 sum (fun i C1 => vset C1 i (vget s0 tmp_c1 i)) C1 in
  (comb_update n i factor fs, C1).

(** The body of the loop over [x] in [do_chunk_loops] up to the end of
    the loop over [i]: the final state of the fold. *)
Definition loops_final (mat C D : list T) (n x : Z) : fold_state T :=
  let m := to_Byte (cdiv n 2) in
  let '(pos, sum) := decode n x in
  let '(B, B_powtrace, C1, D1) :=
    for_range 0 sum (fun i '(B, B_powtrace, C1, D1) =>
      let '(B, B_powtrace) :=
        for_range 0 sum (fun j '(B, B_powtrace) =>
          (vset B (i * sum + j)
             (vget s0 mat (vget 0 pos i * n + Z.lxor (vget 0 pos j) 1)),
           vset B_powtrace (i * sum + j)
             (vget s0 mat (vget 0 pos i * n + Z.lxor (vget 0 pos j) 1))))
          (B, B_powtrace) in
      (B, B_powtrace,
       vset C1 i (vget s0 C (vget 0 pos i)),
       vset D1 i (vget s0 D (vget 0 pos i))))
      (vmake (sum * sum) s0, vmake (sum * sum) s0,
       vmake sum s0, vmake sum s0) in
  let traces := powtrace B_powtrace sum m in
  fst (for_range 1 (cdiv n 2 + 1) (loops_step n traces B D1 sum)
         (fold_init m, C1)).

(** The body of the loop over [x] in [do_chunk_loops], up to
    [res += summand]. *)
Definition summand_loops (mat C D : list T) (n x : Z) : T :=
  let '(pos, sum) := decode n x in
  signed_coeff n sum (loops_final mat C D n x).

(** [T do_chunk_loops(mat, C, D, int n, X, chunksize)]. *)
Definition do_chunk_loops (mat C D : list T) (n X chunksize : Z) : T :=
  for_range (to_ull (X * chunksize)) (to_ull ((X + 1) * chunksize))
    (fun x res => sadd res (summand_loops mat C D n x)) s0.

(** ** The drivers of the floating-point path *)

(** [int n = std::sqrt(static_cast<double>(mat.size()))]: the integer
    part of the square root (the rounding of [std::sqrt] does not reach the
    next integer for the sizes a vector can have). *)
Definition order_of (mat : list T) : Z := Z.sqrt (vlen mat).

(** [(unsigned long long) pow(2.0, (double) m)]: the power is exact and
    its conversion is [2^m] for [m < 64]; from [2^64] on the value does
    not fit the type and the conversion is undefined behaviour in C++, the
    error [UnrepresentableValue] here. *)
Definition pow2 (m : Z) : result Z :=
  if m <? 64 then ok (to_ull (2 ^ m)) else fail UnrepresentableValue.

(** [T hafnian(std::vector<T> &mat)]. *)
Definition hafnian (mat : list T) : result T :=
  let n := order_of mat in
  if cmod n 2 =? 0 then
    let m := to_Byte (cdiv n 2) in
    bind (pow2 m) (fun pow1 =>
    let chunksize := pow1 in
    let rank := 0 in
    ok (do_chunk mat n rank chunksize))
  else fail EvenDimensionRequired.

(** [T loop_hafnian(std::vector<T> &mat)].  The loop
    [for (int i = 0; i < n; i += 2)] runs over [i = 2 * h]. *)
Definition loop_hafnian (mat : list T) : result T :=
  let n := order_of mat in
  if cmod n 2 =? 0 then
    let m := to_Byte (cdiv n 2) in
    bind (pow2 m) (fun pow1 =>
    let D := vmake n s0 in
    let C := vmake n s0 in
    let chunksize := pow1 in
    let rank := 0 in
    let D := for_range 0 n (fun i D => vset D i (vget s0 mat (i * n + i))) D in
    let C :=
      for_range 0 (cdiv (n + 1) 2) (fun h C =>
        let i := 2 * h in
        let C := vset C i (vget s0 D (i + 1)) in
        vset C (i + 1) (vget s0 D i)) C in
    ok (do_chunk_loops mat C D n rank chunksize))
  else fail EvenDimensionRequired.
End Workers.

(** ** The recursive integer engine *)

Local Open Scope result_scope.

(** The first pair of loops of [recursive_int]: rows of [b] are copied
    into [c], one after the other, with the running row counter [i]. *)
Definition reduce_rows (b : list (list Z)) (s n : Z)
  : result (list (list Z)) :=
  let c := vmake (cdiv ((s - 2) * (s - 3)) 2) (vmake (n + 1) 0) in
  ' (c, _) <-
    for_rangeM 1 (s - 2) (fun j st =>
      for_rangeM 0 j (fun k '(c, i) =>
        c <- for_rangeM 0 (n + 1) (fun u c =>
               x <- at2 b (cdiv ((j + 1) * (j + 2)) 2 + k + 2) u ;;
               put2 c i u x) c ;;
        ok (c, i + 1)) st) (c, 0) ;;
  ok c.

(** [e = g] followed by [e[u+v+1] += g[u]*b[0][v]]. *)
Definition augment_g (b : list (list Z)) (g : list Z) (n : Z)
  : result (list Z) :=
  let e := g in
  for_rangeM 0 n (fun u e =>
    for_rangeM 0 (n - u) (fun v e =>
      old <- vat e (u + v + 1) ;;
      gu <- vat g u ;;
      b0v <- at2 b 0 v ;;
      vput e (u + v + 1) (ll_add old (ll_mul gu b0v))) e) e.

(** The second nest of loops over [j], [k], [u], [v]. *)
Definition augment_c (b c : list (list Z)) (s n : Z)
  : result (list (list Z)) :=
  for_rangeM 1 (s - 2) (fun j c =>
    for_rangeM 0 j (fun k c =>
      for_rangeM 0 n (fun u c =>
        for_rangeM 0 (n - u) (fun v c =>
          old <- at2 c (cdiv (j * (j - 1)) 2 + k) (u + v + 1) ;;
          bju <- at2 b (cdiv ((j + 1) * (j + 2)) 2) u ;;
          bkv <- at2 b (cdiv ((k + 1) * (k + 2)) 2 + 1) v ;;
          bku <- at2 b (cdiv ((k + 1) * (k + 2)) 2) u ;;
          bjv <- at2 b (cdiv ((j + 1) * (j + 2)) 2 + 1) v ;;
          put2 c (cdiv (j * (j - 1)) 2 + k) (u + v + 1)
            (ll_add old (ll_add (ll_mul bju bkv) (ll_mul bku bjv)))) c) c) c) c.

(** [long long int recursive_int(b, s, w, g, n)].  The C++ function has no
    bound on its depth; [fuel] bounds the number of nested calls. *)
Fixpoint recursive_int (fuel : nat) (b : list (list Z)) (s w : Z)
    (g : list Z) (n : Z) : result Z :=
  match fuel with
  | O => fail OutOfFuel
  | S fuel' =>
      if s =? 0 then
        gn <- vat g n ;; ok (ll_mul w gn)
      else
        c <- reduce_rows b s n ;;
        h <- recursive_int fuel' c (s - 2) (- w) g n ;;
        e <- augment_g b g n ;;
        c <- augment_c b c s n ;;
        h' <- recursive_int fuel' c (s - 2) w e n ;;
        ok (ll_add h h')
  end.

(** The seeding loop of [hafnian_int]:
    [z[j*(j-1)/2+k][0] = mat[2*j*n + k]]. *)
Definition seed_rows (mat : list Z) (n : Z) : result (list (list Z)) :=
  let z := vmake (n * (2 * n - 1)) (vmake (n + 1) 0) in
  for_rangeM 1 (2 * n) (fun j z =>
    for_rangeM 0 j (fun k z =>
      x <- vat mat (2 * j * n + k) ;;
      put2 z (cdiv (j * (j - 1)) 2 + k) 0 x) z) z.

(** [int n = std::sqrt(static_cast<double>(mat.size()))/2]: the square
    root is halved as a [double] and then truncated. *)
Definition half_order (mat : list Z) : Z := Z.sqrt (vlen mat) / 2.

(** [long long int hafnian_int(std::vector<long long int> &mat)].  The
    depth given to the engine is the one it needs for [s = 2n]. *)
Definition hafnian_int (mat : list Z) : result Z :=
  let n := half_order mat in
  let g := vmake (n + 1) 0 in
  g <- vput g 0 1 ;;
  z <- seed_rows mat n ;;
  recursive_int (S (Z.to_nat n)) z (2 * n) 1 g n.

Local Close Scope result_scope.

(** ** Instances of [Scalar] *)

(** Complex numbers over a scalar are scalars. *)
Section ComplexScalar.
Context {K : Type} {OK : ScalarOps K} {SK : Scalar K}.

Add Ring K_ring : (@s_ring K _ SK).

Lemma cplx_eq (a b : cplx K) : re a = re b -> im a = im b -> a = b.
Proof. destruct a, b; simpl; intros -> ->; reflexivity. Qed.

Lemma cplx_ring : ring_theory c0 c1 cadd cmul csub copp eq.
Proof.
  constructor; intros; apply cplx_eq; simpl; ring.
Qed.

Lemma sofZ_0 : sofZ 0 = s0 :> K.
Proof.
  assert (E : sadd (sofZ 0) (sofZ 0) = sofZ 0 :> K)
    by (rewrite <- sofZ_add; reflexivity).
  transitivity (ssub (sadd (sofZ 0) (sofZ 0)) (sofZ 0)); [ring|].
  rewrite E. ring.
Qed.

#[export] Instance cplx_Scalar : Scalar (cplx K).
Proof.
  split.
  - exact cplx_ring.
  - cbn. unfold cofZ, c1. rewrite sofZ_1. reflexivity.
  - intros a b. apply cplx_eq; simpl; [apply sofZ_add | ring].
  - intros a b. apply cplx_eq; simpl; [rewrite sofZ_mul; ring | ring].
  - intros x z Hz. apply cplx_eq; simpl.
    + rewrite (sdivZ_spec (re x) z Hz). ring.
    + rewrite (sdivZ_spec (im x) z Hz). ring.
  - apply cplx_eq; simpl; [apply shalf_spec | ring].
Qed.
End ComplexScalar.

(** Rational numbers: the instance on which the workers are run. *)
Module QcScalar.
Definition ofZ (z : Z) : Qc := Q2Qc (inject_Z z).
Definition divZ (x : Qc) (z : Z) : Qc := Qcdiv x (ofZ z).
Definition half : Qc := Q2Qc (1 # 2).

Lemma Qc_ofZ_add a b : ofZ (a + b) = Qcplus (ofZ a) (ofZ b).
Proof.
  apply Qc_is_canon. unfold ofZ, Qcplus, Q2Qc. cbn [this].
  rewrite !Qred_correct. rewrite inject_Z_plus. reflexivity.
Qed.

Lemma Qc_ofZ_mul a b : ofZ (a * b) = Qcmult (ofZ a) (ofZ b).
Proof.
  apply Qc_is_canon. unfold ofZ, Qcmult, Q2Qc. cbn [this].
  rewrite !Qred_correct. rewrite inject_Z_mult. reflexivity.
Qed.

Lemma Qc_ofZ_nonzero z : z <> 0 -> ofZ z <> Q2Qc 0.
Proof.
  intros Hz E. apply (f_equal this) in E.
  unfold ofZ, Q2Qc in E. cbn [this] in E.
  assert (Q : Qeq (inject_Z z) 0).
  { rewrite <- (Qred_correct (inject_Z z)), E. reflexivity. }
  unfold Qeq, inject_Z in Q. simpl in Q. lia.
Qed.

Lemma Qc_divZ_spec x z : z <> 0 -> Qcmult (ofZ z) (divZ x z) = x.
Proof.
  intros Hz. unfold divZ. pose proof (Qc_ofZ_nonzero z Hz).
  field. assumption.
Qed.

Lemma Qc_half_spec : Qcplus half half = Q2Qc 1.
Proof. apply Qc_is_canon. reflexivity. Qed.

#[export] Instance Qc_ops : ScalarOps Qc := {|
  s0 := Q2Qc 0; s1 := Q2Qc 1; sadd := Qcplus; smul := Qcmult;
  ssub := Qcminus; sopp := Qcopp; sofZ := ofZ; sdivZ := divZ;
  shalf := half
|}.

#[export] Instance Qc_Scalar : Scalar Qc := {|
  s_ring := Qcrt;
  sofZ_1 := eq_refl;
  sofZ_add := Qc_ofZ_add;
  sofZ_mul := Qc_ofZ_mul;
  sdivZ_spec := Qc_divZ_spec;
  shalf_spec := Qc_half_spec
|}.
End QcScalar.

(** Real numbers: exact real arithmetic. *)
Module RScalar.
Definition divZ (x : R) (z : Z) : R := Rdiv x (IZR z).

Lemma R_divZ_spec x z : z <> 0 -> Rmult (IZR z) (divZ x z) = x.
Proof.
  intros Hz. unfold divZ. field. apply not_0_IZR. assumption.
Qed.

Lemma R_half_spec : Rplus (Rdiv 1 2) (Rdiv 1 2) = 1%R.
Proof. lra. Qed.

#[export] Instance R_ops : ScalarOps R := {|
  s0 := 0%R; s1 := 1%R; sadd := Rplus; smul := Rmult;
  ssub := Rminus; sopp := Ropp; sofZ := IZR; sdivZ := divZ;
  shalf := Rdiv 1 2
|}.

#[export] Instance R_Scalar : Scalar R := {|
  s_ring := RTheory;
  sofZ_1 := eq_refl;
  sofZ_add := plus_IZR;
  sofZ_mul := mult_IZR;
  sdivZ_spec := R_divZ_spec;
  shalf_spec := R_half_spec
|}.
End RScalar.

(** Binary64, the [double] of the C++ code: the operations of IEEE 754
    with rounding to nearest even.  An [int] converts exactly.  The
    operations are not associative and the division is not exact:
    binary64 has the operations of a scalar and not the laws of
    [Scalar]. *)
Module Binary64.
Import PrimFloat.

Definition ofZ (z : Z) : float :=
  if z <? 0 then opp (of_uint63 (Uint63.of_Z (- z)))
  else of_uint63 (Uint63.of_Z z).

#[export] Instance float_ops : ScalarOps float := {|
  s0 := 0%float; s1 := 1%float; sadd := add; smul := mul;
  ssub := sub; sopp := opp; sofZ := ofZ;
  sdivZ := fun x z => div x (ofZ z);
  shalf := 0.5%float
|}.
End Binary64.

(** ** A backend for running the workers

    The eigenvalues of a triangular matrix are its diagonal entries.
    [diag_eig] returns the diagonal: it is what the solver returns (up to
    order) on the triangular matrices of the worked examples below. *)

Section DiagonalBackend.
Context {K : Type} {OK : ScalarOps K}.

Definition diag_eig_complex (z : list (cplx K)) (n : Z) : list (cplx K) :=
  map (fun j => vget c0 z (Z.of_nat j * n + Z.of_nat j))
      (seq 0 (Z.to_nat n)).

Definition diag_eig_double (z : list K) (n : Z) : list (cplx K) :=
  map (fun j => mkC (vget s0 z (Z.of_nat j * n + Z.of_nat j)) s0)
      (seq 0 (Z.to_nat n)).
End DiagonalBackend.

(** * The vocabulary of the statements *)

(** ** Index ranges and bit counts *)

(** The integers [lo, lo+1, ..., hi-1]. *)
Definition zrange (lo hi : Z) : list Z :=
  map (fun k => lo + Z.of_nat k) (seq 0 (Z.to_nat (hi - lo))).

(** The number of bits set among the [m] low bits of [x]: [|S(x)|]. *)
Definition popcount (m x : Z) : Z := vlen (filter (Z.testbit x) (zrange 0 m)).

(** The pairs [2i, 2i+1] of the indices [lo <= i < hi] that [f] selects,
    in increasing order of [i]. *)
Definition pairs_of (f : Z -> bool) (lo hi : Z) : list Z :=
  flat_map (fun i => if f i then [2 * i; 2 * i + 1] else []) (zrange lo hi).

(** Strictly increasing lists. *)
Definition increasing (l : list Z) : Prop :=
  forall p q, 0 <= p < q -> q < vlen l -> vget 0 l p < vget 0 l q.

(** In a list of sibling pairs every even entry is followed by the next
    integer. *)
Definition sibling_paired (l : list Z) : Prop :=
  forall p, 0 <= p < vlen l -> Z.even (vget 0 l p) = true ->
    p + 1 < vlen l /\ vget 0 l (p + 1) = vget 0 l p + 1.

(** ** Power sums *)

Section PowerSums.
Context {K : Type} {OK : ScalarOps K}.

(** The power sum [sum_j vals[j]^k] of the first [n] entries of [vals]. *)
Definition power_sum (vals : list (cplx K)) (n : Z) (k : Z) : cplx K :=
  sum_range 0 n (fun j => spow (vget c0 vals j) (Z.to_nat k)).
End PowerSums.

(** ** Formal power series and the state of the fold *)

Section SeriesVocabulary.
Context {T : Type} {OT : ScalarOps T}.

(** The coefficient that the worker extracts: [comb[1 - cntindex][n / 2]]. *)
Definition extracted (n : Z) (st : fold_state T) : T :=
  get2 s0 (comb st) (1 - cntindex st) (cdiv n 2).

(** [c] with the sign [+] when [a] and [b] have the same parity, [-]
    otherwise. *)
Definition with_parity_sign (a b : Z) (c : T) : T :=
  if a mod 2 =? b mod 2 then c else sopp c.

(** A formal power series is the function from a degree to its
    coefficient. *)
Definition series : Type := Z -> T.

(** The series [1]. *)
Definition ps_one : series := fun d => if d =? 0 then s1 else s0.

(** The product of two series (Cauchy product). *)
Definition ps_mul (p r : series) : series :=
  fun d => sum_range 0 (d + 1) (fun t => smul (p (d - t)) (r t)).

(** [a^j / j!]. *)
Definition exp_coeff (a : T) (j : Z) : T :=
  sdivZ (spow a (Z.to_nat j)) (Z.of_nat (fact (Z.to_nat j))).

(** The series [exp(a z^i) = sum_j (a z^i)^j / j!]: the coefficient of
    [z^d] is [a^j / j!] when [d = i j] and [0] otherwise. *)
Definition ps_exp_mono (a : T) (i : Z) : series :=
  fun d => if d mod i =? 0 then exp_coeff a (d / i) else s0.

(** The product of [exp(tau[i'-1] z^i' / (2 i'))] for [i' = 1 .. i]. *)
Fixpoint gf_product (tau : list T) (i : nat) : series :=
  match i with
  | O => ps_one
  | S k =>
      ps_mul (gf_product tau k)
        (ps_exp_mono (sdivZ (vget s0 tau (Z.of_nat k)) (2 * (Z.of_nat k + 1)))
           (Z.of_nat k + 1))
  end.

(** The buffer [comb] has two rows of [m+1] coefficients. *)
Definition wf_comb (m : Z) (c : list (list T)) : Prop :=
  vlen c = 2 /\ vlen (vget [] c 0) = m + 1 /\ vlen (vget [] c 1) = m + 1.

(** The state of the fold after [k] iterations: [cnt] is [(-1)^k], the
    buffer has its shape and the row [k mod 2] holds the coefficients
    [G 0 .. G m]. *)
Definition fold_inv (m k : Z) (G : series) (st : fold_state T) : Prop :=
  cnt st = (if Z.even k then 1 else -1) /\
  wf_comb m (comb st) /\
  forall d, 0 <= d <= m -> get2 s0 (comb st) (k mod 2) d = G d.
End SeriesVocabulary.

(** ** Triangular arrays of polynomials *)

(** The index pairs [(j, k)] with [0 <= k < j < t] and [1 <= j], by
    increasing [j] and then increasing [k]: the order in which the loops
    of the engine visit them. *)
Definition lower_pairs (t : Z) : list (Z * Z) :=
  flat_map (fun j => map (fun k => (j, k)) (zrange 0 j)) (zrange 1 t).

(** A [rows] by [cols] array. *)
Definition is_array (rows cols : Z) (a : list (list Z)) : Prop :=
  vlen a = rows /\ Forall (fun r => vlen r = cols) a.

(** The row of [b] that the reduce step copies for the pair [(j, k)]. *)
Definition reduce_source (b : list (list Z)) (p : Z * Z) : list Z :=
  vget [] b (cdiv ((fst p + 1) * (fst p + 2)) 2 + snd p + 2).

(** The row seeded for the pair [(j, k)]: the constant term
    [mat[2*j*n + k]], the other coefficients zero. *)
Definition seed_row (mat : list Z) (n : Z) (p : Z * Z) : list Z :=
  vset (vmake (n + 1) 0) 0 (vget 0 mat (2 * fst p * n + snd p)).

(** The index pairs of the reduce step as the specification words them:
    [1 <= k < j < t]. *)
Definition stated_pairs (t : Z) : list (Z * Z) :=
  flat_map (fun j => map (fun k => (j, k)) (zrange 1 j)) (zrange 1 t).

(** The seed of [hafnian_int] as the specification words it: constant
    terms for the pairs with [1 <= j < n] only, every other row zero. *)
Definition stated_seed (mat : list Z) (n : Z) : list (list Z) :=
  map (seed_row mat n) (lower_pairs n)
  ++ repeat (vmake (n + 1) 0)
       (Z.to_nat (n * (2 * n - 1) - vlen (lower_pairs n))).

(** ** Data of the worked examples *)

Import QcScalar.
Import RScalar.
Import Binary64.

(** The integer [z] as a rational scalar. *)
Definition q (z : Z) : Qc := sofZ z.

(** The upper triangular matrices [[i, 0], [0, 1+i]] and [[2, 0], [0, 3]],
    whose eigenvalues are their diagonals. *)
Definition example_zc : list (cplx Qc) :=
  [mkC (q 0) (q 1); c0; c0; mkC (q 1) (q 1)].
Definition example_zr : list Qc := [q 2; q 0; q 0; q 3].

(** The 4 by 4 zero matrix, with the diagonal vectors [C = D = (1,1,0,0)]. *)
Definition example_zero4 : list Qc := vmake 16 (q 0).
Definition example_CD : list Qc := [q 1; q 1; q 0; q 0].

(** The 2 by 2 matrix [[0, 1], [1, 0]]. *)
Definition example_swap2 : list Qc := [q 0; q 1; q 1; q 0].

(** The diagonal matrix of order 3 with the entries [1], [10^16] and
    [-10^16], in binary64 and over the rationals; the entries are
    integers that binary64 represents exactly. *)
Definition example_diag3 {T} {OT : ScalarOps T} : list T :=
  [sofZ 1; s0; s0;
   s0; sofZ (10 ^ 16); s0;
   s0; s0; sofZ (- 10 ^ 16)].

(** Six rows of length 1, numbered by their entry. *)
Definition example_b6 : list (list Z) := [[0]; [1]; [2]; [3]; [4]; [5]].

(** * Properties *)

#[global] Arguments Z.mul : simpl never.
#[global] Arguments Z.add : simpl never.
#[global] Arguments Z.sub : simpl never.
#[global] Arguments Z.opp : simpl never.
#[global] Arguments Z.quot : simpl never.
#[global] Arguments Z.rem : simpl never.
#[global] Arguments Z.div : simpl never.
#[global] Arguments Z.modulo : simpl never.
#[global] Arguments Z.pow : simpl never.
#[global] Arguments Z.of_nat : simpl never.
#[global] Arguments Z.to_nat : simpl never.

(** ** Vectors and loops *)

Section VectorFacts.
Context {A : Type}.
Implicit Types (v : list A) (x d : A).

Lemma length_upd k x v : length (upd k x v) = length v.
Proof.
  revert k; induction v as [|h t IH]; intros [|k]; simpl; auto.
Qed.

Lemma nth_upd_same k x v d : (k < length v)%nat -> nth k (upd k x v) d = x.
Proof.
  revert k; induction v as [|h t IH]; intros [|k]; simpl; intros Hk;
    try lia; auto.
  apply IH; lia.
Qed.

Lemma nth_upd_other k k' x v d : k <> k' -> nth k' (upd k x v) d = nth k' v d.
Proof.
  revert k k'; induction v as [|h t IH]; intros [|k] [|k'] Hk; simpl;
    auto; try congruence.
Qed.

Lemma upd_app_r k x v1 v2 :
  (length v1 <= k)%nat -> upd k x (v1 ++ v2) = v1 ++ upd (k - length v1) x v2.
Proof.
  revert k; induction v1 as [|h t IH]; intros k Hk; simpl in *.
  - rewrite Nat.sub_0_r. reflexivity.
  - destruct k as [|k]; [lia|]. simpl. f_equal. apply IH. lia.
Qed.

Lemma vlen_nonneg v : 0 <= vlen v.
Proof. unfold vlen; lia. Qed.

Lemma vlen_vmake k x : 0 <= k -> vlen (vmake k x) = k.
Proof. intros Hk. unfold vlen, vmake. rewrite repeat_length. lia. Qed.

Lemma vget_vmake k x d i : 0 <= i < k -> vget d (vmake k x) i = x.
Proof.
  intros Hi. unfold vget, vmake.
  destruct (0 <=? i) eqn:E; [|lia].
  apply nth_repeat_lt. lia.
Qed.

Lemma vlen_vset v i x : vlen (vset v i x) = vlen v.
Proof.
  unfold vlen, vset. destruct (0 <=? i); [rewrite length_upd|]; reflexivity.
Qed.

Lemma vget_vset_same v i x d : 0 <= i < vlen v -> vget d (vset v i x) i = x.
Proof.
  unfold vlen, vget, vset. intros Hi.
  destruct (0 <=? i) eqn:E; [|lia].
  apply nth_upd_same. lia.
Qed.

Lemma vget_vset_other v i j x d : i <> j -> vget d (vset v i x) j = vget d v j.
Proof.
  unfold vget, vset. intros Hij.
  destruct (0 <=? j) eqn:Ej; [|reflexivity].
  destruct (0 <=? i) eqn:Ei; [|reflexivity].
  apply nth_upd_other. lia.
Qed.

Lemma vget_vset v i j x d :
  0 <= i < vlen v ->
  vget d (vset v i x) j = if i =? j then x else vget d v j.
Proof.
  intros Hi. destruct (Z.eqb_spec i j) as [->|Hij].
  - apply vget_vset_same; assumption.
  - apply vget_vset_other; assumption.
Qed.

(** Two vectors of the same size with the same entries are equal. *)
Lemma vec_ext v1 v2 d :
  vlen v1 = vlen v2 ->
  (forall i, 0 <= i < vlen v1 -> vget d v1 i = vget d v2 i) ->
  v1 = v2.
Proof.
  unfold vlen, vget. intros Hl Hi.
  apply nth_ext with (d := d) (d' := d); [lia|].
  intros k Hk. specialize (Hi (Z.of_nat k)).
  destruct (0 <=? Z.of_nat k) eqn:E; [|lia].
  rewrite Nat2Z.id in Hi. apply Hi. lia.
Qed.

Lemma vat_ok v i d : 0 <= i < vlen v -> vat v i = ok (vget d v i).
Proof.
  unfold vlen, vat, vget. intros Hi.
  destruct (0 <=? i) eqn:E; [|lia].
  destruct (nth_error v (Z.to_nat i)) as [a|] eqn:En.
  - rewrite (nth_error_nth _ _ _ En). reflexivity.
  - apply nth_error_None in En. lia.
Qed.

Lemma vat_out v i : ~ (0 <= i < vlen v) -> vat v i = fail OutOfBounds.
Proof.
  unfold vlen, vat. intros Hi.
  destruct (0 <=? i) eqn:E; [|reflexivity].
  destruct (nth_error v (Z.to_nat i)) as [a|] eqn:En; [|reflexivity].
  assert (nth_error v (Z.to_nat i) <> None) as Hn by congruence.
  apply nth_error_Some in Hn. lia.
Qed.

Lemma vput_ok v i x : 0 <= i < vlen v -> vput v i x = ok (vset v i x).
Proof.
  unfold vput, vset. intros Hi.
  destruct (0 <=? i) eqn:E; [|lia].
  destruct (i <? vlen v) eqn:E'; [|lia]. reflexivity.
Qed.
End VectorFacts.

Section LoopFacts.
Context {S : Type}.
Implicit Types (body : Z -> S -> S) (s : S).

Lemma for_up_snoc c lo body s :
  for_up (Datatypes.S c) lo body s
  = body (lo + Z.of_nat c) (for_up c lo body s).
Proof.
  revert lo s; induction c as [|c IH]; intros lo s.
  - simpl. rewrite Z.add_0_r. reflexivity.
  - change (for_up (Datatypes.S (Datatypes.S c)) lo body s)
      with (for_up (Datatypes.S c) (lo + 1) body (body lo s)).
    rewrite IH. simpl for_up at 2.
    replace (lo + 1 + Z.of_nat c) with (lo + Z.of_nat (Datatypes.S c)) by lia.
    reflexivity.
Qed.

Lemma for_range_nil lo hi body s : hi <= lo -> for_range lo hi body s = s.
Proof.
  intros H. unfold for_range.
  replace (Z.to_nat (hi - lo)) with O by lia. reflexivity.
Qed.

Lemma for_range_first lo hi body s :
  lo < hi -> for_range lo hi body s = for_range (lo + 1) hi body (body lo s).
Proof.
  intros H. unfold for_range.
  replace (Z.to_nat (hi - lo)) with (Datatypes.S (Z.to_nat (hi - (lo + 1))))
    by lia.
  reflexivity.
Qed.

Lemma for_range_last lo hi body s :
  lo < hi ->
  for_range lo hi body s = body (hi - 1) (for_range lo (hi - 1) body s).
Proof.
  intros H. unfold for_range.
  replace (Z.to_nat (hi - lo)) with (Datatypes.S (Z.to_nat (hi - 1 - lo)))
    by lia.
  rewrite for_up_snoc. f_equal. lia.
Qed.

(** The invariant rule of a counted loop. *)
Lemma for_range_inv (P : Z -> S -> Prop) lo hi body s :
  lo <= hi ->
  P lo s ->
  (forall i t, lo <= i < hi -> P i t -> P (i + 1) (body i t)) ->
  P hi (for_range lo hi body s).
Proof.
  intros Hle H0 Hstep.
  assert (G : forall c, (c <= Z.to_nat (hi - lo))%nat ->
              P (lo + Z.of_nat c) (for_up c lo body s)).
  { induction c as [|c IH]; intros Hc.
    - simpl. rewrite Z.add_0_r. assumption.
    - rewrite for_up_snoc.
      replace (lo + Z.of_nat (Datatypes.S c)) with (lo + Z.of_nat c + 1)
        by lia.
      apply Hstep; [lia|]. apply IH. lia. }
  specialize (G (Z.to_nat (hi - lo)) (le_n _)).
  replace (lo + Z.of_nat (Z.to_nat (hi - lo))) with hi in G by lia.
  exact G.
Qed.

End LoopFacts.

Section LoopMFacts.
Context {S : Type}.
Implicit Types (body : Z -> S -> result S) (s : S).

Lemma for_rangeM_nil lo hi body s : hi <= lo -> for_rangeM lo hi body s = ok s.
Proof.
  intros H. unfold for_rangeM.
  replace (Z.to_nat (hi - lo)) with O by lia. reflexivity.
Qed.

Lemma for_rangeM_first lo hi body s :
  lo < hi ->
  for_rangeM lo hi body s = bind (body lo s) (for_rangeM (lo + 1) hi body).
Proof.
  intros H. unfold for_rangeM.
  replace (Z.to_nat (hi - lo)) with (Datatypes.S (Z.to_nat (hi - (lo + 1))))
    by lia.
  reflexivity.
Qed.

(** The invariant rule when the body can fail: if every iteration
    succeeds from a state that satisfies the invariant, the loop
    succeeds. *)
Lemma for_rangeM_inv (P : Z -> S -> Prop) lo hi body s :
  lo <= hi ->
  P lo s ->
  (forall i t, lo <= i < hi -> P i t ->
               exists t', body i t = ok t' /\ P (i + 1) t') ->
  exists t, for_rangeM lo hi body s = ok t /\ P hi t.
Proof.
  intros Hle H0 Hstep. unfold for_rangeM.
  remember (Z.to_nat (hi - lo)) as c eqn:Ec.
  revert lo s Hle H0 Hstep Ec.
  induction c as [|c IH]; intros lo s Hle H0 Hstep Ec.
  - simpl. exists s. split; [reflexivity|].
    replace hi with lo by lia. assumption.
  - simpl. destruct (Hstep lo s) as (t' & Ht' & HP); [lia|assumption|].
    rewrite Ht'. simpl. apply IH; try lia; try assumption.
    intros i t Hi. apply Hstep. lia.
Qed.
End LoopMFacts.

(** ** Decoding a subset index: the position list *)

Lemma zrange_nil lo hi : hi <= lo -> zrange lo hi = [].
Proof.
  intros H. unfold zrange. replace (Z.to_nat (hi - lo)) with O by lia.
  reflexivity.
Qed.

Lemma zrange_last lo hi : lo <= hi -> zrange lo (hi + 1) = zrange lo hi ++ [hi].
Proof.
  intros H. unfold zrange.
  replace (Z.to_nat (hi + 1 - lo)) with (Z.to_nat (hi - lo) + 1)%nat by lia.
  rewrite seq_app, map_app. simpl. do 2 f_equal. lia.
Qed.

Lemma zrange_first lo hi : lo < hi -> zrange lo hi = lo :: zrange (lo + 1) hi.
Proof.
  intros H. unfold zrange.
  replace (Z.to_nat (hi - lo)) with (S (Z.to_nat (hi - (lo + 1)))) by lia.
  simpl. f_equal; [lia|].
  rewrite <- seq_shift, map_map. apply map_ext. intros k. lia.
Qed.

Lemma in_zrange lo hi i : In i (zrange lo hi) <-> lo <= i < hi.
Proof.
  unfold zrange. rewrite in_map_iff. split.
  - intros (k & <- & Hk). apply in_seq in Hk. lia.
  - intros Hi. exists (Z.to_nat (i - lo)). split; [lia|].
    apply in_seq. lia.
Qed.

Lemma length_zrange lo hi : lo <= hi -> vlen (zrange lo hi) = hi - lo.
Proof.
  intros H. unfold vlen, zrange. rewrite length_map, length_seq. lia.
Qed.

Lemma zrange_succ lo hi : zrange (lo + 1) (hi + 1) = map Z.succ (zrange lo hi).
Proof.
  unfold zrange. rewrite map_map.
  replace (Z.to_nat (hi + 1 - (lo + 1))) with (Z.to_nat (hi - lo)) by lia.
  apply map_ext. intros a. lia.
Qed.

Lemma zrange_rev m :
  0 <= m -> map (fun i => m - 1 - i) (zrange 0 m) = rev (zrange 0 m).
Proof.
  intros Hm. rewrite <- (Z2Nat.id m Hm). generalize (Z.to_nat m) as k.
  clear. induction k as [|k IH].
  - reflexivity.
  - replace (Z.of_nat (S k)) with (Z.of_nat k + 1) by lia.
    rewrite (zrange_last 0 (Z.of_nat k)) at 2 by lia.
    rewrite rev_app_distr, <- IH.
    rewrite (zrange_first 0 (Z.of_nat k + 1)) by lia.
    rewrite zrange_succ, map_cons, map_map.
    change (rev [Z.of_nat k] ++ ?l) with (Z.of_nat k :: l).
    f_equal; [lia|]. apply map_ext. intros a. lia.
Qed.

(** *** The bits written by [dec2bin] *)

Lemma bit_of_shift x c :
  0 <= c -> to_char (Z.land (Z.shiftr x c) 1) = Z.b2z (Z.testbit x c).
Proof.
  intros Hc.
  change 1 with (Z.ones 1) at 1. rewrite Z.land_ones by lia.
  change (2 ^ 1) with 2. rewrite <- Z.bit0_mod.
  rewrite Z.shiftr_spec by lia. rewrite Z.add_0_l.
  destruct (Z.testbit x c); reflexivity.
Qed.

Lemma dec2bin_loop_spec cnt x : forall dst p,
  0 <= p -> p + Z.of_nat cnt <= vlen dst ->
  let d := dec2bin_loop cnt x dst p in
  vlen d = vlen dst /\
  forall t, 0 <= t < p + Z.of_nat cnt ->
    vget 0 d t = if t <? p then vget 0 dst t
                 else Z.b2z (Z.testbit x (Z.of_nat cnt - 1 - (t - p))).
Proof.
  induction cnt as [|c IH]; intros dst p Hp Hlen; cbn zeta.
  - simpl. split; [reflexivity|]. intros t Ht.
    destruct (t <? p) eqn:E; [reflexivity|lia].
  - simpl dec2bin_loop.
    destruct (IH (vset dst p (to_char (Z.land (Z.shiftr x (Z.of_nat c)) 1)))
                (p + 1)) as [Hl Hg].
    + lia.
    + rewrite vlen_vset. lia.
    + split; [rewrite Hl; apply vlen_vset|].
      intros t Ht. rewrite Hg by lia.
      destruct (t <? p + 1) eqn:E1; destruct (t <? p) eqn:E2; try lia.
      * apply vget_vset_other. lia.
      * assert (t = p) by lia. subst t.
        rewrite vget_vset_same by lia.
        rewrite bit_of_shift by lia. do 2 f_equal. lia.
      * do 2 f_equal. lia.
Qed.

Lemma dec2bin_spec dst x m :
  0 <= m <= 128 -> vlen dst = m ->
  vlen (dec2bin dst x m) = m /\
  forall t, 0 <= t < m ->
    vget 0 (dec2bin dst x m) t = Z.b2z (Z.testbit x (m - 1 - t)).
Proof.
  intros Hm Hl. unfold dec2bin.
  assert (Hc : to_char (m - 1) + 1 = m) by (unfold to_char; lia).
  rewrite Hc.
  destruct (dec2bin_loop_spec (Z.to_nat m) x dst 0) as [H1 H2]; try lia.
  split; [lia|]. intros t Ht. rewrite H2 by lia.
  destruct (t <? 0) eqn:E; [lia|]. do 2 f_equal. lia.
Qed.

(** *** The positions written by [find2] *)

Lemma vget_app_l {A} (d : A) (v1 v2 : list A) i :
  i < vlen v1 -> vget d (v1 ++ v2) i = vget d v1 i.
Proof.
  unfold vget, vlen. intros Hi. destruct (0 <=? i) eqn:E; [|reflexivity].
  apply app_nth1. lia.
Qed.

Lemma vget_app_r {A} (d : A) (v1 v2 : list A) i :
  vlen v1 <= i -> vget d (v1 ++ v2) i = vget d v2 (i - vlen v1).
Proof.
  unfold vget, vlen. intros Hi.
  destruct (0 <=? i) eqn:E; [|lia].
  destruct (0 <=? i - Z.of_nat (length v1)) eqn:E'; [|lia].
  rewrite app_nth2 by lia. f_equal. lia.
Qed.

Lemma vlen_app {A} (v1 v2 : list A) : vlen (v1 ++ v2) = vlen v1 + vlen v2.
Proof. unfold vlen. rewrite length_app. lia. Qed.

Lemma vget_firstn {A} (d : A) (v : list A) k i :
  i < Z.of_nat k -> vget d (firstn k v) i = vget d v i.
Proof.
  unfold vget. intros Hi. destruct (0 <=? i) eqn:E; [|reflexivity].
  rewrite <- (firstn_skipn k v) at 2.
  destruct (Nat.lt_ge_cases (Z.to_nat i) (length (firstn k v))) as [H|H].
  - rewrite app_nth1 by assumption. reflexivity.
  - rewrite (nth_overflow (firstn k v)) by assumption.
    rewrite length_firstn in H.
    assert (length v <= Z.to_nat i)%nat by lia.
    rewrite firstn_skipn. rewrite nth_overflow by assumption. reflexivity.
Qed.

Lemma vlen_firstn {A} (v : list A) k :
  Z.of_nat k <= vlen v -> vlen (firstn k v) = Z.of_nat k.
Proof. unfold vlen. intros H. rewrite length_firstn. lia. Qed.

Lemma pairs_of_nil f lo hi : hi <= lo -> pairs_of f lo hi = [].
Proof. intros H. unfold pairs_of. rewrite zrange_nil by assumption. reflexivity. Qed.

Lemma pairs_of_last f lo hi :
  lo <= hi ->
  pairs_of f lo (hi + 1)
  = pairs_of f lo hi ++ (if f hi then [2 * hi; 2 * hi + 1] else []).
Proof.
  intros H. unfold pairs_of. rewrite zrange_last by assumption.
  rewrite flat_map_app. simpl. rewrite app_nil_r. reflexivity.
Qed.

Lemma pairs_of_ext f g lo hi :
  (forall i, lo <= i < hi -> f i = g i) -> pairs_of f lo hi = pairs_of g lo hi.
Proof.
  intros H. unfold pairs_of.
  assert (G : forall l, (forall i, In i l -> f i = g i) ->
     flat_map (fun i => if f i then [2 * i; 2 * i + 1] else []) l
     = flat_map (fun i => if g i then [2 * i; 2 * i + 1] else []) l).
  { induction l as [|a l IH]; intros Hl; simpl; [reflexivity|].
    rewrite (Hl a) by (left; reflexivity). f_equal.
    apply IH. intros i Hi. apply Hl. right. assumption. }
  apply G. intros i Hi. apply H. apply in_zrange. assumption.
Qed.

Lemma vlen_pairs_of f lo hi :
  vlen (pairs_of f lo hi) = 2 * vlen (filter f (zrange lo hi)).
Proof.
  unfold pairs_of, vlen. induction (zrange lo hi) as [|a l IH]; simpl.
  - reflexivity.
  - rewrite length_app. destruct (f a); cbn [length]; lia.
Qed.

Lemma vlen_pairs_of_bound f lo hi :
  lo <= hi -> vlen (pairs_of f lo hi) <= 2 * (hi - lo).
Proof.
  intros H. rewrite vlen_pairs_of.
  pose proof (filter_length_le f (zrange lo hi)) as Hf.
  pose proof (length_zrange lo hi H) as Hz. unfold vlen in *. lia.
Qed.

(** The loop of [find2] writes the pairs of the flagged indices at the
    front of [pos]. *)
Lemma find2_spec dst len pos :
  0 <= len <= 127 -> 2 * len <= vlen pos ->
  let f := fun i => 1 =? vget 0 dst i in
  let '(pos', sum) := find2 dst len pos in
  sum = vlen (pairs_of f 0 len) /\
  vlen pos' = vlen pos /\
  forall t, 0 <= t < sum -> vget 0 pos' t = vget 0 (pairs_of f 0 len) t.
Proof.
  intros Hlen Hpos f. unfold find2.
  pose (P := fun (i : Z) (st : list Z * Z) =>
    let '(p, j) := st in
    vlen p = vlen pos /\ 0 <= j <= i /\
    2 * j = vlen (pairs_of f 0 i) /\
    forall t, 0 <= t < 2 * j -> vget 0 p t = vget 0 (pairs_of f 0 i) t).
  match goal with
  | |- context [for_range 0 len ?b ?s] =>
      assert (HP : P len (for_range 0 len b s))
  end.
  { apply for_range_inv.
    - lia.
    - unfold P. rewrite pairs_of_nil by lia. repeat split; try lia.
    - intros i [p j] Hi (Hl & Hj & H2 & Hg). unfold P.
      rewrite pairs_of_last by lia. fold (f i).
      destruct (f i) eqn:Ef.
      + unfold to_Byte. rewrite !Z.mod_small by lia.
        rewrite !vlen_vset, vlen_app. repeat split; try lia.
        * change (vlen [2 * i; 2 * i + 1]) with 2. lia.
        * intros t Ht.
          destruct (Z.eq_dec t (2 * j + 1)) as [->|N1].
          { rewrite vget_vset_same by (rewrite vlen_vset; lia).
            rewrite vget_app_r by lia. rewrite <- H2.
            replace (2 * j + 1 - 2 * j) with 1 by lia. reflexivity. }
          rewrite vget_vset_other by lia.
          destruct (Z.eq_dec t (2 * j)) as [->|N2].
          { rewrite vget_vset_same by lia.
            rewrite vget_app_r by lia. rewrite <- H2.
            replace (2 * j - 2 * j) with 0 by lia. reflexivity. }
          rewrite vget_vset_other by lia.
          rewrite vget_app_l by lia. apply Hg. lia.
      + rewrite app_nil_r. repeat split; try lia. assumption. }
  destruct (for_range 0 len _ _) as [p j].
  destruct HP as (Hl & Hj & H2 & Hg).
  unfold to_Byte. rewrite Z.mod_small by lia.
  repeat split; try assumption. 
Qed.

(** *** The shape of a list of pairs *)

Lemma in_pairs_of f lo hi y :
  In y (pairs_of f lo hi) ->
  exists i, lo <= i < hi /\ f i = true /\ (y = 2 * i \/ y = 2 * i + 1).
Proof.
  unfold pairs_of. rewrite in_flat_map. intros (i & Hi & Hy).
  apply in_zrange in Hi. exists i. split; [assumption|].
  destruct (f i); [|contradiction].
  split; [reflexivity|]. simpl in Hy. intuition auto.
Qed.

Lemma pairs_of_first f lo hi :
  lo < hi ->
  pairs_of f lo hi
  = (if f lo then [2 * lo; 2 * lo + 1] else []) ++ pairs_of f (lo + 1) hi.
Proof.
  intros H. unfold pairs_of. rewrite zrange_first by assumption. reflexivity.
Qed.

Lemma pairs_of_split f lo hi i :
  lo <= i < hi ->
  pairs_of f lo hi
  = pairs_of f lo i ++ (if f i then [2 * i; 2 * i + 1] else [])
      ++ pairs_of f (i + 1) hi.
Proof.
  intros Hi.
  assert (G : forall c lo', lo' <= i -> Z.to_nat (i - lo') = c ->
            pairs_of f lo' hi
            = pairs_of f lo' i ++ (if f i then [2 * i; 2 * i + 1] else [])
                ++ pairs_of f (i + 1) hi).
  { induction c as [|c IH]; intros lo' Hle Hc.
    - assert (lo' = i) by lia. subst lo'.
      rewrite (pairs_of_nil f i i) by lia. rewrite app_nil_l.
      apply pairs_of_first. lia.
    - rewrite (pairs_of_first f lo' hi) by lia.
      rewrite (pairs_of_first f lo' i) by lia.
      rewrite (IH (lo' + 1)) by lia. rewrite <- app_assoc. reflexivity. }
  apply (G (Z.to_nat (i - lo)) lo); lia.
Qed.

Lemma vget_in {A} (d : A) (l : list A) p : 0 <= p < vlen l -> In (vget d l p) l.
Proof.
  unfold vget, vlen. intros Hp. destruct (0 <=? p) eqn:E; [|lia].
  apply nth_In. lia.
Qed.

Lemma vget_cons {A} (d : A) a (l : list A) p :
  0 < p -> vget d (a :: l) p = vget d l (p - 1).
Proof.
  intros Hp. change (a :: l) with ([a] ++ l).
  rewrite vget_app_r by (change (vlen [a]) with 1; lia). reflexivity.
Qed.

Lemma increasing_pairs_of f lo hi : increasing (pairs_of f lo hi).
Proof.
  destruct (Z.le_gt_cases hi lo) as [H|H].
  { rewrite pairs_of_nil by assumption. intros p q Hp Hq.
    change (vlen (@nil Z)) with 0 in Hq. lia. }
  assert (G : forall c lo', Z.to_nat (hi - lo') = c ->
                increasing (pairs_of f lo' hi)).
  { induction c as [|c IH]; intros lo' Hc.
    - rewrite pairs_of_nil by lia. intros p q Hp Hq.
      change (vlen (@nil Z)) with 0 in Hq. lia.
    - rewrite pairs_of_first by lia.
      specialize (IH (lo' + 1) ltac:(lia)).
      assert (Hlow : forall t, 0 <= t < vlen (pairs_of f (lo' + 1) hi) ->
                 2 * lo' + 1 < vget 0 (pairs_of f (lo' + 1) hi) t).
      { intros t Ht. pose proof (vget_in 0 _ t Ht) as Hin.
        apply in_pairs_of in Hin. destruct Hin as (i & Hi & _ & Hy). lia. }
      destruct (f lo'); [|exact IH].
      intros p q Hp Hq. rewrite vlen_app in Hq.
      change (vlen [2 * lo'; 2 * lo' + 1]) with 2 in Hq.
      assert (Hv : forall t, 0 <= t ->
                vget 0 ([2 * lo'; 2 * lo' + 1] ++ pairs_of f (lo' + 1) hi) t
                = if t =? 0 then 2 * lo'
                  else if t =? 1 then 2 * lo' + 1
                  else vget 0 (pairs_of f (lo' + 1) hi) (t - 2)).
      { intros t Ht.
        destruct (Z.eqb_spec t 0) as [->|N0]; [reflexivity|].
        destruct (Z.eqb_spec t 1) as [->|N1]; [reflexivity|].
        rewrite vget_app_r by (change (vlen [2 * lo'; 2 * lo' + 1]) with 2; lia).
        reflexivity. }
      rewrite !Hv by lia.
      destruct (Z.eqb_spec p 0); destruct (Z.eqb_spec q 0); try lia;
      destruct (Z.eqb_spec p 1); destruct (Z.eqb_spec q 1); try lia.
      + specialize (Hlow (q - 2)). lia.
      + specialize (Hlow (q - 2)). lia.
      + apply IH; lia. }
  apply (G (Z.to_nat (hi - lo))). reflexivity.
Qed.

Lemma sibling_paired_pairs_of f lo hi : sibling_paired (pairs_of f lo hi).
Proof.
  assert (G : forall c lo', Z.to_nat (hi - lo') = c ->
                sibling_paired (pairs_of f lo' hi)).
  { induction c as [|c IH]; intros lo' Hc.
    - rewrite pairs_of_nil by lia. intros p Hp.
      change (vlen (@nil Z)) with 0 in Hp. lia.
    - rewrite pairs_of_first by lia.
      specialize (IH (lo' + 1) ltac:(lia)).
      destruct (f lo'); [|exact IH].
      intros p Hp Hev. rewrite vlen_app in *.
      change (vlen [2 * lo'; 2 * lo' + 1]) with 2 in *.
      pose proof (vlen_nonneg (pairs_of f (lo' + 1) hi)) as Hnn.
      destruct (Z.eq_dec p 0) as [->|N0].
      { split; [lia|]. reflexivity. }
      destruct (Z.eq_dec p 1) as [->|N1].
      { exfalso. change (Z.even (2 * lo' + 1) = true) in Hev.
        rewrite (Z.add_comm (2 * lo') 1), Z.even_add_mul_2 in Hev.
        discriminate. }
      rewrite vget_app_r in Hev
        by (change (vlen [2 * lo'; 2 * lo' + 1]) with 2; lia).
      rewrite !vget_app_r
        by (change (vlen [2 * lo'; 2 * lo' + 1]) with 2; lia).
      change (vlen [2 * lo'; 2 * lo' + 1]) with 2 in *.
      destruct (IH (p - 2)) as [H1 H2]; [lia|assumption|].
      split; [lia|]. replace (p + 1 - 2) with (p - 2 + 1) by lia.
      assumption. }
  apply (G (Z.to_nat (hi - lo))). reflexivity.
Qed.

(** *** The position list of a subset index *)

(** [pos(x)] in closed form: the pairs of the indices [i] whose flag, bit
    [m-1-i] of [x], is set. *)
Lemma pos_list_closed m x :
  0 <= m <= 64 ->
  pos_list (2 * m) x = pairs_of (fun i => Z.testbit x (m - 1 - i)) 0 m.
Proof.
  intros Hm. unfold pos_list, decode.
  assert (Em : to_Byte (cdiv (2 * m) 2) = m).
  { unfold to_Byte, cdiv. rewrite Z.quot_div_nonneg by lia.
    rewrite Z.mul_comm, Z.div_mul by lia. apply Z.mod_small. lia. }
  rewrite Em.
  destruct (dec2bin_spec (vmake m 0) x m) as [Hdl Hdg];
    [lia | apply vlen_vmake; lia |].
  pose proof (find2_spec (dec2bin (vmake m 0) x m) m (vmake (2 * m) 0)) as Hf.
  cbn zeta in Hf.
  destruct (find2 (dec2bin (vmake m 0) x m) m (vmake (2 * m) 0))
    as [pos' sum].
  destruct Hf as (Hs & Hl & Hg); [lia | rewrite vlen_vmake; lia |].
  rewrite vlen_vmake in Hl by lia.
  assert (Hx : pairs_of (fun i => 1 =? vget 0 (dec2bin (vmake m 0) x m) i) 0 m
               = pairs_of (fun i => Z.testbit x (m - 1 - i)) 0 m).
  { apply pairs_of_ext. intros i Hi. rewrite Hdg by lia.
    destruct (Z.testbit x (m - 1 - i)); reflexivity. }
  rewrite Hx in *.
  pose proof (vlen_pairs_of_bound (fun i => Z.testbit x (m - 1 - i)) 0 m
                ltac:(lia)) as Hb.
  pose proof (vlen_nonneg (pairs_of (fun i => Z.testbit x (m - 1 - i)) 0 m)).
  apply vec_ext with (d := 0).
  - rewrite vlen_firstn by lia. lia.
  - intros t Ht. rewrite vlen_firstn in Ht by lia.
    rewrite vget_firstn by lia. apply Hg. lia.
Qed.

(** The number of flagged indices is the number of bits set. *)
Lemma flagged_count m x :
  0 <= m ->
  vlen (filter (fun i => Z.testbit x (m - 1 - i)) (zrange 0 m)) = popcount m x.
Proof.
  intros Hm. unfold popcount, vlen. f_equal.
  transitivity (length (filter (Z.testbit x)
                          (map (fun i => m - 1 - i) (zrange 0 m)))).
  - induction (zrange 0 m) as [|a l IH]; [reflexivity|].
    cbn [map filter]. destruct (Z.testbit x (m - 1 - a)); cbn [length];
      rewrite IH; reflexivity.
  - rewrite zrange_rev by assumption.
    rewrite filter_rev, length_rev. reflexivity.
Qed.

(** The value [sum] that the worker computes for [x]. *)
Lemma decode_sum m x :
  0 <= m <= 64 -> snd (decode (2 * m) x) = 2 * popcount m x.
Proof.
  intros Hm. unfold decode.
  assert (Em : to_Byte (cdiv (2 * m) 2) = m).
  { unfold to_Byte, cdiv. rewrite Z.quot_div_nonneg by lia.
    rewrite Z.mul_comm, Z.div_mul by lia. apply Z.mod_small. lia. }
  rewrite Em.
  destruct (dec2bin_spec (vmake m 0) x m) as [Hdl Hdg];
    [lia | apply vlen_vmake; lia |].
  pose proof (find2_spec (dec2bin (vmake m 0) x m) m (vmake (2 * m) 0)) as Hf.
  cbn zeta in Hf.
  destruct (find2 (dec2bin (vmake m 0) x m) m (vmake (2 * m) 0))
    as [pos' sum].
  destruct Hf as (Hs & _); [lia | rewrite vlen_vmake; lia |].
  cbn [snd]. rewrite Hs.
  rewrite (pairs_of_ext _ (fun i => Z.testbit x (m - 1 - i))).
  - rewrite vlen_pairs_of, flagged_count by lia. reflexivity.
  - intros i Hi. rewrite Hdg by lia.
    destruct (Z.testbit x (m - 1 - i)); reflexivity.
Qed.

(** C6 (amended).  For a matrix of order [2m] with [m <= 64] and a subset
    index [0 <= x < 2^m], the position list [pos(x)] built by [dec2bin] and
    [find2] has length [2 |S(x)|]; [dec2bin] writes the most significant
    of the [m] bits first, so a set bit [b] of [x] contributes the entries
    [2(m-1-b)] and [2(m-1-b)+1], next to each other and in this order; the
    entries are strictly increasing and every even entry is immediately
    followed by its odd sibling. *)
Theorem pos_list_shape m x b :
  0 <= m <= 64 -> 0 <= x < 2 ^ m -> 0 <= b < m -> Z.testbit x b = true ->
  let pos := pos_list (2 * m) x in
  vlen pos = 2 * popcount m x /\
  (exists p, 0 <= p /\ p + 1 < vlen pos /\
             vget 0 pos p = 2 * (m - 1 - b) /\
             vget 0 pos (p + 1) = 2 * (m - 1 - b) + 1) /\
  increasing pos /\
  sibling_paired pos.
Proof.
  intros Hm Hx Hb Hbit pos. subst pos.
  rewrite pos_list_closed by assumption.
  set (f := fun i => Z.testbit x (m - 1 - i)).
  split; [|split; [|split]].
  - rewrite vlen_pairs_of. unfold f. rewrite flagged_count by lia.
    reflexivity.
  - rewrite (pairs_of_split f 0 m (m - 1 - b)) by lia.
    assert (Hf : f (m - 1 - b) = true).
    { unfold f. replace (m - 1 - (m - 1 - b)) with b by lia. assumption. }
    rewrite Hf.
    pose proof (vlen_nonneg (pairs_of f 0 (m - 1 - b))) as H0.
    pose proof (vlen_nonneg (pairs_of f (m - 1 - b + 1) m)) as H1.
    exists (vlen (pairs_of f 0 (m - 1 - b))).
    rewrite !vlen_app.
    change (vlen [2 * (m - 1 - b); 2 * (m - 1 - b) + 1]) with 2.
    split; [lia|]. split; [lia|].
    set (mid := [2 * (m - 1 - b); 2 * (m - 1 - b) + 1]).
    assert (Hmid : vlen mid = 2) by reflexivity.
    split.
    + rewrite vget_app_r by lia. rewrite Z.sub_diag.
      rewrite vget_app_l by lia. reflexivity.
    + rewrite vget_app_r by lia.
      replace (vlen (pairs_of f 0 (m - 1 - b)) + 1
               - vlen (pairs_of f 0 (m - 1 - b))) with 1 by lia.
      rewrite vget_app_l by lia. reflexivity.
  - apply increasing_pairs_of.
  - apply sibling_paired_pairs_of.
Qed.

(** The amended statement at [m = 2], [x = 1], [b = 0]. *)
Lemma pos_list_shape_witness :
  let pos := pos_list (2 * 2) 1 in
  vlen pos = 2 * popcount 2 1 /\
  (exists p, 0 <= p /\ p + 1 < vlen pos /\
             vget 0 pos p = 2 * (2 - 1 - 0) /\
             vget 0 pos (p + 1) = 2 * (2 - 1 - 0) + 1) /\
  increasing pos /\
  sibling_paired pos.
Proof.
  apply (pos_list_shape 2 1 0); [lia | split; [lia | reflexivity] | lia
                                 | reflexivity].
Defined.

(** C6 as stated fails: bit [0] of [x = 1] is set, and for [m = 2] the
    position list is [2; 3]; it does not contain [2*0]. *)
Lemma pos_list_bit_order_counterexample :
  0 <= 1 < 2 ^ 2 /\ Z.testbit 1 0 = true /\
  pos_list (2 * 2) 1 = [2; 3] /\ ~ In (2 * 0) (pos_list (2 * 2) 1).
Proof.
  split; [split; [lia | reflexivity]|].
  split; [reflexivity|]. split; [reflexivity|].
  change (pos_list (2 * 2) 1) with [2; 3].
  intros [H|[H|[]]]; discriminate.
Qed.

(** ** Sums *)

Section SumFacts.
Context {T : Type} {OT : ScalarOps T} {ST : Scalar T}.

Add Ring T_ring : (@s_ring T _ ST).

Lemma sum_range_nil lo hi (f : Z -> T) : hi <= lo -> sum_range lo hi f = s0.
Proof.
  intros H. unfold sum_range. replace (Z.to_nat (hi - lo)) with O by lia.
  reflexivity.
Qed.

Lemma sum_range_first lo hi (f : Z -> T) :
  lo < hi -> sum_range lo hi f = sadd (f lo) (sum_range (lo + 1) hi f).
Proof.
  intros H. unfold sum_range.
  replace (Z.to_nat (hi - lo)) with (S (Z.to_nat (hi - (lo + 1)))) by lia.
  reflexivity.
Qed.

Lemma sum_from_last c lo (f : Z -> T) :
  sum_from (S c) lo f = sadd (sum_from c lo f) (f (lo + Z.of_nat c)).
Proof.
  revert lo; induction c as [|c IH]; intros lo.
  - simpl. rewrite Z.add_0_r. ring.
  - change (sum_from (S (S c)) lo f)
      with (sadd (f lo) (sum_from (S c) (lo + 1) f)).
    rewrite IH. simpl sum_from.
    replace (lo + 1 + Z.of_nat c) with (lo + Z.of_nat (S c)) by lia. ring.
Qed.

Lemma sum_range_last lo hi (f : Z -> T) :
  lo < hi -> sum_range lo hi f = sadd (sum_range lo (hi - 1) f) (f (hi - 1)).
Proof.
  intros H. unfold sum_range.
  replace (Z.to_nat (hi - lo)) with (S (Z.to_nat (hi - 1 - lo))) by lia.
  rewrite sum_from_last. do 2 f_equal. lia.
Qed.

Lemma sum_range_ext lo hi (f g : Z -> T) :
  (forall i, lo <= i < hi -> f i = g i) -> sum_range lo hi f = sum_range lo hi g.
Proof.
  intros H. unfold sum_range.
  remember (Z.to_nat (hi - lo)) as c eqn:Ec. revert lo H Ec.
  induction c as [|c IH]; intros lo H Ec; [reflexivity|].
  simpl. rewrite (H lo) by lia. f_equal. apply IH; [|lia].
  intros i Hi. apply H. lia.
Qed.

Lemma sum_range_zero lo hi (f : Z -> T) :
  (forall i, lo <= i < hi -> f i = s0) -> sum_range lo hi f = s0.
Proof.
  intros H. unfold sum_range.
  remember (Z.to_nat (hi - lo)) as c eqn:Ec. revert lo H Ec.
  induction c as [|c IH]; intros lo H Ec; [reflexivity|].
  simpl. rewrite (H lo) by lia. rewrite IH; [ring| |lia].
  intros i Hi. apply H. lia.
Qed.

(** An accumulation loop computes a sum. *)
Lemma for_range_sum lo hi (f : Z -> T) (a : T) :
  for_range lo hi (fun x acc => sadd acc (f x)) a
  = sadd a (sum_range lo hi f).
Proof.
  unfold for_range, sum_range. generalize (Z.to_nat (hi - lo)) as c.
  intros c. revert lo a. induction c as [|c IH]; intros lo a; simpl.
  - ring.
  - rewrite IH. ring.
Qed.

Lemma for_range_sum0 lo hi (f : Z -> T) :
  for_range lo hi (fun x acc => sadd acc (f x)) s0 = sum_range lo hi f.
Proof. rewrite for_range_sum. ring. Qed.

Lemma spow_succ_r (x : T) k : spow x (S k) = smul (spow x k) x.
Proof. simpl. ring. Qed.
End SumFacts.

(** A loop that rewrites the entries [0 .. n-1] of a vector one by one. *)
Lemma for_range_pointwise {A} (d : A) (g : Z -> A -> A) n (p0 : list A) :
  0 <= n <= vlen p0 ->
  let p := for_range 0 n (fun j p => vset p j (g j (vget d p j))) p0 in
  vlen p = vlen p0 /\
  forall j, 0 <= j < vlen p0 ->
    vget d p j = if j <? n then g j (vget d p0 j) else vget d p0 j.
Proof.
  intros Hn. cbn zeta.
  apply (for_range_inv (fun i p =>
           vlen p = vlen p0 /\
           forall j, 0 <= j < vlen p0 ->
             vget d p j = if j <? i then g j (vget d p0 j) else vget d p0 j)).
  - lia.
  - split; [reflexivity|]. intros j Hj.
    destruct (j <? 0) eqn:E; [lia|reflexivity].
  - intros i p Hi [Hl Hg]. split; [rewrite vlen_vset; assumption|].
    intros j Hj. rewrite vget_vset by lia.
    destruct (Z.eqb_spec i j) as [->|N].
    + rewrite Hg by lia.
      destruct (j <? j) eqn:E1; [lia|].
      destruct (j <? j + 1) eqn:E2; [reflexivity|lia].
    + rewrite Hg by lia.
      destruct (j <? i) eqn:E1; destruct (j <? i + 1) eqn:E2;
        try reflexivity; lia.
Qed.

(** ** The power traces *)

Section PowtraceFacts.
Context {K : Type} {OK : ScalarOps K} {SK : Scalar K}.

Add Ring C_ring : (@s_ring (cplx K) _ cplx_Scalar).

Lemma powtrace_loops_spec {A} (store : cplx K -> A) (a0 : A) vals n l :
  0 <= n -> 0 <= l ->
  vlen (powtrace_loops store a0 vals n l) = l /\
  forall k, 1 <= k <= l ->
    vget a0 (powtrace_loops store a0 vals n l) (k - 1)
    = store (power_sum vals n k).
Proof.
  intros Hn Hl. unfold powtrace_loops.
  destruct (for_range_pointwise c0 (fun j _ => vget c0 vals j) n (vmake n c0))
    as [Hpl Hpg]; [rewrite vlen_vmake; lia|].
  cbn beta in Hpl, Hpg. rewrite vlen_vmake in Hpl, Hpg by lia.
  set (pv0 := for_range 0 n (fun j pvals => vset pvals j (vget c0 vals j))
                (vmake n c0)) in *.
  pose (P := fun (i : Z) (st : list A * list (cplx K)) =>
    vlen (fst st) = l /\ vlen (snd st) = n /\
    (forall j, 0 <= j < n ->
       vget c0 (snd st) j = spow (vget c0 vals j) (Z.to_nat (i + 1))) /\
    (forall k, 1 <= k <= i ->
       vget a0 (fst st) (k - 1) = store (power_sum vals n k))).
  match goal with
  | |- context [for_range 0 l ?b ?s] =>
      assert (HP : P l (for_range 0 l b s))
  end.
  { apply for_range_inv.
    - lia.
    - unfold P. cbn [fst snd]. rewrite vlen_vmake by lia.
      repeat split; try lia.
      intros j Hj. rewrite Hpg by lia.
      destruct (j <? n) eqn:E; [|lia].
      change (Z.to_nat (0 + 1)) with 1%nat. cbn [spow]. ring.
    - intros i [tr pv] Hi (Htl & Hvl & Hpv & Htr). unfold P in *.
      cbn [fst snd] in *.
      destruct (for_range_pointwise c0
                  (fun j a => cmul a (vget c0 vals j)) n pv) as [Hql Hqg];
        [lia|]. cbn beta in Hql, Hqg.
      rewrite vlen_vset. repeat split; try lia.
      + intros j Hj. rewrite Hqg by lia.
        destruct (j <? n) eqn:E; [|lia].
        rewrite Hpv by lia.
        replace (Z.to_nat (i + 1 + 1)) with (S (Z.to_nat (i + 1))) by lia.
        rewrite spow_succ_r. reflexivity.
      + intros k Hk. rewrite vget_vset by lia.
        destruct (Z.eqb_spec i (k - 1)) as [E|N].
        * f_equal.
          change (for_range 0 n (fun j sum => cadd sum (vget c0 pv j)) c0)
            with (for_range 0 n (fun j sum => sadd sum (vget c0 pv j)) s0).
          rewrite for_range_sum0. unfold power_sum.
          apply sum_range_ext. intros j Hj. rewrite Hpv by lia.
          do 2 f_equal. lia.
        * apply Htr. lia. }
  destruct HP as (Htl & _ & _ & Htr). split; assumption.
Qed.
End PowtraceFacts.

(** C4 (amended).  In exact arithmetic (the scalars satisfy the laws of
    [Scalar]), for [n >= 0], [l >= 0] and a solver that returns [n]
    eigenvalues, both overloads of [powtrace] return a vector of length [l]
    whose entry [k-1] is the power sum [sum_j lambda_j^k] (the real part of
    it for the real-matrix overload), for [k = 1..l]; for [n = 0] the
    result is all zeros whatever the solver is, since it is not called. *)
Theorem powtrace_power_sums {K : Type} {OK : ScalarOps K} {SK : Scalar K}
    (eig_c : list (cplx K) -> Z -> list (cplx K))
    (eig_r : list K -> Z -> list (cplx K))
    (zc : list (cplx K)) (zr : list K) (n l : Z) :
  0 <= n -> 0 <= l ->
  vlen (eig_c zc n) = n -> vlen (eig_r zr n) = n ->
  (vlen (powtrace_complex eig_c zc n l) = l /\
   forall k, 1 <= k <= l ->
     vget c0 (powtrace_complex eig_c zc n l) (k - 1)
     = power_sum (eig_c zc n) n k) /\
  (vlen (powtrace_double eig_r zr n l) = l /\
   forall k, 1 <= k <= l ->
     vget s0 (powtrace_double eig_r zr n l) (k - 1)
     = re (power_sum (eig_r zr n) n k)) /\
  (forall eig_c' eig_r',
     powtrace_complex eig_c' zc 0 l = vmake l c0 /\
     powtrace_double eig_r' zr 0 l = vmake l s0).
Proof.
  intros Hn Hl Hc Hr.
  assert (Hvals : forall (vals : list (cplx K)) k,
            power_sum (if negb (n =? 0) then vals else vmake n c0) n k
            = power_sum vals n k).
  { intros vals k. destruct (Z.eqb_spec n 0) as [->|N]; [|reflexivity].
    unfold power_sum. rewrite !sum_range_nil by lia. reflexivity. }
  split; [|split].
  - unfold powtrace_complex. cbn zeta.
    destruct (powtrace_loops_spec (fun s => s) c0
                (if negb (n =? 0) then eig_c zc n else vmake n c0) n l Hn Hl)
      as [H1 H2].
    split; [assumption|]. intros k Hk. rewrite H2 by assumption.
    apply Hvals.
  - unfold powtrace_double. cbn zeta.
    destruct (powtrace_loops_spec (fun s => re s) s0
                (if negb (n =? 0) then eig_r zr n else vmake n c0) n l Hn Hl)
      as [H1 H2].
    split; [assumption|]. intros k Hk. rewrite H2 by assumption.
    f_equal. apply Hvals.
  - intros eig_c' eig_r'. unfold powtrace_complex, powtrace_double.
    cbn zeta. change (negb (0 =? 0)) with false. cbn iota.
    split.
    + destruct (powtrace_loops_spec (fun s : cplx K => s) c0
                  (vmake 0 c0) 0 l (Z.le_refl 0) Hl) as [H1 H2].
      apply vec_ext with (d := c0).
      * rewrite vlen_vmake by assumption. assumption.
      * intros i Hi. rewrite H1 in Hi.
        replace i with (i + 1 - 1) by lia. rewrite H2 by lia.
        rewrite vget_vmake by lia. unfold power_sum.
        exact (sum_range_nil (T := cplx K) 0 0 _ (Z.le_refl 0)).
    + destruct (powtrace_loops_spec (fun s : cplx K => re s) s0
                  (vmake 0 c0) 0 l (Z.le_refl 0) Hl) as [H1 H2].
      apply vec_ext with (d := s0).
      * rewrite vlen_vmake by assumption. assumption.
      * intros i Hi. rewrite H1 in Hi.
        replace i with (i + 1 - 1) by lia. rewrite H2 by lia.
        rewrite vget_vmake by lia. unfold power_sum.
        rewrite (sum_range_nil (T := cplx K) 0 0 _ (Z.le_refl 0)).
        reflexivity.
Qed.

(** *** Worked example on rational data *)

(** C4 on these two matrices, with [l = 3] power traces. *)
Lemma powtrace_power_sums_witness :
  (vlen (powtrace_complex diag_eig_complex example_zc 2 3) = 3 /\
   forall k, 1 <= k <= 3 ->
     vget c0 (powtrace_complex diag_eig_complex example_zc 2 3) (k - 1)
     = power_sum (diag_eig_complex example_zc 2) 2 k) /\
  (vlen (powtrace_double diag_eig_double example_zr 2 3) = 3 /\
   forall k, 1 <= k <= 3 ->
     vget s0 (powtrace_double diag_eig_double example_zr 2 3) (k - 1)
     = re (power_sum (diag_eig_double example_zr 2) 2 k)) /\
  (forall eig_c' eig_r',
     powtrace_complex eig_c' example_zc 0 3 = vmake 3 c0 /\
     powtrace_double eig_r' example_zr 0 3 = vmake 3 s0).
Proof.
  apply (powtrace_power_sums diag_eig_complex diag_eig_double
           example_zc example_zr 2 3); [lia | lia | reflexivity | reflexivity].
Defined.

(** *** The same routine in binary64 *)

(** C4 as stated fails in binary64.  The eigenvalues of the diagonal
    matrix with the entries [1], [10^16] and [-10^16] are its entries.
    The loop of [powtrace] adds them from left to right,
    [((0 + 1) + 10^16) - 10^16], and [1 + 10^16] rounds to [10^16]: the
    first trace is [0].  The sum of the eigenvalues is [1]: over the
    rationals, and also in binary64 when the terms are added in the order
    of [power_sum]. *)
Lemma powtrace_rounding_counterexample :
  let z : list PrimFloat.float := example_diag3 in
  let vals := diag_eig_double z 3 in
  vals = [mkC (sofZ 1) s0; mkC (sofZ (10 ^ 16)) s0;
          mkC (sofZ (- 10 ^ 16)) s0] /\
  vget s0 (powtrace_double diag_eig_double z 3 1) 0 = sofZ 0 /\
  re (power_sum vals 3 1) = sofZ 1 /\
  re (power_sum (diag_eig_double (example_diag3 : list Qc) 3) 3 1) = q 1 /\
  vget s0 (powtrace_double diag_eig_double z 3 1) 0
  <> re (power_sum vals 3 1).
Proof.
  cbn zeta. split; [vm_compute; reflexivity|].
  split; [vm_compute; reflexivity|].
  split; [vm_compute; reflexivity|].
  split; [apply Qc_is_canon; vm_compute; reflexivity|].
  intros H.
  apply (f_equal (fun x => PrimFloat.eqb x (sofZ 1))) in H.
  vm_compute in H. discriminate H.
Qed.

(** ** The chunk workers: the range of the loop over [x] *)

Section ChunkFacts.
Context {T : Type} {OT : ScalarOps T} {ST : Scalar T}.
Variable powtrace : list T -> Z -> Z -> list T.

(** [do_chunk] adds the summands of [X, X+1, ..., X+chunksize-1]. *)
Lemma do_chunk_sum mat n X chunksize :
  0 <= X -> 0 <= chunksize -> X + chunksize < 2 ^ 64 ->
  do_chunk powtrace mat n X chunksize
  = sum_range X (X + chunksize) (summand powtrace mat n).
Proof.
  intros HX HC Hb. unfold do_chunk, to_ull.
  rewrite Z.mod_small by lia. apply for_range_sum0.
Qed.

(** [do_chunk_loops] adds the summands of the chunk number [X]:
    [X*chunksize, ..., (X+1)*chunksize - 1]. *)
Lemma do_chunk_loops_sum mat C D n X chunksize :
  0 <= X -> 0 <= chunksize -> (X + 1) * chunksize < 2 ^ 64 ->
  do_chunk_loops powtrace mat C D n X chunksize
  = sum_range (X * chunksize) ((X + 1) * chunksize)
      (summand_loops powtrace mat C D n).
Proof.
  intros HX HC Hb. unfold do_chunk_loops, to_ull.
  rewrite !Z.mod_small by nia. apply for_range_sum0.
Qed.

(** The two workers agree on the range when [X = 0]. *)
Lemma do_chunk_loops_sum_0 mat C D n chunksize :
  0 <= chunksize < 2 ^ 64 ->
  do_chunk_loops powtrace mat C D n 0 chunksize
  = sum_range 0 (0 + chunksize) (summand_loops powtrace mat C D n).
Proof.
  intros HC. rewrite do_chunk_loops_sum by lia.
  f_equal; lia.
Qed.
End ChunkFacts.

(** Equality of two rationals by evaluation. *)
Ltac qc_eval := apply Qc_is_canon; vm_compute; reflexivity.

(** *** The loop-mode worker on a chunk that does not start at 0 *)

(** C1 at the failing input [n = 4], [X = 1], [chunksize = 2]
    ([X + chunksize <= 2^2]): the summands of [x = 1, 2, 3] are [0],
    [-1/2], [1/2]; the sum over [X .. X+chunksize-1 = 1 .. 2] is [-1/2],
    but [do_chunk_loops] runs over [x = 2 .. 3] and returns [0].  The plain
    worker [do_chunk] does run over [1 .. 2]. *)
Theorem do_chunk_loops_range_mismatch :
  let pt := powtrace_double diag_eig_double in
  1 + 2 <= 2 ^ (4 / 2) /\
  map (summand_loops pt example_zero4 example_CD example_CD 4) [1; 2; 3]
  = [q 0; sopp (sdivZ (q 1) 2); sdivZ (q 1) 2] /\
  sum_range 1 (1 + 2) (summand_loops pt example_zero4 example_CD example_CD 4)
  = sopp (sdivZ (q 1) 2) /\
  do_chunk_loops pt example_zero4 example_CD example_CD 4 1 2 = q 0 /\
  do_chunk_loops pt example_zero4 example_CD example_CD 4 1 2
  <> sum_range 1 (1 + 2)
       (summand_loops pt example_zero4 example_CD example_CD 4) /\
  do_chunk pt example_zero4 4 1 2
  = sum_range 1 (1 + 2) (summand pt example_zero4 4).
Proof.
  cbn zeta. split; [vm_compute; discriminate|].
  split; [repeat (f_equal; [qc_eval|])|]; [reflexivity|].
  assert (E1 : sum_range 1 (1 + 2)
                 (summand_loops (powtrace_double diag_eig_double)
                    example_zero4 example_CD example_CD 4)
               = sopp (sdivZ (q 1) 2)) by qc_eval.
  assert (E2 : do_chunk_loops (powtrace_double diag_eig_double)
                 example_zero4 example_CD example_CD 4 1 2 = q 0) by qc_eval.
  split; [exact E1|]. split; [exact E2|]. split.
  - rewrite E1, E2. intros H. apply (f_equal this) in H.
    vm_compute in H. discriminate.
  - apply do_chunk_sum; [lia | lia | vm_compute; reflexivity].
Qed.

(** ** The sign of a summand *)

Section SignFacts.
Context {T : Type} {OT : ScalarOps T} {ST : Scalar T}.
Variable powtrace : list T -> Z -> Z -> list T.

Lemma signed_coeff_parity m p st :
  0 <= m -> 0 <= p ->
  signed_coeff (2 * m) (2 * p) st
  = with_parity_sign p m (extracted (2 * m) st).
Proof.
  intros Hm Hp. unfold signed_coeff, with_parity_sign, extracted, cdiv, cmod.
  rewrite !Z.quot_div_nonneg by lia.
  rewrite !(Z.mul_comm 2), !Z.div_mul by lia.
  rewrite !Z.rem_mod_nonneg by lia. reflexivity.
Qed.

Lemma popcount_nonneg m x : 0 <= popcount m x.
Proof. apply vlen_nonneg. Qed.

Lemma decode_eta n x : decode n x = (fst (decode n x), snd (decode n x)).
Proof. destruct (decode n x); reflexivity. Qed.

(** C3 (amended).  For a matrix of order [2m] ([m <= 64]) and a subset
    index [x], the summand of either worker is the extracted coefficient
    [comb[1 - cntindex][m]] with sign [+] exactly when [|S(x)|], the number
    of bits set in [x], has the parity of [m], and with sign [-]
    otherwise. *)
Theorem summand_sign mat C D m x :
  0 <= m <= 64 -> 0 <= x < 2 ^ m ->
  summand powtrace mat (2 * m) x
  = with_parity_sign (popcount m x) m
      (extracted (2 * m) (fold_upto powtrace mat (2 * m) x (cdiv (2 * m) 2)))
  /\
  summand_loops powtrace mat C D (2 * m) x
  = with_parity_sign (popcount m x) m
      (extracted (2 * m) (loops_final powtrace mat C D (2 * m) x)).
Proof.
  intros Hm Hx. pose proof (decode_sum m x Hm) as Hs.
  pose proof (popcount_nonneg m x) as Hp.
  unfold summand, summand_loops. rewrite (decode_eta (2 * m) x), Hs.
  split; apply signed_coeff_parity; lia.
Qed.
End SignFacts.

(** C3 (amended) on the 2 by 2 matrix [[0, 1], [1, 0]] and [x = 1]. *)
Lemma summand_sign_witness :
  let pt := powtrace_double diag_eig_double in
  summand pt example_swap2 (2 * 1) 1
  = with_parity_sign (popcount 1 1) 1
      (extracted (2 * 1) (fold_upto pt example_swap2 (2 * 1) 1 (cdiv (2 * 1) 2)))
  /\
  summand_loops pt example_swap2 example_CD example_CD (2 * 1) 1
  = with_parity_sign (popcount 1 1) 1
      (extracted (2 * 1)
         (loops_final pt example_swap2 example_CD example_CD (2 * 1) 1)).
Proof.
  apply (summand_sign (powtrace_double diag_eig_double)
           example_swap2 example_CD example_CD 1 1);
    [lia | split; [lia | reflexivity]].
Defined.

(** C3 as stated fails.  For the matrix [[0, 1], [1, 0]] ([m = 1]) and
    [x = 1], one bit is set, the reduced matrix is the identity, the
    extracted coefficient is [1] and the summand is [+1]; the parity of
    [|S(x)| / 2 = 0] differs from the parity of [m = 1], so the stated rule
    gives [-1]. *)
Lemma summand_sign_counterexample :
  let pt := powtrace_double diag_eig_double in
  let coeff := extracted 2 (fold_upto pt example_swap2 2 1 1) in
  popcount 1 1 = 1 /\
  coeff = q 1 /\
  summand pt example_swap2 2 1 = q 1 /\
  summand pt example_swap2 2 1
  <> with_parity_sign (popcount 1 1 / 2) 1 coeff.
Proof.
  cbn zeta.
  assert (E1 : extracted 2 (fold_upto (powtrace_double diag_eig_double)
                              example_swap2 2 1 1) = q 1) by qc_eval.
  assert (E2 : summand (powtrace_double diag_eig_double) example_swap2 2 1
               = q 1) by qc_eval.
  split; [reflexivity|]. split; [exact E1|]. split; [exact E2|].
  rewrite E1, E2. intros H. apply (f_equal this) in H.
  vm_compute in H. discriminate.
Qed.

(** ** The precondition of the drivers *)

(** The number of subsets fits an [unsigned long long] up to [m = 63]. *)
Lemma pow2_small m : 0 <= m < 64 -> pow2 m = ok (2 ^ m).
Proof.
  intros Hm. unfold pow2. destruct (Z.ltb_spec m 64); [|lia].
  unfold to_ull. rewrite Z.mod_small; [reflexivity|].
  split; [lia|]. apply Z.pow_lt_mono_r; lia.
Qed.

Section DriverFacts.
Context {T : Type} {OT : ScalarOps T} {ST : Scalar T}.
Variable powtrace : list T -> Z -> Z -> list T.

(** C5 (amended).  [hafnian] and [loop_hafnian] reject, before any
    computation, every input whose order [n], the integer part of the
    square root of the element count, is odd. *)
Theorem odd_order_rejected (mat : list T) :
  Z.odd (order_of mat) = true ->
  hafnian powtrace mat = fail EvenDimensionRequired /\
  loop_hafnian powtrace mat = fail EvenDimensionRequired.
Proof.
  intros Hodd. unfold hafnian, loop_hafnian.
  assert (E : (cmod (order_of mat) 2 =? 0) = false).
  { apply Z.eqb_neq. unfold cmod. intros H.
    apply Z.rem_divide in H; [|lia].
    destruct H as [k Hk]. rewrite Hk, Z.mul_comm, Z.odd_mul in Hodd.
    discriminate. }
  cbn zeta. rewrite E. split; reflexivity.
Qed.

(** An input of even order is not rejected. *)
Lemma even_order_accepted (mat : list T) :
  Z.even (order_of mat) = true ->
  to_Byte (cdiv (order_of mat) 2) < 64 ->
  hafnian powtrace mat
  = ok (do_chunk powtrace mat (order_of mat) 0
          (2 ^ to_Byte (cdiv (order_of mat) 2))).
Proof.
  intros Hev Hm. unfold hafnian.
  assert (E : (cmod (order_of mat) 2 =? 0) = true).
  { apply Z.eqb_eq. unfold cmod. apply Z.rem_divide; [lia|].
    apply Z.even_spec in Hev. destruct Hev as [k Hk].
    exists k. lia. }
  cbn zeta. rewrite E. rewrite pow2_small; [reflexivity|].
  unfold to_Byte in *. lia.
Qed.
End DriverFacts.

(** A matrix of order 3. *)
Lemma odd_order_rejected_witness :
  hafnian (powtrace_double diag_eig_double) (vmake 9 (q 1))
  = fail EvenDimensionRequired /\
  loop_hafnian (powtrace_double diag_eig_double) (vmake 9 (q 1))
  = fail EvenDimensionRequired.
Proof.
  apply (odd_order_rejected (powtrace_double diag_eig_double)
           (vmake 9 (q 1))).
  reflexivity.
Defined.

(** C5 as stated fails.  Five elements are not a perfect square, and
    [hafnian] does not reject them: the order is taken to be [2].  A matrix
    of order 1 is not rejected by [hafnian_int], which has no check. *)
Lemma precondition_counterexample :
  Z.sqrt 5 * Z.sqrt 5 <> 5 /\
  (exists v, hafnian (powtrace_double diag_eig_double) (vmake 5 (q 0)) = ok v)
  /\ hafnian_int [7] = ok 1.
Proof.
  split; [vm_compute; discriminate|]. split; [|reflexivity].
  eexists. apply even_order_accepted; reflexivity.
Qed.

(** ** The loop hafnian of a matrix with zero diagonal *)

Lemma vget_vmake_default {A} (d : A) k i : vget d (vmake k d) i = d.
Proof.
  unfold vget, vmake. destruct (0 <=? i); [|reflexivity].
  destruct (Nat.lt_ge_cases (Z.to_nat i) (length (repeat d (Z.to_nat k))))
    as [H|H].
  - rewrite repeat_length in H. apply nth_repeat_lt. assumption.
  - apply nth_overflow. assumption.
Qed.



Lemma decode_sum_nonneg n x : 0 <= snd (decode n x).
Proof.
  unfold decode, find2.
  destruct (for_range 0 _ _ _) as [p j]. cbn [snd].
  unfold to_Byte. apply Z.mod_pos_bound. lia.
Qed.

Section ZeroDiagonal.
Context {T : Type} {OT : ScalarOps T} {ST : Scalar T}.
Variable powtrace : list T -> Z -> Z -> list T.

Add Ring T_ring' : (@s_ring T _ ST).




End ZeroDiagonal.


(** ** The generating-function fold *)

Section Series.
Context {T : Type} {OT : ScalarOps T} {ST : Scalar T}.

Add Ring T_ring'' : (@s_ring T _ ST).

Lemma sofZ_cancel z (u v : T) :
  z <> 0 -> smul (sofZ z) u = smul (sofZ z) v -> u = v.
Proof.
  intros Hz E. pose proof (sdivZ_spec s1 z Hz) as W.
  transitivity (smul (smul (sofZ z) (sdivZ s1 z)) u); [rewrite W; ring|].
  transitivity (smul (sdivZ s1 z) (smul (sofZ z) u)); [ring|].
  rewrite E.
  transitivity (smul (smul (sofZ z) (sdivZ s1 z)) v); [ring|].
  rewrite W. ring.
Qed.

Lemma sdivZ_1 (x : T) : sdivZ x 1 = x.
Proof.
  pose proof (sdivZ_spec x 1 ltac:(lia)) as H. rewrite sofZ_1 in H.
  rewrite <- H at 2. ring.
Qed.

Lemma exp_coeff_0 a : exp_coeff a 0 = s1.
Proof. unfold exp_coeff. simpl. apply sdivZ_1. Qed.

Lemma fact_nonzero k : Z.of_nat (fact k) <> 0.
Proof. pose proof (lt_O_fact k). lia. Qed.

(** The recurrence that the worker uses for [powfactor]. *)
Lemma exp_coeff_step a j :
  1 <= j -> sdivZ (smul (exp_coeff a (j - 1)) a) j = exp_coeff a j.
Proof.
  intros Hj. apply (sofZ_cancel (Z.of_nat (fact (Z.to_nat j))));
    [apply fact_nonzero|].
  unfold exp_coeff at 2. rewrite sdivZ_spec by apply fact_nonzero.
  replace (Z.to_nat j) with (S (Z.to_nat (j - 1))) by lia.
  replace (Z.of_nat (fact (S (Z.to_nat (j - 1)))))
    with (j * Z.of_nat (fact (Z.to_nat (j - 1)))).
  2:{ change (fact (S (Z.to_nat (j - 1))))
        with (S (Z.to_nat (j - 1)) * fact (Z.to_nat (j - 1)))%nat.
      rewrite Nat2Z.inj_mul. f_equal. lia. }
  rewrite sofZ_mul.
  transitivity
    (smul (sofZ (Z.of_nat (fact (Z.to_nat (j - 1)))))
       (smul (sofZ j) (sdivZ (smul (exp_coeff a (j - 1)) a) j))); [ring|].
  rewrite sdivZ_spec by lia.
  transitivity
    (smul (smul (sofZ (Z.of_nat (fact (Z.to_nat (j - 1)))))
             (exp_coeff a (j - 1))) a); [ring|].
  unfold exp_coeff. rewrite sdivZ_spec by apply fact_nonzero.
  cbn [spow]. ring.
Qed.

(** A sum over [0 .. d] whose terms vanish off the multiples of [i] is a
    sum over the multiples. *)
Lemma sum_over_multiples (h : Z -> T) i d :
  1 <= i -> 0 <= d ->
  sum_range 0 (d + 1) (fun t => if t mod i =? 0 then h (t / i) else s0)
  = sum_range 0 (d / i + 1) h.
Proof.
  intros Hi Hd. rewrite <- (Z2Nat.id d Hd).
  generalize (Z.to_nat d) as k. clear d Hd. induction k as [|k IH].
  - change (Z.of_nat 0) with 0. rewrite Z.div_0_l by lia.
    rewrite !(sum_range_last 0 (0 + 1)) by lia.
    rewrite !sum_range_nil by lia.
    change (0 + 1 - 1) with 0. rewrite Z.mod_0_l by lia.
    change (0 =? 0) with true. cbn iota. rewrite Z.div_0_l by lia.
    reflexivity.
  - replace (Z.of_nat (S k)) with (Z.of_nat k + 1) by lia.
    rewrite (sum_range_last 0 (Z.of_nat k + 1 + 1)) by lia.
    replace (Z.of_nat k + 1 + 1 - 1) with (Z.of_nat k + 1) by lia.
    rewrite IH.
    destruct (Z.eqb_spec ((Z.of_nat k + 1) mod i) 0) as [E|N].
    + assert (Hq : (Z.of_nat k + 1) / i = Z.of_nat k / i + 1) by nia.
      rewrite Hq.
      rewrite (sum_range_last 0 (Z.of_nat k / i + 1 + 1))
        by (pose proof (Z.div_pos (Z.of_nat k) i); lia).
      replace (Z.of_nat k / i + 1 + 1 - 1) with (Z.of_nat k / i + 1) by lia.
      reflexivity.
    + assert (Hq : (Z.of_nat k + 1) / i = Z.of_nat k / i) by nia.
      rewrite Hq. ring.
Qed.
End Series.

(** The invariant rule with a consequence step. *)
Lemma for_range_post {S} (P : Z -> S -> Prop) (Q : S -> Prop) lo hi
    (body : Z -> S -> S) (s : S) :
  lo <= hi ->
  P lo s ->
  (forall i t, lo <= i < hi -> P i t -> P (i + 1) (body i t)) ->
  (forall t, P hi t -> Q t) ->
  Q (for_range lo hi body s).
Proof.
  intros Hle H0 Hstep Hpost. apply Hpost.
  apply for_range_inv; assumption.
Qed.

Section FoldFacts.
Context {T : Type} {OT : ScalarOps T} {ST : Scalar T}.

Add Ring T_ring3 : (@s_ring T _ ST).

Lemma wf_comb_row m (c : list (list T)) r :
  wf_comb m c -> r = 0 \/ r = 1 -> vlen (vget [] c r) = m + 1.
Proof. intros (_ & H0 & H1) [-> | ->]; assumption. Qed.

Lemma wf_set2 m (c : list (list T)) r j x :
  wf_comb m c -> r = 0 \/ r = 1 -> wf_comb m (set2 c r j x).
Proof.
  intros Hwf Hr. pose proof (wf_comb_row m c r Hwf Hr) as Hrow.
  destruct Hwf as (Hl & H0 & H1). unfold wf_comb, set2.
  rewrite vlen_vset. split; [assumption|].
  rewrite !vget_vset by lia.
  destruct Hr as [-> | ->]; cbn [Z.eqb Pos.eqb]; rewrite ?vlen_vset; auto.
Qed.

Lemma get2_set2 m (c : list (list T)) r j x r' j' :
  wf_comb m c -> r = 0 \/ r = 1 -> 0 <= j <= m ->
  get2 s0 (set2 c r j x) r' j'
  = if (r =? r') && (j =? j') then x else get2 s0 c r' j'.
Proof.
  intros Hwf Hr Hj. pose proof (wf_comb_row m c r Hwf Hr) as Hrow.
  destruct Hwf as (Hl & H0 & H1). unfold get2, set2.
  rewrite vget_vset by lia.
  destruct (Z.eqb_spec r r') as [<-|N]; cbn [andb]; [|reflexivity].
  rewrite vget_vset by lia. reflexivity.
Qed.

Lemma sum_range_split lo mid hi (f : Z -> T) :
  lo <= mid <= hi ->
  sum_range lo hi f = sadd (sum_range lo mid f) (sum_range mid hi f).
Proof.
  intros H.
  assert (G : forall c, sum_range lo (mid + Z.of_nat c) f
              = sadd (sum_range lo mid f)
                     (sum_range mid (mid + Z.of_nat c) f)).
  { induction c as [|c IH].
    - rewrite Z.add_0_r, (sum_range_nil mid mid) by lia. ring.
    - replace (mid + Z.of_nat (S c)) with (mid + Z.of_nat c + 1) by lia.
      rewrite (sum_range_last lo) by lia.
      rewrite (sum_range_last mid) by lia.
      replace (mid + Z.of_nat c + 1 - 1) with (mid + Z.of_nat c) by lia.
      rewrite IH. ring. }
  specialize (G (Z.to_nat (hi - mid))).
  replace (mid + Z.of_nat (Z.to_nat (hi - mid))) with hi in G by lia.
  exact G.
Qed.

Lemma cdiv_double m : cdiv (2 * m) 2 = m.
Proof. unfold cdiv. rewrite Z.mul_comm. apply Z.quot_mul. lia. Qed.

(** The loop over [k]: row [1-o] receives [pf] times row [o] shifted by
    [i j]. *)
Lemma add_shifted_spec m (c : list (list T)) o i j pf :
  wf_comb m c -> o = 0 \/ o = 1 -> 0 <= i * j -> 0 <= m ->
  let c' := add_shifted (2 * m) i j o pf c in
  wf_comb m c' /\
  (forall d, get2 s0 c' o d = get2 s0 c o d) /\
  (forall d, 0 <= d <= m ->
     get2 s0 c' (1 - o) d
     = if i * j <=? d
       then sadd (get2 s0 c (1 - o) d) (smul (get2 s0 c o (d - i * j)) pf)
       else get2 s0 c (1 - o) d).
Proof.
  intros Hwf Ho Hshift Hm. cbn zeta. unfold add_shifted.
  rewrite cdiv_double. set (shift := i * j) in *.
  assert (Ho' : 1 - o = 0 \/ 1 - o = 1) by lia.
  destruct (Z.le_gt_cases (m + 1 + 1) (shift + 1)) as [Hnil|Hrun].
  { rewrite for_range_nil by lia. split; [assumption|].
    split; [reflexivity|]. intros d Hd.
    destruct (shift <=? d) eqn:E; [lia|reflexivity]. }
  apply (for_range_post (fun k ck =>
    wf_comb m ck /\
    (forall d, get2 s0 ck o d = get2 s0 c o d) /\
    (forall d, 0 <= d <= m ->
       get2 s0 ck (1 - o) d
       = if (shift <=? d) && (d <? k - 1)
         then sadd (get2 s0 c (1 - o) d) (smul (get2 s0 c o (d - shift)) pf)
         else get2 s0 c (1 - o) d))).
  - lia.
  - split; [assumption|]. split; [reflexivity|]. intros d Hd.
    destruct (shift <=? d) eqn:E1; destruct (d <? shift + 1 - 1) eqn:E2;
      cbn [andb]; try reflexivity; lia.
  - intros k ck Hk (Hwfk & Hold & Hnew).
    split; [apply wf_set2; assumption|]. split.
    + intros d. rewrite (get2_set2 m) by (assumption || lia).
      destruct (Z.eqb_spec (1 - o) o) as [E|_]; [lia|]. cbn [andb].
      apply Hold.
    + intros d Hd. rewrite (get2_set2 m) by (assumption || lia).
      rewrite Z.eqb_refl. cbn [andb].
      destruct (Z.eqb_spec (k - 1) d) as [E|N].
      * subst d. rewrite Hnew by lia. rewrite Hold.
        destruct (shift <=? k - 1) eqn:E1; [|lia].
        destruct (k - 1 <? k - 1) eqn:E2; [lia|].
        destruct (k - 1 <? k + 1 - 1) eqn:E3; [|lia]. cbn [andb].
        replace (k - shift - 1) with (k - 1 - shift) by lia. reflexivity.
      * rewrite Hnew by lia.
        destruct (shift <=? d) eqn:E1; cbn [andb]; [|reflexivity].
        destruct (d <? k - 1) eqn:E2; destruct (d <? k + 1 - 1) eqn:E3;
          try reflexivity; lia.
  - intros t (Hwft & Hold & Hnew). split; [assumption|].
    split; [assumption|]. intros d Hd. rewrite Hnew by lia.
    destruct (shift <=? d) eqn:E1; cbn [andb]; [|reflexivity].
    destruct (d <? m + 1 + 1 - 1) eqn:E2; [reflexivity|lia].
Qed.

(** The copy loop makes row [1-o] equal to row [o]. *)
Lemma copy_row_spec m (c : list (list T)) o :
  wf_comb m c -> o = 0 \/ o = 1 -> 0 <= m ->
  let c' := copy_row (2 * m) o c in
  wf_comb m c' /\
  (forall d, get2 s0 c' o d = get2 s0 c o d) /\
  (forall d, 0 <= d <= m -> get2 s0 c' (1 - o) d = get2 s0 c o d).
Proof.
  intros Hwf Ho Hm. cbn zeta. unfold copy_row. rewrite cdiv_double.
  assert (Ho' : 1 - o = 0 \/ 1 - o = 1) by lia.
  apply (for_range_post (fun k ck =>
    wf_comb m ck /\
    (forall d, get2 s0 ck o d = get2 s0 c o d) /\
    (forall d, 0 <= d < k -> get2 s0 ck (1 - o) d = get2 s0 c o d))).
  - lia.
  - split; [assumption|]. split; [reflexivity|]. intros d Hd. lia.
  - intros k ck Hk (Hwfk & Hold & Hnew).
    split; [apply wf_set2; assumption|]. split.
    + intros d. rewrite (get2_set2 m) by (assumption || lia).
      destruct (Z.eqb_spec (1 - o) o) as [E|_]; [lia|]. cbn [andb].
      apply Hold.
    + intros d Hd. rewrite (get2_set2 m) by (assumption || lia).
      rewrite Z.eqb_refl. cbn [andb].
      destruct (Z.eqb_spec k d) as [E|N].
      * subst d. apply Hold.
      * apply Hnew. lia.
  - intros t (Hwft & Hold & Hnew). split; [assumption|].
    split; [assumption|]. intros d Hd. apply Hnew. lia.
Qed.

(** The loop over [j]: row [1-o] receives the terms [a^j / j!] times row
    [o] shifted by [i j], for [j = 1 .. m / i]. *)
Lemma add_powers_spec m (c : list (list T)) o i a :
  wf_comb m c -> o = 0 \/ o = 1 -> 1 <= i -> 0 <= m ->
  let c' := add_powers (2 * m) i o a c in
  wf_comb m c' /\
  (forall d, get2 s0 c' o d = get2 s0 c o d) /\
  (forall d, 0 <= d <= m ->
     get2 s0 c' (1 - o) d
     = sadd (get2 s0 c (1 - o) d)
         (sum_range 1 (m / i + 1) (fun j =>
            if i * j <=? d
            then smul (get2 s0 c o (d - i * j)) (exp_coeff a j)
            else s0))).
Proof.
  intros Hwf Ho Hi Hm. cbn zeta. unfold add_powers.
  assert (EJ : cdiv (2 * m) (2 * i) = m / i).
  { unfold cdiv. rewrite Z.quot_div_nonneg by lia.
    rewrite Z.div_mul_cancel_l by lia. reflexivity. }
  rewrite EJ.
  pose proof (Z.div_pos m i ltac:(lia) ltac:(lia)) as HJ.
  apply (for_range_post (fun j (st : list (list T) * T) =>
    wf_comb m (fst st) /\
    snd st = exp_coeff a (j - 1) /\
    (forall d, get2 s0 (fst st) o d = get2 s0 c o d) /\
    (forall d, 0 <= d <= m ->
       get2 s0 (fst st) (1 - o) d
       = sadd (get2 s0 c (1 - o) d)
           (sum_range 1 j (fun j' =>
              if i * j' <=? d
              then smul (get2 s0 c o (d - i * j')) (exp_coeff a j')
              else s0))))).
  - lia.
  - cbn [fst snd]. split; [assumption|].
    split; [symmetry; apply exp_coeff_0|]. split; [reflexivity|].
    intros d Hd. rewrite sum_range_nil by lia. ring.
  - intros j [cj pfj] Hj (Hwfj & Hpf & Hold & Hnew). cbn [fst snd] in *.
    subst pfj. rewrite exp_coeff_step by lia.
    destruct (add_shifted_spec m cj o i j (exp_coeff a j))
      as (Hw' & Hold' & Hnew'); [assumption | assumption | nia | lia |].
    split; [assumption|].
    split; [f_equal; lia|]. split.
    + intros d. rewrite Hold'. apply Hold.
    + intros d Hd. rewrite Hnew' by assumption.
      rewrite (sum_range_last 1 (j + 1)) by lia.
      replace (j + 1 - 1) with j by lia.
      rewrite Hnew by assumption. rewrite Hold.
      destruct (i * j <=? d); ring.
  - intros [cj pfj] (Hwfj & _ & Hold & Hnew). cbn [fst snd] in *.
    split; [assumption|]. split; assumption.
Qed.
End FoldFacts.

Section FoldInvariant.
Context {T : Type} {OT : ScalarOps T} {ST : Scalar T}.

Add Ring T_ring4 : (@s_ring T _ ST).

(** The product of a series with [exp(a z^i)], as the worker computes
    it: the series itself plus its shifts by [i j] times [a^j / j!]. *)
Lemma ps_mul_exp_mono (G : series) a i m d :
  1 <= i -> 0 <= d <= m ->
  ps_mul G (ps_exp_mono a i) d
  = sadd (G d)
      (sum_range 1 (m / i + 1) (fun j =>
         if i * j <=? d then smul (G (d - i * j)) (exp_coeff a j) else s0)).
Proof.
  intros Hi Hd. unfold ps_mul, ps_exp_mono.
  rewrite (sum_range_ext 0 (d + 1) _
             (fun t => if t mod i =? 0
                       then smul (G (d - i * (t / i))) (exp_coeff a (t / i))
                       else s0)).
  2:{ intros t Ht.
      destruct (Z.eqb_spec (t mod i) 0) as [E|N]; [|ring].
      replace (i * (t / i)) with t by nia. reflexivity. }
  pose proof (sum_over_multiples
                (fun j => smul (G (d - i * j)) (exp_coeff a j)) i d
                Hi (proj1 Hd)) as Hsm.
  cbn beta in Hsm. rewrite Hsm. clear Hsm.
  pose proof (Z.div_pos d i ltac:(lia) ltac:(lia)) as Hq.
  assert (Hqm : d / i <= m / i) by (apply Z.div_le_mono; lia).
  rewrite sum_range_first by lia.
  rewrite Z.mul_0_r, Z.sub_0_r, exp_coeff_0.
  rewrite (sum_range_split 1 (d / i + 1) (m / i + 1)) by lia.
  rewrite (sum_range_zero (d / i + 1) (m / i + 1)).
  2:{ intros j Hj. destruct (Z.leb_spec (i * j) d) as [L|L]; [|reflexivity].
      exfalso. assert (j <= d / i) by (apply Z.div_le_lower_bound; lia).
      lia. }
  change (0 + 1) with 1.
  rewrite (sum_range_ext 1 (d / i + 1) _
             (fun j => if i * j <=? d
                       then smul (G (d - i * j)) (exp_coeff a j) else s0)).
  2:{ intros j Hj. destruct (Z.leb_spec (i * j) d) as [L|L]; [reflexivity|].
      exfalso. assert (i * j <= i * (d / i)) by nia.
      pose proof (Z.mul_div_le d i ltac:(lia)). lia. }
  ring.
Qed.

Lemma parity_cases k : 0 <= k ->
  (Z.even k = true /\ k mod 2 = 0 /\ Z.even (k + 1) = false
   /\ (k + 1) mod 2 = 1)
  \/ (Z.even k = false /\ k mod 2 = 1 /\ Z.even (k + 1) = true
      /\ (k + 1) mod 2 = 0).
Proof.
  intros Hk. rewrite Z.even_add. change (Z.even 1) with false.
  destruct (Z.even k) eqn:E.
  - left. apply Z.even_spec in E. destruct E as [h ->].
    repeat split; try reflexivity; lia.
  - right. rewrite <- Z.negb_odd in E. apply Bool.negb_false_iff in E.
    apply Z.odd_spec in E. destruct E as [h ->].
    repeat split; try reflexivity; lia.
Qed.

(** One iteration multiplies the current series by [exp(a z^(k+1))] and
    makes the other row current: the row [1 - cntindex]. *)
Lemma comb_update_spec m k G a st :
  0 <= m -> 0 <= k ->
  fold_inv m k G st ->
  let st' := comb_update (2 * m) (k + 1) a st in
  fold_inv m (k + 1) (ps_mul G (ps_exp_mono a (k + 1))) st' /\
  1 - cntindex st' = (k + 1) mod 2.
Proof.
  intros Hm Hk (Hcnt & Hwf & Hrow). cbn zeta. unfold comb_update.
  cbn zeta. rewrite Hcnt.
  set (o := to_Byte (cdiv (1 + to_char (- (if Z.even k then 1 else -1))) 2)).
  assert (Ho : o = k mod 2 /\ 1 - o = (k + 1) mod 2 /\
               to_char (- (if Z.even k then 1 else -1))
               = if Z.even (k + 1) then 1 else -1).
  { subst o.
    destruct (parity_cases k Hk) as [(E1 & E2 & E3 & E4)|(E1 & E2 & E3 & E4)];
      rewrite E1, E2, E3, E4; repeat split; reflexivity. }
  destruct Ho as (Ho1 & Ho2 & Hc').
  assert (Hor : o = 0 \/ o = 1) by lia.
  destruct (copy_row_spec m (comb st) o Hwf Hor Hm) as (Hw1 & Hold1 & Hnew1).
  destruct (add_powers_spec m (copy_row (2 * m) o (comb st)) o (k + 1) a
              Hw1 Hor ltac:(lia) Hm) as (Hw2 & Hold2 & Hnew2).
  unfold fold_inv. cbn [cnt comb cntindex].
  split; [|exact Ho2].
  split; [exact Hc'|]. split; [exact Hw2|].
  rewrite <- Ho1 in Hrow.
  intros d Hd. rewrite <- Ho2. rewrite Hnew2 by assumption.
  rewrite Hnew1 by assumption.
  rewrite (ps_mul_exp_mono G a (k + 1) m d) by lia.
  rewrite Hrow by assumption. f_equal.
  apply sum_range_ext. intros j Hj.
  destruct (Z.leb_spec ((k + 1) * j) d) as [L|L]; [|reflexivity].
  rewrite Hold1. rewrite Hrow by nia. reflexivity.
Qed.

Lemma fold_init_inv m : 0 <= m -> fold_inv m 0 ps_one (fold_init m).
Proof.
  intros Hm. unfold fold_inv, fold_init. cbn [cnt comb].
  assert (Hwf0 : wf_comb m (vmake 2 (vmake (m + 1) s0))).
  { unfold wf_comb. rewrite vlen_vmake by lia.
    rewrite !vget_vmake by lia. rewrite vlen_vmake by lia. auto. }
  split; [reflexivity|]. split; [apply wf_set2; [assumption|lia]|].
  intros d Hd. change (0 mod 2) with 0.
  rewrite (get2_set2 m) by (assumption || lia).
  unfold ps_one. rewrite Z.eqb_refl. cbn [andb].
  rewrite (Z.eqb_sym 0 d). destruct (d =? 0); [reflexivity|].
  unfold get2. rewrite !vget_vmake by lia. reflexivity.
Qed.

(** The fold after the iterations [1 .. i]. *)
Lemma fold_steps_spec m traces i :
  0 <= m -> 0 <= i ->
  let st := for_range 1 (i + 1) (fold_step (2 * m) traces) (fold_init m) in
  fold_inv m i (gf_product traces (Z.to_nat i)) st /\
  (1 <= i -> 1 - cntindex st = i mod 2).
Proof.
  intros Hm Hi. cbn zeta.
  apply (for_range_post (fun k st =>
    fold_inv m (k - 1) (gf_product traces (Z.to_nat (k - 1))) st /\
    (1 <= k - 1 -> 1 - cntindex st = (k - 1) mod 2))).
  - lia.
  - replace (1 - 1) with 0 by lia. split; [apply fold_init_inv; lia|]. lia.
  - intros k st Hk (Hinv & _). unfold fold_step.
    destruct (comb_update_spec m (k - 1) _
                (sdivZ (vget s0 traces (k - 1)) (2 * k)) st Hm ltac:(lia) Hinv)
      as (Hinv' & Hcur).
    replace (k - 1 + 1) with k in * by lia.
    replace (k + 1 - 1) with k by lia.
    split; [|intros _; exact Hcur].
    replace (Z.to_nat k) with (S (Z.to_nat (k - 1))) by lia.
    cbn [gf_product].
    replace (Z.of_nat (Z.to_nat (k - 1))) with (k - 1) by lia.
    replace (k - 1 + 1) with k by lia. exact Hinv'.
  - intros st H. replace (i + 1 - 1) with i in H by lia. exact H.
Qed.
End FoldInvariant.

Section FoldTheorem.
Context {T : Type} {OT : ScalarOps T} {ST : Scalar T}.
Variable powtrace : list T -> Z -> Z -> list T.

(** C2.  In exact arithmetic, for a matrix of order [2m], a subset index
    [x] and [1 <= i <= m], after the iteration [i] of the fold the current
    row [comb[1 - cntindex]] holds, for every degree [d <= m], the
    coefficient of [z^d] in the product over [i' <= i] of
    [exp(tau[i'-1] z^i' / (2 i'))], where [tau] is the vector of traces of
    the worker; so the coefficient extracted after the iteration [m] is
    the coefficient of [z^m] in the whole product. *)
Theorem fold_generating_function mat m x i d :
  0 <= m <= 64 -> 0 <= x < 2 ^ m -> 1 <= i <= m -> 0 <= d <= m ->
  let tau := traces_of powtrace mat (2 * m) x in
  let st := fold_upto powtrace mat (2 * m) x i in
  get2 s0 (comb st) (1 - cntindex st) d = gf_product tau (Z.to_nat i) d /\
  extracted (2 * m) (fold_upto powtrace mat (2 * m) x (cdiv (2 * m) 2))
  = gf_product tau (Z.to_nat m) m.
Proof.
  intros Hm Hx Hi Hd. cbn zeta.
  assert (Em : to_Byte (cdiv (2 * m) 2) = m).
  { rewrite cdiv_double. unfold to_Byte. apply Z.mod_small. lia. }
  assert (G : forall i' d', 1 <= i' <= m -> 0 <= d' <= m ->
            get2 s0 (comb (fold_upto powtrace mat (2 * m) x i'))
              (1 - cntindex (fold_upto powtrace mat (2 * m) x i')) d'
            = gf_product (traces_of powtrace mat (2 * m) x)
                (Z.to_nat i') d').
  { intros i' d' Hi' Hd'. unfold fold_upto. cbn zeta. rewrite Em.
    destruct (fold_steps_spec m (traces_of powtrace mat (2 * m) x) i'
                ltac:(lia) ltac:(lia)) as ((_ & _ & Hrow) & Hcur).
    rewrite Hcur by lia. apply Hrow. assumption. }
  split; [apply G; assumption|].
  unfold extracted. rewrite cdiv_double. apply G; lia.
Qed.
End FoldTheorem.

(** C2 over the real numbers, on the 2 by 2 matrix [[0, 1], [1, 0]] with
    [x = 1] and [i = d = 1]. *)
Lemma fold_generating_function_witness :
  let pt := powtrace_double (K := R) diag_eig_double in
  let mat := [0%R; 1%R; 1%R; 0%R] in
  let tau := traces_of pt mat (2 * 1) 1 in
  let st := fold_upto pt mat (2 * 1) 1 1 in
  get2 s0 (comb st) (1 - cntindex st) 1 = gf_product tau (Z.to_nat 1) 1 /\
  extracted (2 * 1) (fold_upto pt mat (2 * 1) 1 (cdiv (2 * 1) 2))
  = gf_product tau (Z.to_nat 1) 1.
Proof.
  apply (fold_generating_function (powtrace_double (K := R) diag_eig_double)
           [0%R; 1%R; 1%R; 0%R] 1 1 1 1);
    [lia | split; [lia | reflexivity] | lia | lia].
Defined.

(** ** The integer engine: the triangular arrays *)

Lemma lower_pairs_nil t : t <= 1 -> lower_pairs t = [].
Proof.
  intros H. unfold lower_pairs. rewrite zrange_nil by lia. reflexivity.
Qed.

Lemma lower_pairs_last t :
  1 <= t ->
  lower_pairs (t + 1) = lower_pairs t ++ map (fun k => (t, k)) (zrange 0 t).
Proof.
  intros H. unfold lower_pairs. rewrite zrange_last by lia.
  rewrite flat_map_app. simpl. rewrite app_nil_r. reflexivity.
Qed.

(** There are [t (t-1) / 2] pairs below [t]. *)
Lemma vlen_lower_pairs t :
  1 <= t -> 2 * vlen (lower_pairs t) = t * (t - 1).
Proof.
  intros Ht.
  assert (G : forall c, 2 * vlen (lower_pairs (1 + Z.of_nat c))
                        = (1 + Z.of_nat c) * (1 + Z.of_nat c - 1)).
  { induction c as [|c IH].
    - rewrite lower_pairs_nil by lia. change (vlen (@nil (Z * Z))) with 0. lia.
    - replace (1 + Z.of_nat (S c)) with (1 + Z.of_nat c + 1) by lia.
      rewrite lower_pairs_last by lia. rewrite vlen_app.
      unfold vlen at 2. rewrite length_map. fold (vlen (zrange 0 (1 + Z.of_nat c))).
      rewrite length_zrange by lia. nia. }
  specialize (G (Z.to_nat (t - 1))).
  replace (1 + Z.of_nat (Z.to_nat (t - 1))) with t in G by lia. exact G.
Qed.

Lemma half_product a : 0 <= a -> 2 * cdiv (a * (a + 1)) 2 = a * (a + 1).
Proof.
  intros Ha. unfold cdiv. rewrite Z.quot_div_nonneg by nia.
  assert (E : (a * (a + 1)) mod 2 = 0).
  { rewrite Z.mul_mod by lia.
    assert (a mod 2 = 0 \/ a mod 2 = 1) as [E|E] by lia.
    - rewrite E. reflexivity.
    - assert ((a + 1) mod 2 = 0) as -> by lia. rewrite E. reflexivity. }
  pose proof (Z.div_mod (a * (a + 1)) 2 ltac:(lia)). lia.
Qed.

(** The position of the pair [(t, k)] in the enumeration: [t (t-1) / 2 + k]. *)
Lemma lower_pairs_index t :
  1 <= t -> vlen (lower_pairs t) = cdiv (t * (t - 1)) 2.
Proof.
  intros Ht. pose proof (vlen_lower_pairs t Ht) as H.
  pose proof (half_product (t - 1) ltac:(lia)) as H'.
  replace ((t - 1) * (t - 1 + 1)) with (t * (t - 1)) in H' by lia. lia.
Qed.

Lemma vset_app_mid {A} (l1 l2 : list A) x y :
  vset (l1 ++ x :: l2) (vlen l1) y = l1 ++ y :: l2.
Proof.
  unfold vset, vlen.
  destruct (Z.leb_spec 0 (Z.of_nat (length l1))) as [E|E]; [|lia].
  rewrite Nat2Z.id. rewrite upd_app_r by lia. rewrite Nat.sub_diag.
  reflexivity.
Qed.

Lemma vget_app_mid {A} (d : A) (l1 l2 : list A) x :
  vget d (l1 ++ x :: l2) (vlen l1) = x.
Proof.
  rewrite vget_app_r by lia. rewrite Z.sub_diag. reflexivity.
Qed.

Lemma is_array_row rows cols a r :
  is_array rows cols a -> 0 <= r < rows -> vlen (vget [] a r) = cols.
Proof.
  intros [Hl Hf] Hr. rewrite Forall_forall in Hf. apply Hf.
  apply vget_in. lia.
Qed.

Lemma at2_ok rows cols a r j :
  is_array rows cols a -> 0 <= r < rows -> 0 <= j < cols ->
  at2 a r j = ok (get2 0 a r j).
Proof.
  intros Ha Hr Hj. pose proof (is_array_row _ _ _ r Ha Hr) as Hrow.
  destruct Ha as [Hl Hf]. unfold at2, get2.
  rewrite (vat_ok a r []) by lia. cbn [bind ok].
  apply vat_ok. lia.
Qed.

Lemma Forall_upd {A} (P : A -> Prop) k x l :
  Forall P l -> P x -> Forall P (upd k x l).
Proof.
  intros Hl Hx. revert k. induction Hl as [|h t Hh Ht IH]; intros k.
  - destruct k; constructor.
  - destruct k as [|k]; simpl; constructor; auto.
Qed.

Lemma is_array_vset rows cols a r row :
  is_array rows cols a -> vlen row = cols -> is_array rows cols (vset a r row).
Proof.
  intros [Hl Hf] Hrow. split; [rewrite vlen_vset; assumption|].
  unfold vset. destruct (0 <=? r); [|assumption].
  apply Forall_upd; assumption.
Qed.

Lemma put2_ok rows cols a r j x :
  is_array rows cols a -> 0 <= r < rows -> 0 <= j < cols ->
  put2 a r j x = ok (set2 a r j x) /\ is_array rows cols (set2 a r j x).
Proof.
  intros Ha Hr Hj. pose proof (is_array_row _ _ _ r Ha Hr) as Hrow.
  unfold put2, set2. destruct Ha as [Hl Hf].
  rewrite (vat_ok a r []) by lia. cbn [bind ok].
  rewrite vput_ok by lia. cbn [bind ok].
  rewrite vput_ok by lia. split; [reflexivity|].
  apply is_array_vset; [split; assumption|]. rewrite vlen_vset. assumption.
Qed.

Lemma get2_set2_gen {A} (d : A) (a : list (list A)) r j x r' j' :
  0 <= r < vlen a -> 0 <= j < vlen (vget [] a r) ->
  get2 d (set2 a r j x) r' j'
  = if (r =? r') && (j =? j') then x else get2 d a r' j'.
Proof.
  intros Hr Hj. unfold get2, set2. rewrite vget_vset by lia.
  destruct (Z.eqb_spec r r') as [<-|N]; cbn [andb]; [|reflexivity].
  rewrite vget_vset by lia. reflexivity.
Qed.

Lemma row_set2_other {A} (a : list (list A)) r j x r' :
  r <> r' -> vget [] (set2 a r j x) r' = vget [] a r'.
Proof. intros H. unfold set2. apply vget_vset_other. assumption. Qed.

(** The loop over [u] of the reduce step copies one row of [b] into the
    row [i] of [c]. *)
Lemma copy_row_of_b b c idx i n rows :
  0 <= n ->
  Forall (fun r => vlen r = n + 1) b -> 0 <= idx < vlen b ->
  is_array rows (n + 1) c -> 0 <= i < rows ->
  for_rangeM 0 (n + 1)
    (fun u c => bind (at2 b idx u) (fun x => put2 c i u x)) c
  = ok (vset c i (vget [] b idx)).
Proof.
  intros Hn Hb Hidx Hc Hi.
  assert (Hba : is_array (vlen b) (n + 1) b) by (split; auto).
  destruct (for_rangeM_inv (fun u cu =>
      is_array rows (n + 1) cu /\
      (forall r, r <> i -> vget [] cu r = vget [] c r) /\
      (forall u', 0 <= u' < u -> get2 0 cu i u' = get2 0 b idx u'))
      0 (n + 1)
      (fun u c => bind (at2 b idx u) (fun x => put2 c i u x)) c)
    as (t & Ht & Harr & Hrest & Hrow).
  - lia.
  - split; [assumption|]. split; [reflexivity|]. intros u' Hu'. lia.
  - intros u cu Hu (Harr & Hrest & Hrow).
    rewrite (at2_ok _ _ _ _ _ Hba Hidx) by lia. cbn [bind ok].
    destruct (put2_ok rows (n + 1) cu i u (get2 0 b idx u) Harr Hi
                ltac:(lia)) as [Hp Harr'].
    eexists. split; [exact Hp|]. split; [assumption|]. split.
    + intros r Hr. rewrite row_set2_other by lia. apply Hrest. assumption.
    + intros u' Hu'.
      pose proof (is_array_row _ _ _ i Harr Hi) as Hri.
      destruct Harr as [Hl _].
      rewrite get2_set2_gen by lia. rewrite Z.eqb_refl. cbn [andb].
      destruct (Z.eqb_spec u u') as [->|N]; [reflexivity|].
      apply Hrow. lia.
  - rewrite Ht. f_equal.
    pose proof (is_array_row _ _ _ i Harr Hi) as Hri.
    pose proof (is_array_row _ _ _ idx Hba Hidx) as Hrb.
    destruct Harr as [Hl _]. destruct Hc as [Hlc _].
    apply vec_ext with (d := []).
    + rewrite vlen_vset. lia.
    + intros r Hr. rewrite vget_vset by lia.
      destruct (Z.eqb_spec i r) as [<-|N].
      * apply vec_ext with (d := 0); [lia|].
        intros u Hu. apply Hrow. lia.
      * apply Hrest. lia.
Qed.

Lemma lower_pairs_mono_len t t' :
  1 <= t <= t' -> vlen (lower_pairs t) <= vlen (lower_pairs t').
Proof.
  intros H. pose proof (vlen_lower_pairs t ltac:(lia)).
  pose proof (vlen_lower_pairs t' ltac:(lia)). nia.
Qed.

Lemma repeat_pos {A} (x : A) k :
  0 < k -> repeat x (Z.to_nat k) = x :: repeat x (Z.to_nat (k - 1)).
Proof.
  intros H. replace (Z.to_nat k) with (S (Z.to_nat (k - 1))) by lia.
  reflexivity.
Qed.

Lemma vlen_map {A B} (f : A -> B) l : vlen (map f l) = vlen l.
Proof. unfold vlen. rewrite length_map. reflexivity. Qed.

Lemma vlen_repeat {A} (x : A) k : vlen (repeat x k) = Z.of_nat k.
Proof. unfold vlen. rewrite repeat_length. reflexivity. Qed.

(** The reduce step in closed form: [c] is the list of the rows
    [b[(j+1)(j+2)/2 + k + 2]] for the pairs [0 <= k < j < s-2], [1 <= j],
    in the order of the enumeration. *)
Lemma reduce_rows_spec b s n :
  2 <= s -> 0 <= n ->
  Forall (fun r => vlen r = n + 1) b ->
  cdiv (s * (s - 1)) 2 <= vlen b ->
  reduce_rows b s n = ok (map (reduce_source b) (lower_pairs (s - 2))).
Proof.
  intros Hs Hn Hb Hlen. unfold reduce_rows.
  set (N := cdiv ((s - 2) * (s - 3)) 2).
  set (zrow := vmake (n + 1) 0).
  assert (Hzrow : vlen zrow = n + 1) by (apply vlen_vmake; lia).
  pose proof (half_product (s - 1) ltac:(lia)) as Hneed.
  replace ((s - 1) * (s - 1 + 1)) with (s * (s - 1)) in Hneed by lia.
  destruct (Z.le_gt_cases (s - 2) 1) as [Hsmall|Hbig].
  { rewrite for_rangeM_nil by lia. cbn [bind ok].
    rewrite lower_pairs_nil by lia. unfold N, vmake.
    assert (s = 2 \/ s = 3) as [-> | ->] by lia; reflexivity. }
  assert (HN : N = vlen (lower_pairs (s - 2))).
  { rewrite lower_pairs_index by lia. unfold N. f_equal. lia. }
  pose (shape := fun (i : Z) (done : list (Z * Z)) (c : list (list Z)) =>
    i = vlen done /\
    is_array N (n + 1) c /\
    c = map (reduce_source b) done ++ repeat zrow (Z.to_nat (N - i))).
  destruct (for_rangeM_inv
      (fun j (st : list (list Z) * Z) =>
         shape (snd st) (lower_pairs j) (fst st))
      1 (s - 2)
      (fun j st =>
         for_rangeM 0 j (fun k '(c, i) =>
           bind (for_rangeM 0 (n + 1)
                   (fun u c =>
                      bind (at2 b (cdiv ((j + 1) * (j + 2)) 2 + k + 2) u)
                           (fun x => put2 c i u x)) c)
                (fun c => ok (c, i + 1))) st)
      (vmake N zrow, 0))
    as ([c i] & Hrun & Hi & Harr & Hc).
  - lia.
  - cbn [fst snd]. rewrite lower_pairs_nil by lia. unfold shape.
    split; [reflexivity|]. split.
    + split; [apply vlen_vmake; unfold N, cdiv; nia|].
      unfold vmake. apply Forall_forall. intros r Hr.
      apply repeat_spec in Hr. subst r. assumption.
    + rewrite Z.sub_0_r. reflexivity.
  - intros j st Hj Hst.
    destruct (for_rangeM_inv
        (fun k (st : list (list Z) * Z) =>
           shape (snd st)
             (lower_pairs j ++ map (fun k => (j, k)) (zrange 0 k)) (fst st))
        0 j
        (fun k '(c, i) =>
           bind (for_rangeM 0 (n + 1)
                   (fun u c =>
                      bind (at2 b (cdiv ((j + 1) * (j + 2)) 2 + k + 2) u)
                           (fun x => put2 c i u x)) c)
                (fun c => ok (c, i + 1))) st)
      as (st' & Hrun' & Hst').
    + lia.
    + rewrite zrange_nil by lia. cbn [map]. rewrite app_nil_r. exact Hst.
    + intros k [ck ik] Hk (Hik & Harrk & Hck). cbn [fst snd] in *.
      assert (Hlt : ik < N).
      { rewrite Hik, vlen_app, vlen_map, length_zrange by lia.
        pose proof (lower_pairs_mono_len (j + 1) (s - 2) ltac:(lia)) as Hm.
        rewrite lower_pairs_last in Hm by lia.
        rewrite vlen_app, vlen_map, length_zrange in Hm by lia. lia. }
      pose proof (vlen_nonneg
                    (lower_pairs j ++ map (fun k => (j, k)) (zrange 0 k))).
      pose proof (half_product (j + 1) ltac:(lia)) as Hidx.
      replace (j + 1 + 1) with (j + 2) in Hidx by lia.
      rewrite (copy_row_of_b b ck _ ik n N Hn Hb) by (assumption || nia).
      cbn [bind ok]. eexists. split; [reflexivity|]. cbn [fst snd].
      unfold shape. rewrite zrange_last by lia.
      rewrite map_app, app_assoc. cbn [map].
      split; [|split].
      * rewrite vlen_app. change (vlen [(j, k)]) with 1. lia.
      * apply is_array_vset; [assumption|].
        rewrite Forall_forall in Hb. apply Hb. apply vget_in. nia.
      * rewrite Hck. rewrite repeat_pos by lia.
        replace ik with
          (vlen (map (reduce_source b)
                   (lower_pairs j ++ map (fun k0 => (j, k0)) (zrange 0 k))))
          at 2 by (rewrite vlen_map; lia).
        rewrite vset_app_mid.
        replace (N - (ik + 1)) with (N - ik - 1) by lia.
        rewrite !map_app, <- !app_assoc. reflexivity.
    + exists st'. split; [exact Hrun'|].
      rewrite lower_pairs_last by lia. exact Hst'.
  - cbn [fst snd] in *. rewrite Hrun. cbn [bind ok]. f_equal.
    rewrite Hc. replace (N - i) with 0 by lia. cbn [Z.to_nat repeat].
    apply app_nil_r.
Qed.

(** ** The integer engine: no access out of bounds *)

Lemma is_array_of_Forall cols (a : list (list Z)) :
  Forall (fun r => vlen r = cols) a -> is_array (vlen a) cols a.
Proof. intros H. split; [reflexivity|assumption]. Qed.

(** A loop whose iterations succeed and preserve [P] succeeds and
    preserves [P]. *)
Lemma for_rangeM_preserves {S} (P : S -> Prop) lo hi
    (body : Z -> S -> result S) (s : S) :
  P s ->
  (forall i t, lo <= i < hi -> P t -> exists t', body i t = ok t' /\ P t') ->
  exists t, for_rangeM lo hi body s = ok t /\ P t.
Proof.
  intros H0 Hstep. destruct (Z.le_gt_cases hi lo) as [H|H].
  - rewrite for_rangeM_nil by assumption. exists s. split; auto.
  - apply (for_rangeM_inv (fun _ t => P t)); [lia|assumption|assumption].
Qed.

(** [augment_g] succeeds and keeps the length of [g]. *)
Lemma augment_g_ok b g n :
  0 <= n -> Forall (fun r => vlen r = n + 1) b -> 1 <= vlen b ->
  vlen g = n + 1 ->
  exists e, augment_g b g n = ok e /\ vlen e = n + 1.
Proof.
  intros Hn Hb Hlen Hg. unfold augment_g.
  pose proof (is_array_of_Forall _ _ Hb) as Hba.
  apply (for_rangeM_preserves (fun e => vlen e = n + 1)); [assumption|].
  intros u e Hu He.
  apply (for_rangeM_preserves (fun e => vlen e = n + 1)); [assumption|].
  intros v e' Hv He'.
  rewrite (vat_ok e' (u + v + 1) 0) by lia. cbn [bind ok].
  rewrite (vat_ok g u 0) by lia. cbn [bind ok].
  rewrite (at2_ok _ _ _ _ _ Hba) by lia. cbn [bind ok].
  rewrite vput_ok by lia. eexists. split; [reflexivity|].
  rewrite vlen_vset. assumption.
Qed.

(** [augment_c] succeeds and keeps the shape of [c]. *)
Lemma augment_c_ok b c s n :
  2 <= s -> 0 <= n ->
  Forall (fun r => vlen r = n + 1) b -> cdiv (s * (s - 1)) 2 <= vlen b ->
  is_array (cdiv ((s - 2) * (s - 3)) 2) (n + 1) c ->
  exists c', augment_c b c s n = ok c' /\
             is_array (cdiv ((s - 2) * (s - 3)) 2) (n + 1) c'.
Proof.
  intros Hs Hn Hb Hlen Hc. unfold augment_c.
  pose proof (is_array_of_Forall _ _ Hb) as Hba.
  pose proof (half_product (s - 1) ltac:(lia)) as Hneed.
  replace ((s - 1) * (s - 1 + 1)) with (s * (s - 1)) in Hneed by lia.
  set (N := cdiv ((s - 2) * (s - 3)) 2) in *.
  apply (for_rangeM_preserves (fun c => is_array N (n + 1) c)); [assumption|].
  intros j cj Hj Hcj.
  assert (HN : 2 * N = (s - 2) * (s - 3)).
  { pose proof (half_product (s - 3) ltac:(lia)) as H.
    replace ((s - 3) * (s - 3 + 1)) with ((s - 2) * (s - 3)) in H by lia.
    exact H. }
  pose proof (half_product (j - 1) ltac:(lia)) as Hj1.
  replace ((j - 1) * (j - 1 + 1)) with (j * (j - 1)) in Hj1 by lia.
  pose proof (half_product (j + 1) ltac:(lia)) as Hj2.
  replace (j + 1 + 1) with (j + 2) in Hj2 by lia.
  apply (for_rangeM_preserves (fun c => is_array N (n + 1) c)); [assumption|].
  intros k ck Hk Hck.
  pose proof (half_product (k + 1) ltac:(lia)) as Hk2.
  replace (k + 1 + 1) with (k + 2) in Hk2 by lia.
  apply (for_rangeM_preserves (fun c => is_array N (n + 1) c)); [assumption|].
  intros u cu Hu Hcu.
  apply (for_rangeM_preserves (fun c => is_array N (n + 1) c)); [assumption|].
  intros v cv Hv Hcv.
  assert (Hr : 0 <= cdiv (j * (j - 1)) 2 + k < N) by nia.
  rewrite (at2_ok _ _ _ _ _ Hcv Hr) by lia. cbn [bind ok].
  rewrite (at2_ok _ _ _ _ _ Hba) by nia. cbn [bind ok].
  rewrite (at2_ok _ _ _ _ _ Hba) by nia. cbn [bind ok].
  rewrite (at2_ok _ _ _ _ _ Hba) by nia. cbn [bind ok].
  rewrite (at2_ok _ _ _ _ _ Hba) by nia. cbn [bind ok].
  destruct (put2_ok N (n + 1) cv (cdiv (j * (j - 1)) 2 + k) (u + v + 1)
              (ll_add (get2 0 cv (cdiv (j * (j - 1)) 2 + k) (u + v + 1))
                 (ll_add
                    (ll_mul (get2 0 b (cdiv ((j + 1) * (j + 2)) 2) u)
                       (get2 0 b (cdiv ((k + 1) * (k + 2)) 2 + 1) v))
                    (ll_mul (get2 0 b (cdiv ((k + 1) * (k + 2)) 2) u)
                       (get2 0 b (cdiv ((j + 1) * (j + 2)) 2 + 1) v))))
              Hcv Hr ltac:(lia)) as [Hp Harr].
  eexists. split; [exact Hp|exact Harr].
Qed.

(** The array built by the reduce step has the shape that the engine
    needs at size [s - 2]. *)
Lemma reduced_shape b s n :
  2 <= s -> 0 <= n ->
  Forall (fun r => vlen r = n + 1) b -> cdiv (s * (s - 1)) 2 <= vlen b ->
  is_array (cdiv ((s - 2) * (s - 3)) 2) (n + 1)
    (map (reduce_source b) (lower_pairs (s - 2))).
Proof.
  intros Hs Hn Hb Hlen. split.
  - rewrite vlen_map. destruct (Z.le_gt_cases (s - 2) 0) as [H|H].
    + rewrite lower_pairs_nil by lia.
      assert (s = 2) as -> by lia. reflexivity.
    + rewrite lower_pairs_index by lia. f_equal. lia.
  - apply Forall_forall. intros r Hr. apply in_map_iff in Hr.
    destruct Hr as ([j k] & <- & Hin). unfold lower_pairs in Hin.
    apply in_flat_map in Hin. destruct Hin as (j' & Hj' & Hin).
    apply in_map_iff in Hin. destruct Hin as (k' & E & Hk').
    injection E as <- <-. apply in_zrange in Hj'. apply in_zrange in Hk'.
    unfold reduce_source. cbn [fst snd].
    rewrite Forall_forall in Hb. apply Hb. apply vget_in.
    pose proof (half_product (s - 1) ltac:(lia)) as Hneed.
    replace ((s - 1) * (s - 1 + 1)) with (s * (s - 1)) in Hneed by lia.
    pose proof (half_product (j' + 1) ltac:(lia)) as Hj2.
    replace (j' + 1 + 1) with (j' + 2) in Hj2 by lia. nia.
Qed.

(** With arrays of the right shape the engine returns a value once the
    budget exceeds [t = s / 2], and the value does not depend on the
    budget. *)
Lemma engine_total n : 0 <= n -> forall t b w g,
  Forall (fun r => vlen r = n + 1) b ->
  cdiv (2 * Z.of_nat t * (2 * Z.of_nat t - 1)) 2 <= vlen b ->
  vlen g = n + 1 ->
  exists v, forall fuel, (t < fuel)%nat ->
    recursive_int fuel b (2 * Z.of_nat t) w g n = ok v.
Proof.
  intros Hn. induction t as [|t IH]; intros b w g Hb Hlen Hg.
  - exists (ll_mul w (vget 0 g n)). intros [|fuel] Hf; [lia|].
    cbn [recursive_int]. change (2 * Z.of_nat 0 =? 0) with true. cbn iota.
    rewrite (vat_ok g n 0) by lia. reflexivity.
  - set (s := 2 * Z.of_nat (S t)) in *.
    assert (Hs : 2 <= s) by lia.
    assert (Hs2 : s - 2 = 2 * Z.of_nat t) by lia.
    pose proof (reduce_rows_spec b s n Hs Hn Hb Hlen) as Hred.
    pose proof (reduced_shape b s n Hs Hn Hb Hlen) as [Hcl Hcf].
    set (c := map (reduce_source b) (lower_pairs (s - 2))) in *.
    destruct (IH c (- w) g Hcf) as [v1 Hv1];
      [rewrite <- Hs2, Hcl; apply Z.eq_le_incl; f_equal; lia | assumption |].
    pose proof (half_product (s - 1) ltac:(lia)) as Hneed.
    replace ((s - 1) * (s - 1 + 1)) with (s * (s - 1)) in Hneed by lia.
    destruct (augment_g_ok b g n Hn Hb ltac:(nia) Hg) as (e & He & Hel).
    destruct (augment_c_ok b c s n Hs Hn Hb Hlen (conj Hcl Hcf))
      as (c' & Hc' & Hcl' & Hcf').
    destruct (IH c' w e Hcf') as [v2 Hv2];
      [rewrite <- Hs2, Hcl'; apply Z.eq_le_incl; f_equal; lia | assumption |].
    exists (ll_add v1 v2). intros [|fuel] Hf; [lia|].
    cbn [recursive_int].
    destruct (Z.eqb_spec s 0) as [E|_]; [lia|].
    rewrite Hred. cbn [bind ok]. rewrite Hs2.
    rewrite Hv1 by lia. cbn [bind ok]. rewrite He. cbn [bind ok].
    rewrite Hc'. cbn [bind ok]. rewrite Hv2 by lia. reflexivity.
Qed.

(** With too small a budget the engine does not reach its base case. *)
Lemma engine_out_of_fuel n : 0 <= n -> forall t b w g fuel,
  Forall (fun r => vlen r = n + 1) b ->
  cdiv (2 * Z.of_nat t * (2 * Z.of_nat t - 1)) 2 <= vlen b ->
  (fuel <= t)%nat ->
  recursive_int fuel b (2 * Z.of_nat t) w g n = fail OutOfFuel.
Proof.
  intros Hn. induction t as [|t IH]; intros b w g fuel Hb Hlen Hf.
  - assert (fuel = O) as -> by lia. reflexivity.
  - destruct fuel as [|fuel]; [reflexivity|].
    set (s := 2 * Z.of_nat (S t)) in *.
    assert (Hs : 2 <= s) by lia.
    assert (Hs2 : s - 2 = 2 * Z.of_nat t) by lia.
    cbn [recursive_int].
    destruct (Z.eqb_spec s 0) as [E|_]; [lia|].
    rewrite (reduce_rows_spec b s n Hs Hn Hb Hlen). cbn [bind ok].
    pose proof (reduced_shape b s n Hs Hn Hb Hlen) as [Hcl Hcf].
    rewrite Hs2. rewrite IH; [reflexivity | | | lia].
    + rewrite <- Hs2. exact Hcf.
    + rewrite <- Hs2, Hcl. apply Z.eq_le_incl. f_equal. lia.
Qed.

(** ** The integer engine: the reduce step and the base case *)

(** C8 (amended).  For an even size [s >= 2] and an array [b] with at
    least [s (s-1) / 2] rows of length [n+1], the reduce step builds [c]
    from exactly the rows [b[(j+1)(j+2)/2 + k + 2]] for the index pairs
    with [0 <= k < j < s-2] and [1 <= j] (in this order); the engine then
    calls itself first on [(c, s-2, -w, g, n)], and a second time on
    [(c', s-2, w, e, n)] after the two augment steps, and returns the sum.
    In the base case [s = 0] it returns [w * g[n]] (a 64-bit product). *)
Theorem recursive_int_reduce fuel b s w g n :
  2 <= s -> Z.even s = true -> 0 <= n ->
  Forall (fun r => vlen r = n + 1) b ->
  cdiv (s * (s - 1)) 2 <= vlen b ->
  vlen g = n + 1 ->
  let c := map (reduce_source b) (lower_pairs (s - 2)) in
  reduce_rows b s n = ok c /\
  recursive_int (S fuel) b s w g n
  = bind (recursive_int fuel c (s - 2) (- w) g n) (fun h =>
    bind (augment_g b g n) (fun e =>
    bind (augment_c b c s n) (fun c' =>
    bind (recursive_int fuel c' (s - 2) w e n) (fun h' =>
    ok (ll_add h h'))))) /\
  recursive_int (S fuel) b 0 w g n = ok (ll_mul w (vget 0 g n)) /\
  (- 2 ^ 63 <= w * vget 0 g n < 2 ^ 63 ->
   recursive_int (S fuel) b 0 w g n = ok (w * vget 0 g n)).
Proof.
  intros Hs Hev Hn Hb Hlen Hg c.
  pose proof (reduce_rows_spec b s n Hs Hn Hb Hlen) as Hred.
  fold c in Hred.
  assert (Hbase : recursive_int (S fuel) b 0 w g n
                  = ok (ll_mul w (vget 0 g n))).
  { cbn [recursive_int]. change (0 =? 0) with true. cbn iota.
    rewrite (vat_ok g n 0) by lia. reflexivity. }
  split; [exact Hred|]. split; [|split].
  - cbn [recursive_int].
    destruct (Z.eqb_spec s 0) as [E|_]; [lia|].
    rewrite Hred. reflexivity.
  - exact Hbase.
  - intros Hrange. rewrite Hbase. f_equal. unfold ll_mul, wrap64.
    rewrite Z.mod_small by lia. lia.
Qed.

(** C8 (amended) at [s = 4], [n = 0]. *)
Lemma recursive_int_reduce_witness :
  let c := map (reduce_source example_b6) (lower_pairs (4 - 2)) in
  reduce_rows example_b6 4 0 = ok c /\
  recursive_int 3 example_b6 4 1 [1] 0
  = bind (recursive_int 2 c (4 - 2) (- (1)) [1] 0) (fun h =>
    bind (augment_g example_b6 [1] 0) (fun e =>
    bind (augment_c example_b6 c 4 0) (fun c' =>
    bind (recursive_int 2 c' (4 - 2) 1 e 0) (fun h' =>
    ok (ll_add h h'))))) /\
  recursive_int 3 example_b6 0 1 [1] 0 = ok (ll_mul 1 (vget 0 [1] 0)) /\
  (- 2 ^ 63 <= 1 * vget 0 [1] 0 < 2 ^ 63 ->
   recursive_int 3 example_b6 0 1 [1] 0 = ok (1 * vget 0 [1] 0)).
Proof.
  apply (recursive_int_reduce 2 example_b6 4 1 [1] 0).
  - lia.
  - reflexivity.
  - lia.
  - repeat constructor.
  - vm_compute. discriminate.
  - reflexivity.
Defined.

(** C8 as stated fails: for [s = 4] the reduce step copies the row
    [b[5]], for the pair [(j, k) = (1, 0)]; there is no pair with
    [1 <= k < j < 2]. *)
Lemma reduce_pairs_counterexample :
  reduce_rows example_b6 4 0 = ok [[5]] /\
  map (reduce_source example_b6) (stated_pairs (4 - 2)) = [] /\
  reduce_rows example_b6 4 0
  <> ok (map (reduce_source example_b6) (stated_pairs (4 - 2))).
Proof.
  split; [reflexivity|]. split; [reflexivity|]. discriminate.
Qed.

(** ** The integer engine: the seed of [hafnian_int] *)

Lemma half_order_bounds mat :
  0 <= half_order mat /\
  (2 * half_order mat) * (2 * half_order mat) <= vlen mat.
Proof.
  pose proof (vlen_nonneg mat) as HL.
  pose proof (Z.sqrt_spec (vlen mat) HL) as Hs.
  pose proof (Z.sqrt_nonneg (vlen mat)) as Hs0.
  set (r := Z.sqrt (vlen mat)) in *.
  assert (Hh : 0 <= r / 2 /\ 2 * (r / 2) <= r) by lia.
  split; [unfold half_order; fold r; lia|].
  pose proof (Z.mul_le_mono_nonneg (2 * (r / 2)) r (2 * (r / 2)) r
                ltac:(lia) ltac:(lia) ltac:(lia) ltac:(lia)) as Hsq.
  destruct Hs as [Hs1 _]. unfold half_order. fold r.
  eapply Z.le_trans; [exact Hsq|exact Hs1].
Qed.

(** The seeding loops in closed form. *)
Lemma seed_rows_spec mat n :
  0 <= n -> (2 * n) * (2 * n) <= vlen mat ->
  seed_rows mat n = ok (map (seed_row mat n) (lower_pairs (2 * n))).
Proof.
  intros Hn Hmat. unfold seed_rows.
  set (N := n * (2 * n - 1)).
  set (zrow := vmake (n + 1) 0).
  assert (Hzrow : vlen zrow = n + 1) by (apply vlen_vmake; lia).
  destruct (Z.le_gt_cases (2 * n) 1) as [Hsmall|Hbig].
  { rewrite for_rangeM_nil by lia. rewrite lower_pairs_nil by lia.
    assert (n = 0) as -> by lia. reflexivity. }
  assert (HN : N = vlen (lower_pairs (2 * n))).
  { pose proof (vlen_lower_pairs (2 * n) ltac:(lia)). unfold N. nia. }
  pose (shape := fun (done : list (Z * Z)) (z : list (list Z)) =>
    is_array N (n + 1) z /\
    z = map (seed_row mat n) done
        ++ repeat zrow (Z.to_nat (N - vlen done))).
  destruct (for_rangeM_inv (fun j z => shape (lower_pairs j) z)
      1 (2 * n)
      (fun j z =>
         for_rangeM 0 j (fun k z =>
           bind (vat mat (2 * j * n + k))
                (fun x => put2 z (cdiv (j * (j - 1)) 2 + k) 0 x)) z)
      (vmake N zrow))
    as (z & Hrun & Harr & Hz).
  - lia.
  - rewrite lower_pairs_nil by lia. unfold shape. split.
    + split; [apply vlen_vmake; unfold N; nia|].
      unfold vmake. apply Forall_forall. intros r Hr.
      apply repeat_spec in Hr. subst r. assumption.
    + change (vlen (@nil (Z * Z))) with 0. rewrite Z.sub_0_r. reflexivity.
  - intros j zj Hj Hzj.
    destruct (for_rangeM_inv
        (fun k z =>
           shape (lower_pairs j ++ map (fun k => (j, k)) (zrange 0 k)) z)
        0 j
        (fun k z =>
           bind (vat mat (2 * j * n + k))
                (fun x => put2 z (cdiv (j * (j - 1)) 2 + k) 0 x)) zj)
      as (z' & Hrun' & Hz').
    + lia.
    + rewrite zrange_nil by lia. cbn [map]. rewrite app_nil_r. exact Hzj.
    + intros k zk Hk (Harrk & Hzk).
      set (done := lower_pairs j ++ map (fun k => (j, k)) (zrange 0 k)) in *.
      assert (Hdone : vlen done = cdiv (j * (j - 1)) 2 + k).
      { unfold done. rewrite vlen_app, vlen_map, length_zrange by lia.
        rewrite lower_pairs_index by lia. lia. }
      assert (Hlt : vlen done < N).
      { unfold done. rewrite vlen_app, vlen_map, length_zrange by lia.
        pose proof (lower_pairs_mono_len (j + 1) (2 * n) ltac:(lia)) as Hm.
        rewrite lower_pairs_last in Hm by lia.
        rewrite vlen_app, vlen_map, length_zrange in Hm by lia. lia. }
      pose proof (vlen_nonneg done) as Hd0.
      rewrite (vat_ok mat (2 * j * n + k) 0) by nia. cbn [bind ok].
      rewrite <- Hdone.
      destruct (put2_ok N (n + 1) zk (vlen done) 0
                  (vget 0 mat (2 * j * n + k)) Harrk ltac:(lia) ltac:(lia))
        as [Hp Harr'].
      eexists. split; [exact Hp|].
      replace (lower_pairs j ++ map (fun k0 => (j, k0)) (zrange 0 (k + 1)))
        with (done ++ [(j, k)])
        by (unfold done; rewrite zrange_last by lia;
            rewrite map_app, app_assoc; reflexivity).
      unfold shape. split; [exact Harr'|].
      rewrite vlen_app. change (vlen [(j, k)]) with 1.
      unfold set2. rewrite Hzk. rewrite repeat_pos by lia.
      rewrite <- (vlen_map (seed_row mat n) done).
      rewrite vget_app_mid, vset_app_mid.
      rewrite (vlen_map (seed_row mat n) done).
      replace (N - (vlen done + 1)) with (N - vlen done - 1) by lia.
      rewrite !map_app, <- !app_assoc. reflexivity.
    + exists z'. split; [exact Hrun'|].
      rewrite lower_pairs_last by lia. exact Hz'.
  - rewrite Hrun. f_equal. rewrite Hz.
    replace (N - vlen (lower_pairs (2 * n))) with 0 by lia.
    cbn [Z.to_nat repeat]. apply app_nil_r.
Qed.

Lemma seed_shape mat n :
  0 <= n ->
  is_array (n * (2 * n - 1)) (n + 1)
    (map (seed_row mat n) (lower_pairs (2 * n))).
Proof.
  intros Hn. split.
  - rewrite vlen_map. destruct (Z.le_gt_cases (2 * n) 1) as [H|H].
    + rewrite lower_pairs_nil by lia. assert (n = 0) as -> by lia.
      reflexivity.
    + pose proof (vlen_lower_pairs (2 * n) ltac:(lia)). nia.
  - apply Forall_forall. intros r Hr. apply in_map_iff in Hr.
    destruct Hr as (p & <- & _). unfold seed_row.
    rewrite vlen_vset. apply vlen_vmake. lia.
Qed.

(** [hafnian_int] in terms of the engine. *)
Lemma hafnian_int_unfold mat :
  hafnian_int mat
  = recursive_int (S (Z.to_nat (half_order mat)))
      (map (seed_row mat (half_order mat))
         (lower_pairs (2 * half_order mat)))
      (2 * half_order mat) 1
      (vset (vmake (half_order mat + 1) 0) 0 1) (half_order mat).
Proof.
  destruct (half_order_bounds mat) as [Hn Hmat]. unfold hafnian_int.
  cbn zeta. rewrite vput_ok by (rewrite vlen_vmake; lia). cbn [bind ok].
  rewrite seed_rows_spec by assumption. reflexivity.
Qed.

(** C7 (amended).  [hafnian_int] seeds the triangular array with one row
    per index pair [0 <= k < j < 2n], [1 <= j] (where [2n] is the order
    of the matrix), whose constant term is [mat[2*j*n + k]] and whose other
    coefficients are zero, sets [g[0] = 1] (the rest of [g] zero) and
    [w = +1], and calls the engine at size [s = 2n] with degree bound
    [n]. *)
Theorem hafnian_int_seed mat :
  let n := half_order mat in
  let z := map (seed_row mat n) (lower_pairs (2 * n)) in
  let g := vset (vmake (n + 1) 0) 0 1 in
  seed_rows mat n = ok z /\
  is_array (n * (2 * n - 1)) (n + 1) z /\
  hafnian_int mat = recursive_int (S (Z.to_nat n)) z (2 * n) 1 g n.
Proof.
  cbn zeta. destruct (half_order_bounds mat) as [Hn Hmat].
  split; [apply seed_rows_spec; assumption|].
  split; [apply seed_shape; assumption|]. apply hafnian_int_unfold.
Qed.

(** C7 as stated fails: for the 2 by 2 matrix [[0, 1], [1, 0]], [n = 1]
    and the only row of the array is seeded with [mat[2] = 1], for the
    pair [(j, k) = (1, 0)]; there is no pair with [1 <= j < 1]. *)
Lemma hafnian_int_seed_counterexample :
  half_order [0; 1; 1; 0] = 1 /\
  seed_rows [0; 1; 1; 0] 1 = ok [[1; 0]] /\
  stated_seed [0; 1; 1; 0] 1 = [[0; 0]] /\
  seed_rows [0; 1; 1; 0] 1 <> ok (stated_seed [0; 1; 1; 0] 1).
Proof.
  split; [reflexivity|]. split; [reflexivity|]. split; [reflexivity|].
  discriminate.
Qed.

(** ** The integer engine: termination *)

(** C10 (amended).  For every even [s >= 0], every [n >= 0], every array [b]
    with at least [s (s-1) / 2] rows of length [n+1] and every [g] of
    length [n+1], the engine returns a value: it does so with any budget
    of more than [s / 2] nested calls, and with no smaller budget, so the
    base case is reached after exactly [s / 2] levels.  [hafnian_int]
    calls it with [s = 2n] and such arrays, and returns a value for every
    input. *)
Theorem recursive_int_terminates s n b w g :
  0 <= s -> Z.even s = true -> 0 <= n ->
  Forall (fun r => vlen r = n + 1) b ->
  cdiv (s * (s - 1)) 2 <= vlen b ->
  vlen g = n + 1 ->
  (exists v, forall fuel, (Z.to_nat (s / 2) < fuel)%nat ->
     recursive_int fuel b s w g n = ok v) /\
  (forall fuel, (fuel <= Z.to_nat (s / 2))%nat ->
     recursive_int fuel b s w g n = fail OutOfFuel) /\
  (forall mat, exists v, hafnian_int mat = ok v).
Proof.
  intros Hs Hev Hn Hb Hlen Hg.
  assert (Es : s = 2 * Z.of_nat (Z.to_nat (s / 2))).
  { apply Z.even_spec in Hev. destruct Hev as [h ->].
    rewrite (Z.mul_comm 2 h), Z.div_mul by lia. lia. }
  split; [|split].
  - rewrite Es in Hlen.
    destruct (engine_total n Hn (Z.to_nat (s / 2)) b w g Hb Hlen Hg)
      as [v Hv].
    exists v. intros fuel Hf. rewrite Es. apply Hv. assumption.
  - intros fuel Hf. rewrite Es in Hlen. rewrite Es.
    apply engine_out_of_fuel; assumption.
  - intros mat. rewrite hafnian_int_unfold.
    destruct (half_order_bounds mat) as [Hn' _].
    destruct (seed_shape mat (half_order mat) Hn') as [Hzl Hzf].
    assert (El : 2 * half_order mat
                 = 2 * Z.of_nat (Z.to_nat (half_order mat))) by lia.
    destruct (engine_total (half_order mat) Hn' (Z.to_nat (half_order mat))
                _ 1 (vset (vmake (half_order mat + 1) 0) 0 1) Hzf)
      as [v Hv].
    + rewrite Hzl, <- El.
      pose proof (half_product (2 * half_order mat - 1)) as Hh.
      destruct (Z.eq_dec (half_order mat) 0) as [E0|N0];
        [rewrite E0; vm_compute; discriminate|].
      specialize (Hh ltac:(lia)).
      replace ((2 * half_order mat - 1) * (2 * half_order mat - 1 + 1))
        with (2 * half_order mat * (2 * half_order mat - 1)) in Hh by lia.
      nia.
    + rewrite vlen_vset. apply vlen_vmake. lia.
    + exists v. rewrite El at 2. apply Hv. lia.
Qed.

(** C10 (amended) at [s = 4], [n = 0]. *)
Lemma recursive_int_terminates_witness :
  (exists v, forall fuel, (Z.to_nat (4 / 2) < fuel)%nat ->
     recursive_int fuel example_b6 4 1 [1] 0 = ok v) /\
  (forall fuel, (fuel <= Z.to_nat (4 / 2))%nat ->
     recursive_int fuel example_b6 4 1 [1] 0 = fail OutOfFuel) /\
  (forall mat, exists v, hafnian_int mat = ok v).
Proof.
  apply (recursive_int_terminates 4 0 example_b6 1 [1]).
  - lia.
  - reflexivity.
  - lia.
  - repeat constructor.
  - vm_compute. discriminate.
  - reflexivity.
Defined.

(** C10 as stated fails: for [s = 2] it asks for [(s-1)(s-2)/2 = 0] rows,
    but with [n = 1] the engine reads [b[0][0]] in its second step; on
    the empty array it never returns a value. *)
Lemma recursive_int_rows_counterexample :
  Z.even 2 = true /\
  cdiv ((2 - 1) * (2 - 2)) 2 <= vlen (@nil (list Z)) /\
  Forall (fun r => vlen r = 1 + 1) (@nil (list Z)) /\
  vlen [1; 0] = 1 + 1 /\
  augment_g [] [1; 0] 1 = fail OutOfBounds /\
  (forall fuel, (2 <= fuel)%nat ->
     recursive_int fuel [] 2 1 [1; 0] 1 = fail OutOfBounds) /\
  (forall fuel v, recursive_int fuel [] 2 1 [1; 0] 1 <> ok v).
Proof.
  split; [reflexivity|]. split; [vm_compute; discriminate|].
  split; [constructor|]. split; [reflexivity|]. split; [reflexivity|].
  assert (G : forall fuel, (2 <= fuel)%nat ->
            recursive_int fuel [] 2 1 [1; 0] 1 = fail OutOfBounds).
  { intros [|[|fuel]] Hf; [lia | lia | reflexivity]. }
  split; [exact G|].
  intros [|[|fuel]] v; [discriminate | discriminate |].
  rewrite G by lia. discriminate.
Qed.

(** * Further properties of the code *)

(** ** Splitting the range of subsets into chunks *)

Section ChunkComposition.
Context {T : Type} {OT : ScalarOps T} {ST : Scalar T}.
Variable powtrace : list T -> Z -> Z -> list T.

Add Ring T_ring5 : (@s_ring T _ ST).

(** X1.  In exact arithmetic [do_chunk] is additive in the chunk: the chunk of size
    [C1 + C2] that starts at [X] is the chunk of size [C1] at [X] plus the
    chunk of size [C2] at [X + C1]. *)
Theorem do_chunk_split mat n X C1 C2 :
  0 <= X -> 0 <= C1 -> 0 <= C2 -> X + C1 + C2 < 2 ^ 64 ->
  do_chunk powtrace mat n X (C1 + C2)
  = sadd (do_chunk powtrace mat n X C1)
         (do_chunk powtrace mat n (X + C1) C2).
Proof.
  intros HX H1 H2 Hb.
  rewrite !do_chunk_sum by lia.
  rewrite (sum_range_split X (X + C1) (X + (C1 + C2))) by lia.
  f_equal. f_equal. lia.
Qed.

(** X2.  As it is written, [do_chunk_loops] takes [X] as the number of
    a chunk: its range is [X*chunksize .. (X+1)*chunksize - 1].  In exact
    arithmetic the chunks number [0 .. R-1] of size [c] add up to the
    single chunk number [0] of size [R c]. *)
Theorem do_chunk_loops_ranks mat C D n R c :
  0 <= R -> 0 <= c -> R * c < 2 ^ 64 ->
  sum_range 0 R (fun r => do_chunk_loops powtrace mat C D n r c)
  = do_chunk_loops powtrace mat C D n 0 (R * c).
Proof.
  intros HR Hc Hb.
  rewrite (do_chunk_loops_sum powtrace mat C D n 0 (R * c)) by lia.
  replace (0 * (R * c)) with 0 by lia.
  replace ((0 + 1) * (R * c)) with (R * c) by lia.
  assert (G : forall k, Z.of_nat k * c < 2 ^ 64 ->
            sum_range 0 (Z.of_nat k)
              (fun r => do_chunk_loops powtrace mat C D n r c)
            = sum_range 0 (Z.of_nat k * c)
                (summand_loops powtrace mat C D n)).
  { induction k as [|k IH]; intros Hk.
    - change (Z.of_nat 0) with 0. rewrite !sum_range_nil by lia.
      reflexivity.
    - replace (Z.of_nat (S k)) with (Z.of_nat k + 1) in * by lia.
      rewrite (sum_range_last 0 (Z.of_nat k + 1)) by lia.
      replace (Z.of_nat k + 1 - 1) with (Z.of_nat k) by lia.
      rewrite IH by nia.
      rewrite do_chunk_loops_sum by nia.
      rewrite (sum_range_split 0 (Z.of_nat k * c) ((Z.of_nat k + 1) * c))
        by nia.
      reflexivity. }
  specialize (G (Z.to_nat R)). rewrite Z2Nat.id in G by assumption.
  apply G. assumption.
Qed.
End ChunkComposition.

(** X1 on the zero matrix of order 4: the chunk [1 .. 3] is the chunk
    [1 .. 2] plus the chunk [3 .. 3]. *)
Lemma do_chunk_split_witness :
  do_chunk (powtrace_double diag_eig_double) example_zero4 4 1 (2 + 1)
  = sadd (do_chunk (powtrace_double diag_eig_double) example_zero4 4 1 2)
         (do_chunk (powtrace_double diag_eig_double) example_zero4 4 (1 + 2) 1).
Proof.
  apply (do_chunk_split (powtrace_double diag_eig_double) example_zero4
           4 1 2 1); [lia | lia | lia | reflexivity].
Defined.

(** X2 on the zero matrix of order 4: two chunks of size 2. *)
Lemma do_chunk_loops_ranks_witness :
  sum_range 0 2
    (fun r => do_chunk_loops (powtrace_double diag_eig_double)
                example_zero4 example_CD example_CD 4 r 2)
  = do_chunk_loops (powtrace_double diag_eig_double)
      example_zero4 example_CD example_CD 4 0 (2 * 2).
Proof.
  apply (do_chunk_loops_ranks (powtrace_double diag_eig_double)
           example_zero4 example_CD example_CD 4 2 2);
    [lia | lia | reflexivity].
Defined.

(** ** The summand as a function of the subset index *)

Lemma byte_half m : 0 <= m <= 64 -> to_Byte (cdiv (2 * m) 2) = m.
Proof.
  intros Hm. rewrite cdiv_double. unfold to_Byte. apply Z.mod_small. lia.
Qed.

(** Only the [m] low bits of [x] are decoded. *)
Lemma decode_mod m x :
  0 <= m <= 64 -> decode (2 * m) x = decode (2 * m) (x mod 2 ^ m).
Proof.
  intros Hm. unfold decode. rewrite byte_half by assumption.
  f_equal.
  destruct (dec2bin_spec (vmake m 0) x m) as [H1 H2];
    [lia | apply vlen_vmake; lia |].
  destruct (dec2bin_spec (vmake m 0) (x mod 2 ^ m) m) as [H1' H2'];
    [lia | apply vlen_vmake; lia |].
  apply vec_ext with (d := 0); [lia|].
  intros t Ht. rewrite H2, H2' by lia.
  rewrite Z.mod_pow2_bits_low by lia. reflexivity.
Qed.

Section SummandFacts.
Context {T : Type} {OT : ScalarOps T} {ST : Scalar T}.
Variable powtrace : list T -> Z -> Z -> list T.

Add Ring T_ring6 : (@s_ring T _ ST).

(** X3.  Both workers see only the [m] low bits of the subset index:
    the summand of [x] is the summand of [x mod 2^m]. *)
Theorem summand_periodic mat C D m x :
  0 <= m <= 64 ->
  summand powtrace mat (2 * m) x
  = summand powtrace mat (2 * m) (x mod 2 ^ m) /\
  summand_loops powtrace mat C D (2 * m) x
  = summand_loops powtrace mat C D (2 * m) (x mod 2 ^ m).
Proof.
  intros Hm.
  unfold summand, summand_loops, fold_upto, traces_of, loops_final.
  rewrite (decode_mod m x Hm). split; reflexivity.
Qed.

(** The summand of the plain worker in closed form. *)
Lemma summand_closed mat m x :
  1 <= m <= 64 ->
  summand powtrace mat (2 * m) x
  = with_parity_sign (popcount m x) m
      (gf_product (traces_of powtrace mat (2 * m) x) (Z.to_nat m) m).
Proof.
  intros Hm. unfold summand.
  rewrite (decode_eta (2 * m) x), decode_sum by lia. cbv beta iota.
  pose proof (popcount_nonneg m x) as Hp.
  rewrite (signed_coeff_parity powtrace) by lia. f_equal.
  unfold extracted, fold_upto. cbn zeta.
  rewrite byte_half, cdiv_double by lia.
  destruct (fold_steps_spec m (traces_of powtrace mat (2 * m) x) m
              ltac:(lia) ltac:(lia)) as ((_ & _ & Hrow) & Hcur).
  rewrite Hcur by lia. apply Hrow. lia.
Qed.

(** The whole range of [hafnian] as one sum of plain summands. *)
Lemma hafnian_whole_range mat m :
  1 <= m <= 63 -> order_of mat = 2 * m ->
  hafnian powtrace mat
  = ok (sum_range 0 (2 ^ m) (fun x => summand powtrace mat (2 * m) x)).
Proof.
  intros Hm Hn.
  rewrite even_order_accepted
    by (rewrite Hn; rewrite ?Z.even_mul, ?byte_half by lia;
        (reflexivity || lia)).
  rewrite Hn, byte_half by lia. f_equal.
  assert (Hlt : 2 ^ m < 2 ^ 64) by (apply Z.pow_lt_mono_r; lia).
  rewrite do_chunk_sum by lia. reflexivity.
Qed.

(** X4.  In exact arithmetic, for a matrix of order [2m] with
    [1 <= m <= 63], [hafnian] returns the sum over all [2^m] subset indices [x] of the coefficient
    of [z^m] in the product of [exp(tau_k(x) z^k / (2k))], [k = 1..m],
    with sign [+] when [|S(x)|] has the parity of [m] and [-]
    otherwise. *)
Theorem hafnian_as_sum mat m :
  1 <= m <= 63 -> order_of mat = 2 * m ->
  hafnian powtrace mat
  = ok (sum_range 0 (2 ^ m) (fun x =>
          with_parity_sign (popcount m x) m
            (gf_product (traces_of powtrace mat (2 * m) x)
               (Z.to_nat m) m))).
Proof.
  intros Hm Hn. rewrite (hafnian_whole_range mat m Hm Hn). f_equal.
  apply sum_range_ext. intros x Hx. apply summand_closed. lia.
Qed.
End SummandFacts.

(** X3 at [m = 1]: the index [3] is decoded as the index [1]. *)
Lemma summand_periodic_witness :
  summand (powtrace_double diag_eig_double) example_swap2 (2 * 1) 3
  = summand (powtrace_double diag_eig_double) example_swap2 (2 * 1)
      (3 mod 2 ^ 1) /\
  summand_loops (powtrace_double diag_eig_double) example_swap2
    example_CD example_CD (2 * 1) 3
  = summand_loops (powtrace_double diag_eig_double) example_swap2
      example_CD example_CD (2 * 1) (3 mod 2 ^ 1).
Proof.
  apply (summand_periodic (powtrace_double diag_eig_double) example_swap2
           example_CD example_CD 1 3). lia.
Defined.

(** X4 on the 2 by 2 matrix [[0, 1], [1, 0]]. *)
Lemma hafnian_as_sum_witness :
  hafnian (powtrace_double diag_eig_double) example_swap2
  = ok (sum_range 0 (2 ^ 1) (fun x =>
          with_parity_sign (popcount 1 x) 1
            (gf_product
               (traces_of (powtrace_double diag_eig_double) example_swap2
                  (2 * 1) x)
               (Z.to_nat 1) 1))).
Proof.
  apply (hafnian_as_sum (powtrace_double diag_eig_double) example_swap2 1);
    [lia | reflexivity].
Defined.

(** ** The empty subset and the smallest matrices *)

Section ZeroTraces.
Context {T : Type} {OT : ScalarOps T} {ST : Scalar T}.

Add Ring T_ring7 : (@s_ring T _ ST).

Lemma sdivZ_0 z : z <> 0 -> sdivZ s0 z = s0 :> T.
Proof.
  intros Hz. apply (sofZ_cancel z); [assumption|].
  rewrite sdivZ_spec by assumption. ring.
Qed.

Lemma exp_coeff_zero j : 1 <= j -> exp_coeff (s0 : T) j = s0.
Proof.
  intros Hj. unfold exp_coeff.
  replace (Z.to_nat j) with (S (Z.to_nat (j - 1))) by lia.
  cbn [spow].
  replace (smul s0 (spow s0 (Z.to_nat (j - 1)))) with (s0 : T) by ring.
  apply sdivZ_0. apply fact_nonzero.
Qed.

(** With zero traces every factor is [exp(0) = 1] and the product is the
    series [1]. *)
Lemma gf_product_zero (tau : list T) i d :
  (forall k, vget s0 tau k = s0) -> 0 <= d ->
  gf_product tau i d = ps_one d.
Proof.
  intros Htau Hd. revert d Hd. induction i as [|i IH]; intros d Hd.
  - reflexivity.
  - cbn [gf_product]. rewrite Htau, sdivZ_0 by lia.
    rewrite (ps_mul_exp_mono _ s0 (Z.of_nat i + 1) d d) by lia.
    rewrite IH by assumption.
    rewrite sum_range_zero; [ring|].
    intros j Hj. rewrite exp_coeff_zero by lia.
    destruct (_ <=? _); ring.
Qed.

Lemma with_parity_sign_zero a b : with_parity_sign a b (s0 : T) = s0.
Proof. unfold with_parity_sign. destruct (_ =? _); ring. Qed.
End ZeroTraces.

Lemma popcount_0 m : popcount m 0 = 0.
Proof.
  unfold popcount. induction (zrange 0 m) as [|a l IH]; [reflexivity|].
  cbn [filter]. rewrite Z.testbit_0_l. exact IH.
Qed.

Section EmptySubset.
Context {K : Type} {OK : ScalarOps K} {SK : Scalar K}.

(** On the empty matrix the solver is not called and the traces are
    zero. *)
Lemma powtrace_loops_empty {A} (store : cplx K -> A) (a0 : A) vals l :
  0 <= l -> store c0 = a0 ->
  powtrace_loops store a0 vals 0 l = vmake l a0.
Proof.
  intros Hl Hstore.
  destruct (powtrace_loops_spec store a0 vals 0 l (Z.le_refl 0) Hl)
    as [H1 H2].
  apply vec_ext with (d := a0).
  - rewrite vlen_vmake by assumption. assumption.
  - intros i Hi. rewrite H1 in Hi.
    replace i with (i + 1 - 1) by lia. rewrite H2 by lia.
    rewrite vget_vmake by lia. unfold power_sum.
    rewrite (sum_range_nil (T := cplx K) 0 0 _ (Z.le_refl 0)).
    exact Hstore.
Qed.

Lemma decode_empty_subset m :
  0 <= m <= 64 -> snd (decode (2 * m) 0) = 0.
Proof. intros Hm. rewrite decode_sum, popcount_0 by assumption. reflexivity. Qed.

Lemma build_B_empty {T} {OT : ScalarOps T} (mat : list T) n pos :
  build_B mat n pos 0 = [].
Proof. reflexivity. Qed.

Lemma traces_empty_double (eig : list K -> Z -> list (cplx K)) mat m :
  0 <= m <= 64 ->
  traces_of (powtrace_double eig) mat (2 * m) 0 = vmake m s0.
Proof.
  intros Hm. pose proof (decode_empty_subset m Hm) as Hs.
  unfold traces_of. rewrite byte_half by lia.
  destruct (decode (2 * m) 0) as [pos sum]. cbn [snd] in Hs. subst sum.
  rewrite build_B_empty. unfold powtrace_double. cbn zeta.
  change (negb (0 =? 0)) with false. cbn iota.
  apply powtrace_loops_empty; [lia|reflexivity].
Qed.

Lemma traces_empty_complex (eig : list (cplx K) -> Z -> list (cplx K))
    mat m :
  0 <= m <= 64 ->
  traces_of (powtrace_complex eig) mat (2 * m) 0 = vmake m c0.
Proof.
  intros Hm. pose proof (decode_empty_subset m Hm) as Hs.
  unfold traces_of. rewrite byte_half by lia.
  destruct (decode (2 * m) 0) as [pos sum]. cbn [snd] in Hs. subst sum.
  rewrite build_B_empty. unfold powtrace_complex. cbn zeta.
  change (negb (0 =? 0)) with false. cbn iota.
  apply powtrace_loops_empty; [lia|reflexivity].
Qed.

(** X5.  For the empty subset [x = 0] of a matrix of order [2m],
    [1 <= m <= 64], the reduced matrix is empty, the solver is not called,
    the traces are zero and the summand of [do_chunk] is zero, for both
    element types. *)
Theorem empty_subset_summand
    (eig_r : list K -> Z -> list (cplx K))
    (eig_c : list (cplx K) -> Z -> list (cplx K))
    (mat : list K) (matc : list (cplx K)) m :
  1 <= m <= 64 ->
  traces_of (powtrace_double eig_r) mat (2 * m) 0 = vmake m s0 /\
  summand (powtrace_double eig_r) mat (2 * m) 0 = s0 /\
  traces_of (powtrace_complex eig_c) matc (2 * m) 0 = vmake m c0 /\
  summand (powtrace_complex eig_c) matc (2 * m) 0 = c0.
Proof.
  intros Hm.
  pose proof (traces_empty_double eig_r mat m ltac:(lia)) as Hr.
  pose proof (traces_empty_complex eig_c matc m ltac:(lia)) as Hc.
  split; [exact Hr|]. split; [|split; [exact Hc|]].
  - rewrite summand_closed by assumption. rewrite Hr.
    rewrite gf_product_zero
      by (try lia; intros k; apply vget_vmake_default).
    unfold ps_one. destruct (Z.eqb_spec m 0) as [E|_]; [lia|].
    apply with_parity_sign_zero.
  - rewrite summand_closed by assumption. rewrite Hc.
    rewrite gf_product_zero
      by (try lia; intros k; apply (vget_vmake_default (c0 : cplx K))).
    unfold ps_one. destruct (Z.eqb_spec m 0) as [E|_]; [lia|].
    exact (with_parity_sign_zero (T := cplx K) _ _).
Qed.

Add Ring K_ring8 : (@s_ring K _ SK).

(** The first factor of the product at degree 1. *)
Lemma gf_product_1 (tau : list K) :
  gf_product tau 1 1 = sdivZ (vget s0 tau 0) 2.
Proof.
  cbn [gf_product]. change (Z.of_nat 0) with 0. change (0 + 1) with 1.
  change (2 * 1) with 2.
  rewrite (ps_mul_exp_mono _ _ 1 1 1) by lia.
  change (1 / 1 + 1) with (1 + 1).
  rewrite (sum_range_first 1 (1 + 1)) by lia.
  rewrite sum_range_nil by lia.
  change (1 * 1 <=? 1) with true. cbn iota.
  change (1 - 1 * 1) with 0. unfold ps_one.
  change (1 =? 0) with false. change (0 =? 0) with true. cbn iota.
  unfold exp_coeff. change (Z.to_nat 1) with 1%nat. cbn [spow fact].
  change (Z.of_nat (1 * 1)) with 1. rewrite sdivZ_1. ring.
Qed.

(** X6.  In exact arithmetic, for a 2 by 2 real matrix [[a, b], [c, d]]
    and a solver whose eigenvalues of the reduced matrix [[b, a], [d, c]]
    add up to its trace [b + c], [hafnian] returns [(b + c) / 2]: the
    entry [b] when the matrix is symmetric. *)
Theorem hafnian_2x2 (eig : list K -> Z -> list (cplx K)) (a b c d : K) :
  re (power_sum (eig [b; a; d; c] 2) 2 1) = sadd b c ->
  hafnian (powtrace_double eig) [a; b; c; d] = ok (sdivZ (sadd b c) 2) /\
  (b = c -> hafnian (powtrace_double eig) [a; b; c; d] = ok b).
Proof.
  intros Htr.
  assert (H : hafnian (powtrace_double eig) [a; b; c; d]
              = ok (sdivZ (sadd b c) 2)).
  { rewrite (hafnian_whole_range (powtrace_double eig) [a; b; c; d] 1)
      by (try lia; reflexivity).
    f_equal. change (2 ^ 1) with 2.
    rewrite (sum_range_first 0 2) by lia.
    rewrite (sum_range_first (0 + 1) 2) by lia.
    rewrite sum_range_nil by lia.
    rewrite !(summand_closed (powtrace_double eig) [a; b; c; d] 1) by lia.
    rewrite (traces_empty_double eig [a; b; c; d] 1) by lia.
    rewrite gf_product_zero
      by (try lia; intros k; apply vget_vmake_default).
    change (ps_one 1) with (s0 : K). rewrite with_parity_sign_zero.
    change (0 + 1) with 1. change (Z.to_nat 1) with 1%nat.
    rewrite gf_product_1.
    assert (Htau : vget s0
                     (traces_of (powtrace_double eig) [a; b; c; d] (2 * 1) 1)
                     0 = sadd b c).
    { unfold traces_of.
      change (decode (2 * 1) 1) with ([0; 1], 2). cbv beta iota zeta.
      change (build_B [a; b; c; d] (2 * 1) [0; 1] 2) with [b; a; d; c].
      change (to_Byte (cdiv (2 * 1) 2)) with 1.
      unfold powtrace_double. cbn zeta.
      change (negb (2 =? 0)) with true. cbn iota.
      destruct (powtrace_loops_spec (fun s : cplx K => re s) s0
                  (eig [b; a; d; c] 2) 2 1 ltac:(lia) ltac:(lia))
        as [_ H2].
      specialize (H2 1 ltac:(lia)). change (1 - 1) with 0 in H2.
      rewrite H2. exact Htr. }
    rewrite Htau.
    change (with_parity_sign (popcount 1 1) 1 (sdivZ (sadd b c) 2))
      with (sdivZ (sadd b c) 2).
    ring. }
  split; [exact H|]. intros ->. rewrite H. f_equal.
  apply (sofZ_cancel 2); [lia|]. rewrite sdivZ_spec by lia.
  replace 2 with (1 + 1) by lia. rewrite sofZ_add, sofZ_1. ring.
Qed.
End EmptySubset.

(** X5 at [m = 1]. *)
Lemma empty_subset_summand_witness :
  traces_of (powtrace_double diag_eig_double) example_swap2 (2 * 1) 0
  = vmake 1 s0 /\
  summand (powtrace_double diag_eig_double) example_swap2 (2 * 1) 0 = s0 /\
  traces_of (powtrace_complex diag_eig_complex) example_zc (2 * 1) 0
  = vmake 1 c0 /\
  summand (powtrace_complex diag_eig_complex) example_zc (2 * 1) 0 = c0.
Proof.
  apply (empty_subset_summand diag_eig_double diag_eig_complex
           example_swap2 example_zc 1). lia.
Defined.

(** X6 on the matrix [[0, 1], [1, 0]]: the reduced matrix is the
    identity, whose diagonal is its spectrum. *)
Lemma hafnian_2x2_witness :
  hafnian (powtrace_double diag_eig_double) [q 0; q 1; q 1; q 0]
  = ok (sdivZ (sadd (q 1) (q 1)) 2) /\
  (q 1 = q 1 ->
   hafnian (powtrace_double diag_eig_double) [q 0; q 1; q 1; q 0]
   = ok (q 1)).
Proof.
  apply (hafnian_2x2 diag_eig_double (q 0) (q 1) (q 1) (q 0)).
  apply Qc_is_canon. vm_compute. reflexivity.
Defined.

(** X7.  On the empty matrix [hafnian] and [loop_hafnian] return [0],
    whatever [powtrace] is: no iteration of the fold runs and the row
    [comb[1 - cntindex] = comb[1]] that is read was never written.
    [hafnian_int] returns [1] on the empty matrix. *)
Theorem empty_matrix {T : Type} {OT : ScalarOps T} {ST : Scalar T}
    (powtrace : list T -> Z -> Z -> list T) :
  hafnian powtrace [] = ok s0 /\
  loop_hafnian powtrace [] = ok s0 /\
  hafnian_int [] = ok 1.
Proof.
  assert (E : sadd s0 s0 = s0 :> T).
  { pose proof (@s_ring T _ ST) as R. rewrite (Radd_0_l R). reflexivity. }
  split; [|split]; [| |reflexivity].
  - change (hafnian powtrace []) with (ok (sadd (s0 : T) s0)).
    rewrite E. reflexivity.
  - change (loop_hafnian powtrace []) with (ok (sadd (s0 : T) s0)).
    rewrite E. reflexivity.
Qed.

(** X7 over the rationals, with the diagonal backend. *)
Lemma empty_matrix_witness :
  hafnian (powtrace_double diag_eig_double) ([] : list Qc) = ok s0 /\
  loop_hafnian (powtrace_double diag_eig_double) ([] : list Qc) = ok s0 /\
  hafnian_int [] = ok 1.
Proof.
  apply (empty_matrix (T := Qc) (powtrace_double diag_eig_double)).
Defined.

(** ** The reduced matrix *)

Lemma lxor_sibling k :
  0 <= k -> Z.lxor (2 * k) 1 = 2 * k + 1 /\ Z.lxor (2 * k + 1) 1 = 2 * k.
Proof.
  intros Hk. destruct k as [|p|p]; [split; reflexivity | | lia].
  split; reflexivity.
Qed.

Lemma popcount_le m x : 0 <= m -> popcount m x <= m.
Proof.
  intros Hm. unfold popcount.
  pose proof (filter_length_le (Z.testbit x) (zrange 0 m)) as H.
  pose proof (length_zrange 0 m Hm) as Hz. unfold vlen in *. lia.
Qed.

(** The entries of [pos] that the worker reads are row indices of the
    matrix, and so are their siblings. *)
Lemma decode_entries m x i :
  0 <= m <= 64 -> 0 <= i < snd (decode (2 * m) x) ->
  0 <= vget 0 (fst (decode (2 * m) x)) i < 2 * m /\
  0 <= Z.lxor (vget 0 (fst (decode (2 * m) x)) i) 1 < 2 * m.
Proof.
  intros Hm Hi.
  pose proof (pos_list_closed m x Hm) as Hc.
  pose proof (decode_sum m x Hm) as Hs.
  unfold pos_list in Hc. rewrite (decode_eta (2 * m) x) in Hc.
  cbv beta iota in Hc.
  set (pos := fst (decode (2 * m) x)) in *.
  set (sum := snd (decode (2 * m) x)) in *.
  set (P := pairs_of (fun i => Z.testbit x (m - 1 - i)) 0 m) in *.
  assert (Hl : vlen P = sum).
  { unfold P. rewrite vlen_pairs_of, flagged_count by lia. lia. }
  assert (Hin : In (vget 0 pos i) P).
  { rewrite <- (vget_firstn 0 pos (Z.to_nat sum) i) by lia.
    rewrite Hc. apply vget_in. lia. }
  apply in_pairs_of in Hin. destruct Hin as (k & Hk & _ & [E|E]);
    rewrite E; destruct (lxor_sibling k ltac:(lia)) as [L1 L2];
    rewrite ?L1, ?L2; lia.
Qed.

Section ReducedMatrix.
Context {T : Type} {OT : ScalarOps T} {ST : Scalar T}.

(** The loops that fill [B]. *)
Lemma build_B_spec (mat : list T) n pos sum :
  0 <= sum ->
  vlen (build_B mat n pos sum) = sum * sum /\
  forall i j, 0 <= i < sum -> 0 <= j < sum ->
    vget s0 (build_B mat n pos sum) (i * sum + j)
    = vget s0 mat (vget 0 pos i * n + Z.lxor (vget 0 pos j) 1).
Proof.
  intros Hs. unfold build_B.
  set (val := fun i j =>
         vget s0 mat (vget 0 pos i * n + Z.lxor (vget 0 pos j) 1)).
  apply (for_range_post (fun i B =>
    vlen B = sum * sum /\
    forall i' j', 0 <= i' < i -> 0 <= j' < sum ->
      vget s0 B (i' * sum + j') = val i' j')).
  - lia.
  - split; [apply vlen_vmake; nia|]. intros i' j' Hi'. lia.
  - intros i B Hi (Hl & Hg).
    apply (for_range_post (fun j B' =>
      vlen B' = sum * sum /\
      forall i' j', 0 <= i' -> 0 <= j' < sum ->
        i' < i \/ (i' = i /\ j' < j) ->
        vget s0 B' (i' * sum + j') = val i' j')).
    + lia.
    + split; [assumption|]. intros i' j' Hi' Hj' [H|H]; [|lia].
      apply Hg; lia.
    + intros j B' Hj (Hl' & Hg'). split; [rewrite vlen_vset; assumption|].
      intros i' j' Hi' Hj' Hcase.
      rewrite vget_vset by nia.
      destruct (Z.eqb_spec (i * sum + j) (i' * sum + j')) as [E|N].
      * assert (i' = i /\ j' = j) as [-> ->] by nia. reflexivity.
      * apply Hg'; lia.
    + intros B' (Hl' & Hg'). split; [assumption|].
      intros i' j' Hi' Hj'. apply Hg'; lia.
  - intros B (Hl & Hg). split; [assumption|]. exact Hg.
Qed.

(** X8.  For a matrix of order [2m] stored in [(2m)^2] entries, the
    reduced matrix of the subset [x] has side [sum = 2 |S(x)| <= 2m]; its
    entry [(i, j)] is [mat[pos[i] * n + (pos[j] ^ 1)]], and every such
    index lies inside the matrix. *)
Theorem reduced_matrix_reads (mat : list T) m x :
  0 <= m <= 64 -> vlen mat = (2 * m) * (2 * m) ->
  let pos := fst (decode (2 * m) x) in
  let sum := snd (decode (2 * m) x) in
  let B := build_B mat (2 * m) pos sum in
  sum = 2 * popcount m x /\ sum <= 2 * m /\
  vlen B = sum * sum /\
  forall i j, 0 <= i < sum -> 0 <= j < sum ->
    0 <= vget 0 pos i * (2 * m) + Z.lxor (vget 0 pos j) 1 < vlen mat /\
    vget s0 B (i * sum + j)
    = vget s0 mat (vget 0 pos i * (2 * m) + Z.lxor (vget 0 pos j) 1).
Proof.
  intros Hm Hmat. cbn zeta.
  pose proof (decode_sum m x Hm) as Hs.
  pose proof (popcount_le m x ltac:(lia)) as Hle.
  pose proof (popcount_nonneg m x) as Hp.
  destruct (build_B_spec mat (2 * m) (fst (decode (2 * m) x))
              (snd (decode (2 * m) x)) ltac:(lia)) as [Hl Hg].
  split; [exact Hs|]. split; [lia|]. split; [exact Hl|].
  intros i j Hi Hj. split; [|apply Hg; assumption].
  destruct (decode_entries m x i Hm Hi) as [Hpi _].
  destruct (decode_entries m x j Hm Hj) as [_ Hpj].
  rewrite Hmat. nia.
Qed.
End ReducedMatrix.

(** X8 on the zero matrix of order 4 and the subset [x = 3]. *)
Lemma reduced_matrix_reads_witness :
  let pos := fst (decode (2 * 2) 3) in
  let sum := snd (decode (2 * 2) 3) in
  let B := build_B example_zero4 (2 * 2) pos sum in
  sum = 2 * popcount 2 3 /\ sum <= 2 * 2 /\
  vlen B = sum * sum /\
  forall i j, 0 <= i < sum -> 0 <= j < sum ->
    0 <= vget 0 pos i * (2 * 2) + Z.lxor (vget 0 pos j) 1
      < vlen example_zero4 /\
    vget s0 B (i * sum + j)
    = vget s0 example_zero4
        (vget 0 pos i * (2 * 2) + Z.lxor (vget 0 pos j) 1).
Proof.
  apply (reduced_matrix_reads example_zero4 2 3); [lia | reflexivity].
Defined.

(** ** The diagonal vectors of [loop_hafnian] *)

Section LoopVectors.
Context {T : Type} {OT : ScalarOps T} {ST : Scalar T}.

(** [for (int i = 0; i < n; i++) D[i] = mat[i * n + i];] on
    [D(n, 0.0)]. *)
Definition diagonal_vector (mat : list T) (n : Z) : list T :=
  for_range 0 n (fun i D => vset D i (vget s0 mat (i * n + i)))
    (vmake n s0).

(** [for (int i = 0; i < n; i += 2) { C[i] = D[i + 1]; C[i + 1] = D[i]; }]
    on [C(n, 0.0)], with [i = 2 * h]. *)
Definition sibling_swap (D : list T) (n : Z) : list T :=
  for_range 0 (cdiv (n + 1) 2) (fun h C =>
    let i := 2 * h in
    let C := vset C i (vget s0 D (i + 1)) in
    vset C (i + 1) (vget s0 D i)) (vmake n s0).

Lemma diagonal_vector_spec (mat : list T) n :
  0 <= n ->
  vlen (diagonal_vector mat n) = n /\
  forall i, 0 <= i < n ->
    vget s0 (diagonal_vector mat n) i = vget s0 mat (i * n + i).
Proof.
  intros Hn. unfold diagonal_vector.
  destruct (for_range_pointwise s0 (fun i _ => vget s0 mat (i * n + i)) n
              (vmake n s0)) as [Hl Hg]; [rewrite vlen_vmake; lia|].
  cbn beta in Hl, Hg. rewrite vlen_vmake in Hl, Hg by lia.
  split; [exact Hl|]. intros i Hi. rewrite Hg by lia.
  destruct (i <? n) eqn:E; [reflexivity|lia].
Qed.

Lemma sibling_swap_spec (D : list T) h :
  0 <= h ->
  vlen (sibling_swap D (2 * h)) = 2 * h /\
  forall i, 0 <= i < 2 * h ->
    vget s0 (sibling_swap D (2 * h)) i = vget s0 D (Z.lxor i 1).
Proof.
  intros Hh. unfold sibling_swap.
  assert (Eh : cdiv (2 * h + 1) 2 = h) by (unfold cdiv; lia).
  rewrite Eh.
  apply (for_range_post (fun k C =>
    vlen C = 2 * h /\
    forall i, 0 <= i < 2 * k -> vget s0 C i = vget s0 D (Z.lxor i 1))).
  - lia.
  - split; [apply vlen_vmake; lia|]. intros i Hi. lia.
  - intros k C Hk (Hl & Hg). cbn zeta.
    split; [rewrite !vlen_vset; assumption|].
    intros i Hi. destruct (lxor_sibling k ltac:(lia)) as [L1 L2].
    rewrite vget_vset by (rewrite vlen_vset; lia).
    destruct (Z.eqb_spec (2 * k + 1) i) as [<-|N1].
    { rewrite L2. reflexivity. }
    rewrite vget_vset by lia.
    destruct (Z.eqb_spec (2 * k) i) as [<-|N2].
    { rewrite L1. reflexivity. }
    apply Hg. lia.
  - intros C (Hl & Hg). split; assumption.
Qed.

Variable powtrace : list T -> Z -> Z -> list T.

Lemma loop_hafnian_unfold (mat : list T) :
  Z.even (order_of mat) = true ->
  to_Byte (cdiv (order_of mat) 2) < 64 ->
  loop_hafnian powtrace mat
  = ok (do_chunk_loops powtrace mat
          (sibling_swap (diagonal_vector mat (order_of mat)) (order_of mat))
          (diagonal_vector mat (order_of mat)) (order_of mat) 0
          (2 ^ to_Byte (cdiv (order_of mat) 2))).
Proof.
  intros Hev Hm. unfold loop_hafnian.
  assert (E : (cmod (order_of mat) 2 =? 0) = true).
  { apply Z.eqb_eq. unfold cmod. apply Z.rem_divide; [lia|].
    apply Z.even_spec in Hev. destruct Hev as [k Hk].
    exists k. lia. }
  cbn zeta. rewrite E.
  rewrite pow2_small by (unfold to_Byte in *; lia).
  reflexivity.
Qed.

(** X9.  For a matrix of even order [n = 2h] with [h <= 63] (order at
    most 126, where the number [2^h] of subsets fits an
    [unsigned long long]), [loop_hafnian] runs the loop-mode worker on
    rank 0 with chunk size [2^h], with [D] the diagonal of the matrix,
    [D[i] = mat[i*n+i]], and [C] the diagonal with the two entries of
    every sibling pair exchanged, [C[i] = D[i ^ 1]]. *)
Theorem loop_hafnian_vectors (mat : list T) h :
  0 <= h <= 63 -> order_of mat = 2 * h ->
  let n := 2 * h in
  let D := diagonal_vector mat n in
  let C := sibling_swap D n in
  vlen D = n /\ vlen C = n /\
  (forall i, 0 <= i < n ->
     vget s0 D i = vget s0 mat (i * n + i) /\
     vget s0 C i = vget s0 mat (Z.lxor i 1 * n + Z.lxor i 1)) /\
  loop_hafnian powtrace mat
  = ok (do_chunk_loops powtrace mat C D n 0 (2 ^ h)).
Proof.
  intros Hh Hn. cbn zeta.
  destruct (diagonal_vector_spec mat (2 * h) ltac:(lia)) as [HDl HDg].
  destruct (sibling_swap_spec (diagonal_vector mat (2 * h)) h ltac:(lia))
    as [HCl HCg].
  split; [exact HDl|]. split; [exact HCl|]. split.
  - intros i Hi. split; [apply HDg; assumption|].
    rewrite HCg by assumption. apply HDg.
    assert (Hc : i = 2 * (i / 2) \/ i = 2 * (i / 2) + 1) by lia.
    destruct (lxor_sibling (i / 2) ltac:(lia)) as [L1 L2].
    destruct Hc as [E|E]; rewrite E; rewrite ?L1, ?L2; lia.
  - rewrite loop_hafnian_unfold
      by (rewrite Hn; rewrite ?Z.even_mul, ?byte_half by lia;
          (reflexivity || lia)).
    rewrite Hn, byte_half by lia. reflexivity.
Qed.
End LoopVectors.

(** X9 on the zero matrix of order 4. *)
Lemma loop_hafnian_vectors_witness :
  let n := 2 * 2 in
  let D := diagonal_vector example_zero4 n in
  let C := sibling_swap D n in
  vlen D = n /\ vlen C = n /\
  (forall i, 0 <= i < n ->
     vget s0 D i = vget s0 example_zero4 (i * n + i) /\
     vget s0 C i = vget s0 example_zero4 (Z.lxor i 1 * n + Z.lxor i 1)) /\
  loop_hafnian (powtrace_double diag_eig_double) example_zero4
  = ok (do_chunk_loops (powtrace_double diag_eig_double) example_zero4
          C D n 0 (2 ^ 2)).
Proof.
  apply (loop_hafnian_vectors (powtrace_double diag_eig_double)
           example_zero4 2); [lia | reflexivity].
Defined.

(** ** The integer hafnian of small matrices *)

Lemma wrap64_small z : - 2 ^ 63 <= z < 2 ^ 63 -> wrap64 z = z.
Proof. intros H. unfold wrap64. rewrite Z.mod_small by lia. lia. Qed.

(** X10.  For a 2 by 2 integer matrix [[a, b], [c, d]] of 64-bit
    entries, [hafnian_int] returns [c], the entry below the diagonal. *)
Theorem hafnian_int_2x2 a b c d :
  - 2 ^ 63 <= c < 2 ^ 63 -> hafnian_int [a; b; c; d] = ok c.
Proof.
  intros Hc.
  change (hafnian_int [a; b; c; d])
    with (ok (ll_add (ll_mul (- (1)) 0)
                (ll_mul 1 (ll_add 0 (ll_mul 1 c)))) : result Z).
  f_equal. unfold ll_add, ll_mul.
  change (- (1) * 0) with 0. change (wrap64 0) with 0.
  rewrite !Z.mul_1_l, !Z.add_0_l.
  rewrite !(wrap64_small c Hc). reflexivity.
Qed.

Lemma hafnian_int_2x2_witness : hafnian_int [5; 6; 7; 8] = ok 7.
Proof. apply (hafnian_int_2x2 5 6 7 8). lia. Defined.

Lemma in_lower_pairs t j k :
  In (j, k) (lower_pairs t) <-> 1 <= j < t /\ 0 <= k < j.
Proof.
  unfold lower_pairs. rewrite in_flat_map. split.
  - intros (j' & Hj' & Hin). apply in_map_iff in Hin.
    destruct Hin as (k' & E & Hk'). injection E as <- <-.
    apply in_zrange in Hj'. apply in_zrange in Hk'. lia.
  - intros [Hj Hk]. exists j. split; [apply in_zrange; lia|].
    apply in_map_iff. exists k. split; [reflexivity|].
    apply in_zrange. lia.
Qed.

(** X11.  For a matrix of even order [2n], stored row by row in
    [(2n)^2] entries, the result of [hafnian_int] depends on the entries
    strictly below the diagonal only: two such matrices that agree on the
    entries [(j, k)] with [k < j], stored at [j*(2n) + k], have the same
    integer hafnian. *)
Theorem hafnian_int_lower_triangle mat mat' n :
  0 <= n ->
  vlen mat = (2 * n) * (2 * n) -> vlen mat' = (2 * n) * (2 * n) ->
  (forall j k, 0 <= k < j -> j < 2 * n ->
     vget 0 mat (j * (2 * n) + k) = vget 0 mat' (j * (2 * n) + k)) ->
  hafnian_int mat = hafnian_int mat'.
Proof.
  intros Hn Hl Hl' Hag.
  assert (Hh : forall v : list Z,
            vlen v = (2 * n) * (2 * n) -> half_order v = n).
  { intros v Hv. unfold half_order. rewrite Hv.
    rewrite Z.sqrt_square by lia.
    rewrite Z.mul_comm, Z.div_mul by lia. reflexivity. }
  rewrite !hafnian_int_unfold. rewrite (Hh mat Hl), (Hh mat' Hl').
  f_equal.
  apply map_ext_in. intros [j k] Hin. apply in_lower_pairs in Hin.
  unfold seed_row. cbn [fst snd]. f_equal.
  replace (2 * j * n + k) with (j * (2 * n) + k) by lia.
  apply Hag; lia.
Qed.

(** X11 on two 2 by 2 matrices with the same entry below the diagonal. *)
Lemma hafnian_int_lower_triangle_witness :
  hafnian_int [1; 2; 7; 4] = hafnian_int [5; 6; 7; 8].
Proof.
  apply (hafnian_int_lower_triangle [1; 2; 7; 4] [5; 6; 7; 8] 1);
    [lia | reflexivity | reflexivity |].
  intros j k Hk Hj.
  assert (j = 1 /\ k = 0) as [-> ->] by lia. reflexivity.
Defined.

(** ** The order of the eigenvalues *)

Section EigenvalueOrder.
Context {K : Type} {OK : ScalarOps K} {SK : Scalar K}.

Add Ring C_ring9 : (@s_ring (cplx K) _ cplx_Scalar).

(** The sum of a list of complex numbers. *)
Definition csum (l : list (cplx K)) : cplx K := fold_right cadd c0 l.

Lemma sum_range_shift lo hi (f : Z -> cplx K) :
  sum_range (lo + 1) (hi + 1) f = sum_range lo hi (fun j => f (j + 1)).
Proof.
  unfold sum_range.
  replace (Z.to_nat (hi + 1 - (lo + 1))) with (Z.to_nat (hi - lo)) by lia.
  generalize (Z.to_nat (hi - lo)) as c. intros c. revert lo.
  induction c as [|c IH]; intros lo; [reflexivity|].
  cbn [sum_from]. rewrite IH. reflexivity.
Qed.

(** A sum over the indices of a vector is the sum of its entries. *)
Lemma sum_range_entries (f : cplx K -> cplx K) (l : list (cplx K)) :
  sum_range 0 (vlen l) (fun j => f (vget c0 l j)) = csum (map f l).
Proof.
  induction l as [|a l IH]; [reflexivity|].
  replace (vlen (a :: l)) with (vlen l + 1)
    by (unfold vlen; cbn [length]; lia).
  pose proof (vlen_nonneg l) as Hl.
  rewrite sum_range_first by lia. rewrite sum_range_shift.
  cbn [map csum fold_right]. change (vget c0 (a :: l) 0) with a.
  fold (csum (map f l)). rewrite <- IH.
  change (cadd ?x ?y) with (sadd x y). f_equal.
  apply sum_range_ext. intros j Hj.
  rewrite vget_cons by lia. do 2 f_equal. lia.
Qed.

Lemma csum_perm (l l' : list (cplx K)) :
  Permutation l l' -> csum l = csum l'.
Proof.
  induction 1 as [|a l l' _ IH|a b l|l l' l'' _ IH1 _ IH2];
    cbn [csum fold_right] in *.
  - reflexivity.
  - fold (csum l) (csum l'). rewrite IH. reflexivity.
  - fold (csum l).
    change (@sadd (cplx K) cplx_ops b (@sadd (cplx K) cplx_ops a (csum l))
            = @sadd (cplx K) cplx_ops a
                (@sadd (cplx K) cplx_ops b (csum l))).
    ring.
  - congruence.
Qed.

Lemma power_sum_perm (vals vals' : list (cplx K)) k :
  Permutation vals vals' ->
  power_sum vals (vlen vals) k = power_sum vals' (vlen vals') k.
Proof.
  intros Hp. unfold power_sum.
  rewrite (sum_range_entries (fun v => spow v (Z.to_nat k)) vals).
  rewrite (sum_range_entries (fun v => spow v (Z.to_nat k)) vals').
  apply csum_perm. apply Permutation_map. assumption.
Qed.

(** X12.  In exact arithmetic the power traces do not depend on the
    order in which the solver returns the eigenvalues: two solvers that return, for the
    [n] by [n] matrix [z], the same [n] values in different orders give
    the same result, for both overloads of [powtrace]. *)
Theorem powtrace_order_independent
    (eig_c eig_c' : list (cplx K) -> Z -> list (cplx K))
    (eig_r eig_r' : list K -> Z -> list (cplx K))
    (zc : list (cplx K)) (zr : list K) (n l : Z) :
  0 <= n -> 0 <= l ->
  vlen (eig_c zc n) = n -> Permutation (eig_c zc n) (eig_c' zc n) ->
  vlen (eig_r zr n) = n -> Permutation (eig_r zr n) (eig_r' zr n) ->
  powtrace_complex eig_c zc n l = powtrace_complex eig_c' zc n l /\
  powtrace_double eig_r zr n l = powtrace_double eig_r' zr n l.
Proof.
  intros Hn Hl Hc Hpc Hr Hpr.
  assert (G : forall {A} (store : cplx K -> A) (a0 : A) vals vals',
            vlen vals = n -> Permutation vals vals' ->
            powtrace_loops store a0 vals n l
            = powtrace_loops store a0 vals' n l).
  { intros A store a0 vals vals' Hv Hp.
    assert (Hv' : vlen vals' = n).
    { unfold vlen in *. rewrite <- (Permutation_length Hp). assumption. }
    destruct (powtrace_loops_spec store a0 vals n l Hn Hl) as [H1 H2].
    destruct (powtrace_loops_spec store a0 vals' n l Hn Hl) as [H1' H2'].
    apply vec_ext with (d := a0); [lia|].
    intros i Hi. replace i with (i + 1 - 1) by lia.
    rewrite H2, H2' by lia. f_equal.
    pose proof (power_sum_perm vals vals' (i + 1) Hp) as E.
    rewrite Hv, Hv' in E. exact E. }
  unfold powtrace_complex, powtrace_double. cbn zeta.
  destruct (n =? 0); cbn [negb]; [split; reflexivity|].
  split; apply G; assumption.
Qed.
End EigenvalueOrder.

(** A solver that returns the diagonal from the last entry to the
    first. *)
Definition rev_eig_complex (z : list (cplx Qc)) (n : Z) : list (cplx Qc) :=
  rev (diag_eig_complex z n).
Definition rev_eig_double (z : list Qc) (n : Z) : list (cplx Qc) :=
  rev (diag_eig_double z n).

(** X12 on the two triangular example matrices. *)
Lemma powtrace_order_independent_witness :
  powtrace_complex diag_eig_complex example_zc 2 3
  = powtrace_complex rev_eig_complex example_zc 2 3 /\
  powtrace_double diag_eig_double example_zr 2 3
  = powtrace_double rev_eig_double example_zr 2 3.
Proof.
  apply (powtrace_order_independent
           diag_eig_complex rev_eig_complex diag_eig_double rev_eig_double
           example_zc example_zr 2 3).
  - lia.
  - lia.
  - reflexivity.
  - apply Permutation_rev.
  - reflexivity.
  - apply Permutation_rev.
Defined.

(** ** The integer hafnian of a 4 by 4 matrix *)

(** Equality of the residues modulo [2^64]. *)
Definition eq64 (a b : Z) : Prop := a mod 2 ^ 64 = b mod 2 ^ 64.

Lemma eq64_refl a : eq64 a a.
Proof. reflexivity. Qed.

Lemma eq64_add a a' b b' : eq64 a a' -> eq64 b b' -> eq64 (a + b) (a' + b').
Proof.
  unfold eq64. intros Ha Hb.
  rewrite (Zplus_mod a), (Zplus_mod a'), Ha, Hb. reflexivity.
Qed.

Lemma eq64_mul a a' b b' : eq64 a a' -> eq64 b b' -> eq64 (a * b) (a' * b').
Proof.
  unfold eq64. intros Ha Hb.
  rewrite (Zmult_mod a), (Zmult_mod a'), Ha, Hb. reflexivity.
Qed.

Lemma eq64_wrap a a' : eq64 a a' -> eq64 (wrap64 a) a'.
Proof.
  unfold eq64, wrap64. intros <-.
  replace ((a + 2 ^ 63) mod 2 ^ 64 - 2 ^ 63)
    with ((a + 2 ^ 63) mod 2 ^ 64 + - 2 ^ 63) by lia.
  rewrite Zplus_mod_idemp_l. f_equal. lia.
Qed.

Lemma wrap64_mod a b c : eq64 a b -> b = c -> wrap64 a = wrap64 c.
Proof.
  unfold eq64, wrap64. intros H <-.
  rewrite <- (Zplus_mod_idemp_l a), <- (Zplus_mod_idemp_l b), H.
  reflexivity.
Qed.

(** Removes the intermediate reductions of a sum of products. *)
Ltac strip_wraps :=
  lazymatch goal with
  | |- eq64 (wrap64 _) _ => apply eq64_wrap; strip_wraps
  | |- eq64 (_ + _) _ => apply eq64_add; strip_wraps
  | |- eq64 (_ * _) _ => apply eq64_mul; strip_wraps
  | |- eq64 _ _ => apply eq64_refl
  end.

(** X13.  For a 4 by 4 integer matrix [hafnian_int] returns the sum of
    the three perfect matchings of [{0, 1, 2, 3}], read below the
    diagonal, [m10 m32 + m20 m31 + m30 m21], reduced to a signed 64-bit
    integer. *)
Theorem hafnian_int_4x4
    m00 m01 m02 m03 m10 m11 m12 m13 m20 m21 m22 m23 m30 m31 m32 m33 :
  hafnian_int [m00; m01; m02; m03; m10; m11; m12; m13;
               m20; m21; m22; m23; m30; m31; m32; m33]
  = ok (wrap64 (m10 * m32 + m20 * m31 + m30 * m21)).
Proof.
  match goal with
  | |- ?L = _ =>
      let v := eval cbv - [ll_add ll_mul] in L in change L with v
  end.
  unfold ok. f_equal. unfold ll_add, ll_mul.
  eapply wrap64_mod; [strip_wraps | ring].
Qed.

(** ** The integer hafnian of a 6 by 6 matrix *)

(** X14.  For a 6 by 6 integer matrix [hafnian_int] returns the sum
    over the fifteen perfect matchings of [{0, ..., 5}] of the products of
    the matched entries, read below the diagonal, reduced to a signed
    64-bit integer. *)
Theorem hafnian_int_6x6
    m00 m01 m02 m03 m04 m05
    m10 m11 m12 m13 m14 m15
    m20 m21 m22 m23 m24 m25
    m30 m31 m32 m33 m34 m35
    m40 m41 m42 m43 m44 m45
    m50 m51 m52 m53 m54 m55 :
  hafnian_int [m00; m01; m02; m03; m04; m05;
               m10; m11; m12; m13; m14; m15;
               m20; m21; m22; m23; m24; m25;
               m30; m31; m32; m33; m34; m35;
               m40; m41; m42; m43; m44; m45;
               m50; m51; m52; m53; m54; m55]
  = ok (wrap64 (m10 * m32 * m54
               + m10 * m42 * m53
               + m10 * m52 * m43
               + m20 * m31 * m54
               + m20 * m41 * m53
               + m20 * m51 * m43
               + m30 * m21 * m54
               + m30 * m41 * m52
               + m30 * m51 * m42
               + m40 * m21 * m53
               + m40 * m31 * m52
               + m40 * m51 * m32
               + m50 * m21 * m43
               + m50 * m31 * m42
               + m50 * m41 * m32)).
Proof.
  match goal with
  | |- ?L = _ =>
      let v := eval cbv - [ll_add ll_mul] in L in change L with v
  end.
  unfold ok. f_equal. unfold ll_add, ll_mul.
  eapply wrap64_mod; [strip_wraps | ring].
Qed.

(** ** The generating function of the loop-mode worker *)

Section LoopSeriesVocabulary.
Context {T : Type} {OT : ScalarOps T}.

(** The row vector [u] times the [sum] by [sum] matrix [B]. *)
Definition row_times (sum : Z) (u : Z -> T) (B : list T) : Z -> T :=
  fun i => sum_range 0 sum (fun j => smul (u j) (vget s0 B (j * sum + i))).

(** [u B^k]. *)
Fixpoint row_power (sum : Z) (u : Z -> T) (B : list T) (k : nat) : Z -> T :=
  match k with
  | O => u
  | S k' => row_times sum (row_power sum u B k') B
  end.

(** The factor of the iteration [k] of the loop-mode fold:
    [tau_k / (2k) + (c B^(k-1) . d) / 2]. *)
Definition loop_factor (tau B : list T) (c d : Z -> T) (sum k : Z) : T :=
  sadd (sdivZ (vget s0 tau (k - 1)) (2 * k))
       (smul shalf
          (sum_range 0 sum (fun j =>
             smul (row_power sum c B (Z.to_nat (k - 1)) j) (d j)))).

(** The product of [exp(f(k) z^k)] for [k = 1 .. i]. *)
Fixpoint gf_factors (f : Z -> T) (i : nat) : series :=
  match i with
  | O => ps_one
  | S k =>
      ps_mul (gf_factors f k)
        (ps_exp_mono (f (Z.of_nat k + 1)) (Z.of_nat k + 1))
  end.
End LoopSeriesVocabulary.

Section LoopSeries.
Context {T : Type} {OT : ScalarOps T} {ST : Scalar T}.
Variable powtrace : list T -> Z -> Z -> list T.

Add Ring T_ring10 : (@s_ring T _ ST).

(** The gathering loops of [do_chunk_loops] build the matrix of the plain
    worker twice and copy the entries of [C] and [D] at the positions. *)
Lemma gather_spec (mat C D : list T) n pos sum :
  0 <= sum ->
  for_range 0 sum (fun i '(B, B_powtrace, C1, D1) =>
    let '(B, B_powtrace) :=
      for_range 0 sum (fun j '(B, B_powtrace) =>
        (vset B (i * sum + j)
           (vget s0 mat (vget 0 pos i * n + Z.lxor (vget 0 pos j) 1)),
         vset B_powtrace (i * sum + j)
           (vget s0 mat (vget 0 pos i * n + Z.lxor (vget 0 pos j) 1))))
        (B, B_powtrace) in
    (B, B_powtrace,
     vset C1 i (vget s0 C (vget 0 pos i)),
     vset D1 i (vget s0 D (vget 0 pos i))))
    (vmake (sum * sum) s0, vmake (sum * sum) s0, vmake sum s0, vmake sum s0)
  = (build_B mat n pos sum, build_B mat n pos sum,
     for_range 0 sum (fun i C1 => vset C1 i (vget s0 C (vget 0 pos i)))
       (vmake sum s0),
     for_range 0 sum (fun i D1 => vset D1 i (vget s0 D (vget 0 pos i)))
       (vmake sum s0)).
Proof.
  intros Hs. unfold build_B.
  set (inner := fun i j (B : list T) =>
         vset B (i * sum + j)
           (vget s0 mat (vget 0 pos i * n + Z.lxor (vget 0 pos j) 1))).
  set (outer := fun i (B : list T) => for_range 0 sum (inner i) B).
  set (gc := fun i (C1 : list T) => vset C1 i (vget s0 C (vget 0 pos i))).
  set (gd := fun i (D1 : list T) => vset D1 i (vget s0 D (vget 0 pos i))).
  apply (for_range_inv (fun i st =>
           st = (for_range 0 i outer (vmake (sum * sum) s0),
                 for_range 0 i outer (vmake (sum * sum) s0),
                 for_range 0 i gc (vmake sum s0),
                 for_range 0 i gd (vmake sum s0)))).
  - lia.
  - rewrite !for_range_nil by lia. reflexivity.
  - intros i st Hi ->.
    rewrite (for_range_last 0 (i + 1) outer) by lia.
    rewrite (for_range_last 0 (i + 1) gc) by lia.
    rewrite (for_range_last 0 (i + 1) gd) by lia.
    replace (i + 1 - 1) with i by lia.
    set (Bi := for_range 0 i outer (vmake (sum * sum) s0)).
    assert (Ein :
      for_range 0 sum (fun j '(B, B_powtrace) =>
        (vset B (i * sum + j)
           (vget s0 mat (vget 0 pos i * n + Z.lxor (vget 0 pos j) 1)),
         vset B_powtrace (i * sum + j)
           (vget s0 mat (vget 0 pos i * n + Z.lxor (vget 0 pos j) 1))))
        (Bi, Bi)
      = (outer i Bi, outer i Bi)).
    { unfold outer.
      apply (for_range_inv (fun j st =>
               st = (for_range 0 j (inner i) Bi, for_range 0 j (inner i) Bi)));
        [lia | rewrite for_range_nil by lia; reflexivity |].
      intros j st Hj ->.
      rewrite (for_range_last 0 (j + 1) (inner i)) by lia.
      replace (j + 1 - 1) with j by lia. reflexivity. }
    rewrite Ein. reflexivity.
Qed.

(** A loop that stores [f i] at every index [i] of a vector. *)
Lemma for_range_store (f : Z -> T) sum (v : list T) :
  0 <= sum -> vlen v = sum ->
  let v' := for_range 0 sum (fun i v => vset v i (f i)) v in
  vlen v' = sum /\ forall i, 0 <= i < sum -> vget s0 v' i = f i.
Proof.
  intros Hs Hv. cbn zeta.
  destruct (for_range_pointwise s0 (fun j _ => f j) sum v ltac:(lia))
    as [Hl Hg].
  split; [lia|]. intros i Hi. rewrite Hg by lia.
  destruct (Z.ltb_spec i sum); [reflexivity|lia].
Qed.

(** One iteration of the loop-mode fold, when [C1] holds [c B^k]. *)
Lemma loops_step_spec m tau B D1 C1 (c d : Z -> T) sum k G fs :
  0 <= m -> 0 <= k -> 0 <= sum ->
  vlen C1 = sum ->
  (forall j, 0 <= j < sum -> vget s0 C1 j = row_power sum c B (Z.to_nat k) j) ->
  (forall j, 0 <= j < sum -> vget s0 D1 j = d j) ->
  fold_inv m k G fs ->
  let st' := loops_step (2 * m) tau B D1 sum (k + 1) (fs, C1) in
  fold_inv m (k + 1)
    (ps_mul G (ps_exp_mono (loop_factor tau B c d sum (k + 1)) (k + 1)))
    (fst st') /\
  1 - cntindex (fst st') = (k + 1) mod 2 /\
  vlen (snd st') = sum /\
  (forall j, 0 <= j < sum ->
     vget s0 (snd st') j = row_power sum c B (Z.to_nat (k + 1)) j).
Proof.
  intros Hm Hk Hs HlC HC HD Hinv. cbn zeta. unfold loops_step.
  cbn [fst snd].
  assert (Efac :
    sadd (sdivZ (vget s0 tau (k + 1 - 1)) (2 * (k + 1)))
      (smul shalf
         (for_range 0 sum (fun i tmpn =>
            sadd tmpn (smul (vget s0 C1 i) (vget s0 D1 i))) s0))
    = loop_factor tau B c d sum (k + 1)).
  { unfold loop_factor. rewrite for_range_sum0. do 2 f_equal.
    replace (k + 1 - 1) with k by lia.
    apply sum_range_ext. intros j Hj. rewrite HC, HD by lia. reflexivity. }
  rewrite Efac.
  destruct (comb_update_spec m k G (loop_factor tau B c d sum (k + 1)) fs
              Hm Hk Hinv) as [Hinv' Hcur].
  split; [exact Hinv'|]. split; [exact Hcur|].
  set (tmp := fun i =>
         for_range 0 sum (fun j tmp =>
           sadd tmp (smul (vget s0 C1 j) (vget s0 B (j * sum + i)))) s0).
  destruct (for_range_store tmp sum (vmake sum s0) Hs
              ltac:(apply vlen_vmake; lia)) as [Hl1 Hg1].
  set (tmp_c1 := for_range 0 sum (fun i v => vset v i (tmp i)) (vmake sum s0))
    in *.
  destruct (for_range_store (fun i => vget s0 tmp_c1 i) sum C1 Hs HlC)
    as [Hl2 Hg2].
  split; [exact Hl2|]. intros j Hj.
  rewrite Hg2, Hg1 by lia. subst tmp. cbv beta.
  rewrite for_range_sum0.
  replace (Z.to_nat (k + 1)) with (S (Z.to_nat k)) by lia.
  cbn [row_power]. unfold row_times.
  apply sum_range_ext. intros t Ht. rewrite HC by lia. reflexivity.
Qed.

(** The loop-mode summand in closed form, for any description [c], [d]
    of the gathered entries of [C] and [D]. *)
Lemma summand_loops_closed (mat C D : list T) m x (c d : Z -> T) :
  1 <= m <= 64 ->
  (forall j, 0 <= j < snd (decode (2 * m) x) ->
     vget s0 C (vget 0 (fst (decode (2 * m) x)) j) = c j) ->
  (forall j, 0 <= j < snd (decode (2 * m) x) ->
     vget s0 D (vget 0 (fst (decode (2 * m) x)) j) = d j) ->
  summand_loops powtrace mat C D (2 * m) x
  = with_parity_sign (popcount m x) m
      (gf_factors
         (loop_factor (traces_of powtrace mat (2 * m) x)
            (build_B mat (2 * m) (fst (decode (2 * m) x))
               (snd (decode (2 * m) x)))
            c d (snd (decode (2 * m) x)))
         (Z.to_nat m) m).
Proof.
  intros Hm Hc Hd.
  pose proof (decode_sum_nonneg (2 * m) x) as Hs.
  pose proof (popcount_nonneg m x) as Hp.
  unfold summand_loops.
  rewrite (decode_eta (2 * m) x) at 1. cbv beta iota.
  rewrite (decode_sum m x) at 1 by lia.
  rewrite (signed_coeff_parity powtrace) by lia. f_equal.
  unfold extracted, loops_final, traces_of. cbn zeta.
  rewrite byte_half, cdiv_double by lia.
  destruct (decode (2 * m) x) as [pos sum]. cbn [fst snd] in *.
  rewrite gather_spec by assumption.
  set (B := build_B mat (2 * m) pos sum).
  set (tau := powtrace B sum m).
  destruct (for_range_store (fun i => vget s0 C (vget 0 pos i)) sum
              (vmake sum s0) Hs ltac:(apply vlen_vmake; lia)) as [HlC HC].
  destruct (for_range_store (fun i => vget s0 D (vget 0 pos i)) sum
              (vmake sum s0) Hs ltac:(apply vlen_vmake; lia)) as [HlD HD].
  cbv beta in HC, HD.
  set (C1 := for_range 0 sum
               (fun i v => vset v i (vget s0 C (vget 0 pos i)))
               (vmake sum s0)) in *.
  set (D1 := for_range 0 sum
               (fun i v => vset v i (vget s0 D (vget 0 pos i)))
               (vmake sum s0)) in *.
  assert (HC' : forall j, 0 <= j < sum -> vget s0 C1 j = c j)
    by (intros j Hj; rewrite HC by lia; apply Hc; lia).
  assert (HD' : forall j, 0 <= j < sum -> vget s0 D1 j = d j)
    by (intros j Hj; rewrite HD by lia; apply Hd; lia).
  set (f := loop_factor tau B c d sum).
  assert (G :
    let st := for_range 1 (m + 1) (loops_step (2 * m) tau B D1 sum)
                (fold_init m, C1) in
    (fold_inv m m (gf_factors f (Z.to_nat m)) (fst st) /\
     (1 <= m -> 1 - cntindex (fst st) = m mod 2)) /\
    vlen (snd st) = sum /\
    (forall j, 0 <= j < sum ->
       vget s0 (snd st) j = row_power sum c B (Z.to_nat m) j)).
  { cbn zeta.
    apply (for_range_post (fun k st =>
      (fold_inv m (k - 1) (gf_factors f (Z.to_nat (k - 1))) (fst st) /\
       (1 <= k - 1 -> 1 - cntindex (fst st) = (k - 1) mod 2)) /\
      vlen (snd st) = sum /\
      (forall j, 0 <= j < sum ->
         vget s0 (snd st) j = row_power sum c B (Z.to_nat (k - 1)) j))).
    - lia.
    - replace (1 - 1) with 0 by lia. cbn [fst snd].
      split; [split; [apply fold_init_inv; lia|lia]|].
      split; [exact HlC|]. intros j Hj. cbn [Z.to_nat row_power].
      apply HC'. assumption.
    - intros k [fs C1'] Hk ((Hinv & _) & Hl' & HC''). cbn [fst snd] in *.
      destruct (loops_step_spec m tau B D1 C1' c d sum (k - 1)
                  (gf_factors f (Z.to_nat (k - 1))) fs
                  ltac:(lia) ltac:(lia) Hs Hl' HC'' HD' Hinv)
        as (Hinv' & Hcur & Hl'' & HC3).
      replace (k - 1 + 1) with k in * by lia.
      replace (k + 1 - 1) with k by lia.
      split; [split; [|intros _; exact Hcur]|split; assumption].
      replace (Z.to_nat k) with (S (Z.to_nat (k - 1))) by lia.
      cbn [gf_factors].
      replace (Z.of_nat (Z.to_nat (k - 1))) with (k - 1) by lia.
      replace (k - 1 + 1) with k by lia. exact Hinv'.
    - intros st H. replace (m + 1 - 1) with m in H by lia. exact H. }
  cbn zeta in G. destruct G as (((_ & _ & Hrow) & Hcur) & _).
  rewrite Hcur by lia. apply Hrow. lia.
Qed.

(** X15.  In exact arithmetic, for a matrix of order [2m],
    [1 <= m <= 64], the summand of [do_chunk_loops] for the subset [x] is, up to the sign of the parity
    of [|S(x)|], the coefficient of [z^m] in the product of
    [exp(f_k z^k)], [k = 1 .. m], with
    [f_k = tau_k / (2k) + (c B^(k-1) . d) / 2], where [B] is the reduced
    matrix, [tau] its power traces and [c], [d] the entries of [C] and [D]
    at the positions of the subset. *)
Theorem loops_generating_function (mat C D : list T) m x :
  1 <= m <= 64 ->
  let pos := fst (decode (2 * m) x) in
  let sum := snd (decode (2 * m) x) in
  let B := build_B mat (2 * m) pos sum in
  let tau := traces_of powtrace mat (2 * m) x in
  let c := fun i => vget s0 C (vget 0 pos i) in
  let d := fun i => vget s0 D (vget 0 pos i) in
  summand_loops powtrace mat C D (2 * m) x
  = with_parity_sign (popcount m x) m
      (gf_factors (loop_factor tau B c d sum) (Z.to_nat m) m).
Proof.
  intros Hm. cbn zeta.
  apply summand_loops_closed; [assumption| |]; intros j Hj; reflexivity.
Qed.

(** X16.  In exact arithmetic, for a matrix of order [n = 2m] with
    [1 <= m <= 63], [loop_hafnian] returns the sum over all [2^m] subset indices [x] of the
    signed coefficient of [z^m] in the product of [exp(f_k z^k)], where
    [f_k = tau_k / (2k) + (c B^(k-1) . d) / 2], [d] lists the diagonal
    entries [mat[p*n + p]] at the positions [p] of the subset and [c] the
    diagonal entries at their siblings [p xor 1]. *)
Theorem loop_hafnian_as_sum (mat : list T) m :
  1 <= m <= 63 -> order_of mat = 2 * m ->
  loop_hafnian powtrace mat
  = ok (sum_range 0 (2 ^ m) (fun x =>
          let pos := fst (decode (2 * m) x) in
          let sum := snd (decode (2 * m) x) in
          let B := build_B mat (2 * m) pos sum in
          let tau := traces_of powtrace mat (2 * m) x in
          let diag := fun p => vget s0 mat (p * (2 * m) + p) in
          let c := fun i => diag (Z.lxor (vget 0 pos i) 1) in
          let d := fun i => diag (vget 0 pos i) in
          with_parity_sign (popcount m x) m
            (gf_factors (loop_factor tau B c d sum) (Z.to_nat m) m))).
Proof.
  intros Hm Hn.
  rewrite loop_hafnian_unfold
    by (rewrite Hn; rewrite ?Z.even_mul, ?byte_half by lia;
        (reflexivity || lia)).
  rewrite Hn, byte_half by lia.
  assert (Hlt : 2 ^ m < 2 ^ 64) by (apply Z.pow_lt_mono_r; lia).
  rewrite do_chunk_loops_sum_0 by lia. rewrite Z.add_0_l.
  destruct (diagonal_vector_spec mat (2 * m) ltac:(lia)) as [_ HDg].
  destruct (sibling_swap_spec (diagonal_vector mat (2 * m)) m ltac:(lia))
    as [_ HCg].
  f_equal. apply sum_range_ext. intros x Hx. cbn zeta.
  apply summand_loops_closed; [lia| |]; intros j Hj;
    destruct (decode_entries m x j ltac:(lia) Hj) as [Hb1 Hb2].
  - rewrite HCg by lia. apply HDg. lia.
  - apply HDg. lia.
Qed.
End LoopSeries.

(** X15 on the 2 by 2 matrix [[0, 1], [1, 0]] with the vectors
    [C = D = example_CD] and [x = 1]. *)
Lemma loops_generating_function_witness :
  let pt := powtrace_double diag_eig_double in
  let pos := fst (decode (2 * 1) 1) in
  let sum := snd (decode (2 * 1) 1) in
  let B := build_B example_swap2 (2 * 1) pos sum in
  let tau := traces_of pt example_swap2 (2 * 1) 1 in
  let c := fun i => vget s0 example_CD (vget 0 pos i) in
  let d := fun i => vget s0 example_CD (vget 0 pos i) in
  summand_loops pt example_swap2 example_CD example_CD (2 * 1) 1
  = with_parity_sign (popcount 1 1) 1
      (gf_factors (loop_factor tau B c d sum) (Z.to_nat 1) 1).
Proof.
  apply (loops_generating_function (powtrace_double diag_eig_double)
           example_swap2 example_CD example_CD 1 1). lia.
Defined.

(** X16 on the 2 by 2 matrix [[0, 1], [1, 0]]. *)
Lemma loop_hafnian_as_sum_witness :
  loop_hafnian (powtrace_double diag_eig_double) example_swap2
  = ok (sum_range 0 (2 ^ 1) (fun x =>
          let pos := fst (decode (2 * 1) x) in
          let sum := snd (decode (2 * 1) x) in
          let B := build_B example_swap2 (2 * 1) pos sum in
          let tau :=
            traces_of (powtrace_double diag_eig_double) example_swap2
              (2 * 1) x in
          let diag := fun p => vget s0 example_swap2 (p * (2 * 1) + p) in
          let c := fun i => diag (Z.lxor (vget 0 pos i) 1) in
          let d := fun i => diag (vget 0 pos i) in
          with_parity_sign (popcount 1 x) 1
            (gf_factors (loop_factor tau B c d sum) (Z.to_nat 1) 1))).
Proof.
  apply (loop_hafnian_as_sum (powtrace_double diag_eig_double)
           example_swap2 1); [lia | reflexivity].
Defined.

(** ** The polynomial update of the engine *)

(** [f 0 + ... + f (k - 1)]. *)
Definition zsum (k : Z) (f : Z -> Z) : Z :=
  for_range 0 k (fun u acc => acc + f u) 0.

(** The coefficient of [z^d] in [g + z g b0]. *)
Definition shifted_product (g b0 : list Z) (d : Z) : Z :=
  vget 0 g d + zsum d (fun u => vget 0 g u * vget 0 b0 (d - 1 - u)).

Lemma zsum_succ k f : 0 <= k -> zsum (k + 1) f = zsum k f + f k.
Proof.
  intros Hk. unfold zsum. rewrite for_range_last by lia.
  replace (k + 1 - 1) with k by lia. reflexivity.
Qed.

Lemma eq64_trans a b c : eq64 a b -> eq64 b c -> eq64 a c.
Proof. unfold eq64. congruence. Qed.

(** X17.  [augment_g] multiplies the polynomial [g] by [1 + z b[0]] and
    truncates at degree [n], in 64-bit arithmetic: it succeeds, and the
    coefficient [d] of its result is congruent modulo [2^64] to
    [g[d] + sum_(u < d) g[u] b[0][d-1-u]]. *)
Theorem augment_g_product b g n :
  0 <= n -> Forall (fun r => vlen r = n + 1) b -> 1 <= vlen b ->
  vlen g = n + 1 ->
  exists e, augment_g b g n = ok e /\ vlen e = n + 1 /\
    forall d, 0 <= d <= n ->
      eq64 (vget 0 e d) (shifted_product g (vget [] b 0) d).
Proof.
  intros Hn Hb Hlen Hg. unfold augment_g.
  pose proof (is_array_of_Forall _ _ Hb) as Hba.
  set (F := fun d u => vget 0 g u * vget 0 (vget [] b 0) (d - 1 - u)).
  set (done := fun u v d =>
         if (u <? d) && (d - 1 - u <? v) then u + 1 else Z.min u d).
  destruct (for_rangeM_inv (fun u e =>
              vlen e = n + 1 /\
              forall d, 0 <= d <= n ->
                eq64 (vget 0 e d) (vget 0 g d + zsum (Z.min u d) (F d)))
              0 n
              (fun u e =>
                 for_rangeM 0 (n - u) (fun v e =>
                   bind (vat e (u + v + 1)) (fun old =>
                   bind (vat g u) (fun gu =>
                   bind (at2 b 0 v) (fun b0v =>
                   vput e (u + v + 1) (ll_add old (ll_mul gu b0v)))))) e)
              g Hn) as (e & He & Hle & Hed).
  - split; [assumption|]. intros d Hd.
    replace (Z.min 0 d) with 0 by lia. unfold zsum.
    rewrite for_range_nil by lia. rewrite Z.add_0_r. apply eq64_refl.
  - intros u e Hu (Hl & Hinv).
    destruct (for_rangeM_inv (fun v e' =>
                vlen e' = n + 1 /\
                forall d, 0 <= d <= n ->
                  eq64 (vget 0 e' d) (vget 0 g d + zsum (done u v d) (F d)))
                0 (n - u)
                (fun v e =>
                   bind (vat e (u + v + 1)) (fun old =>
                   bind (vat g u) (fun gu =>
                   bind (at2 b 0 v) (fun b0v =>
                   vput e (u + v + 1) (ll_add old (ll_mul gu b0v))))))
                e ltac:(lia)) as (e' & He' & Hl' & Hinv').
    + split; [assumption|]. intros d Hd. unfold done.
      destruct (Z.ltb_spec (d - 1 - u) 0) as [L|L].
      * destruct (Z.ltb_spec u d); [lia|]. cbn [andb]. apply Hinv. lia.
      * rewrite andb_false_r. apply Hinv. lia.
    + intros v e0 Hv (Hl0 & Hinv0).
      rewrite (vat_ok e0 (u + v + 1) 0) by lia. cbn [bind ok].
      rewrite (vat_ok g u 0) by lia. cbn [bind ok].
      rewrite (at2_ok _ _ _ _ _ Hba) by lia. cbn [bind ok].
      rewrite vput_ok by lia. eexists. split; [reflexivity|].
      split; [rewrite vlen_vset; assumption|].
      intros d Hd. rewrite vget_vset by lia.
      destruct (Z.eqb_spec (u + v + 1) d) as [E|N].
      * subst d. unfold done.
        destruct (Z.ltb_spec u (u + v + 1)); [|lia].
        destruct (Z.ltb_spec (u + v + 1 - 1 - u) (v + 1)); [|lia].
        cbn [andb]. rewrite zsum_succ by lia.
        unfold ll_add, ll_mul. apply eq64_wrap.
        rewrite Z.add_assoc. apply eq64_add.
        -- pose proof (Hinv0 (u + v + 1) ltac:(lia)) as H1.
           unfold done in H1.
           destruct (Z.ltb_spec (u + v + 1 - 1 - u) v); [lia|].
           rewrite andb_false_r in H1.
           replace (Z.min u (u + v + 1)) with u in H1 by lia. exact H1.
        -- apply eq64_wrap. unfold F, get2.
           replace (u + v + 1 - 1 - u) with v by lia. apply eq64_refl.
      * pose proof (Hinv0 d Hd) as H1. unfold done in *.
        destruct (Z.ltb_spec u d) as [L1|L1]; cbn [andb] in *; [|exact H1].
        destruct (Z.ltb_spec (d - 1 - u) v) as [L2|L2];
          destruct (Z.ltb_spec (d - 1 - u) (v + 1)) as [L3|L3];
          try lia; exact H1.
    + exists e'. split; [exact He'|]. split; [assumption|].
      intros d Hd. pose proof (Hinv' d Hd) as H1. unfold done in H1.
      destruct (Z.ltb_spec u d) as [L1|L1]; cbn [andb] in H1.
      * destruct (Z.ltb_spec (d - 1 - u) (n - u)) as [L2|L2]; [|lia].
        replace (Z.min (u + 1) d) with (u + 1) by lia. exact H1.
      * replace (Z.min (u + 1) d) with (Z.min u d) by lia. exact H1.
  - exists e. split; [exact He|]. split; [assumption|].
    intros d Hd. pose proof (Hed d Hd) as H1.
    replace (Z.min n d) with d in H1 by lia. exact H1.
Qed.

(** X17 on [g = 1 + 5 z], [b[0] = 2 + 3 z] and [n = 1]. *)
Lemma augment_g_product_witness :
  exists e, augment_g [[2; 3]] [1; 5] 1 = ok e /\ vlen e = 1 + 1 /\
    forall d, 0 <= d <= 1 ->
      eq64 (vget 0 e d) (shifted_product [1; 5] (vget [] [[2; 3]] 0) d).
Proof.
  apply (augment_g_product [[2; 3]] [1; 5] 1).
  - lia.
  - repeat constructor.
  - unfold vlen. cbn [length]. lia.
  - reflexivity.
Defined.

(** The coefficient of [z^d] in [z (p q' + q p')] for the rows
    [p = b[rj]], [p' = b[rj + 1]], [q = b[rk]], [q' = b[rk + 1]]. *)
Definition cross_product (b : list (list Z)) (rj rk d : Z) : Z :=
  zsum d (fun u =>
    get2 0 b rj u * get2 0 b (rk + 1) (d - 1 - u)
    + get2 0 b rk u * get2 0 b (rj + 1) (d - 1 - u)).

(** The two inner loops of [augment_c] on the row [r] of [c]. *)
Lemma accumulate_row b c N n r rj rk :
  0 <= n -> Forall (fun row => vlen row = n + 1) b ->
  0 <= rj -> rj + 1 < vlen b -> 0 <= rk -> rk + 1 < vlen b ->
  is_array N (n + 1) c -> 0 <= r < N ->
  exists c',
    for_rangeM 0 n (fun u c =>
      for_rangeM 0 (n - u) (fun v c =>
        bind (at2 c r (u + v + 1)) (fun old =>
        bind (at2 b rj u) (fun bju =>
        bind (at2 b (rk + 1) v) (fun bkv =>
        bind (at2 b rk u) (fun bku =>
        bind (at2 b (rj + 1) v) (fun bjv =>
        put2 c r (u + v + 1)
          (ll_add old (ll_add (ll_mul bju bkv) (ll_mul bku bjv)))))))))
        c) c
    = ok c' /\
    is_array N (n + 1) c' /\
    (forall r' d, r' <> r -> get2 0 c' r' d = get2 0 c r' d) /\
    (forall d, 0 <= d <= n ->
       eq64 (get2 0 c' r d) (get2 0 c r d + cross_product b rj rk d)).
Proof.
  intros Hn Hb Hrj Hrj1 Hrk Hrk1 Hc Hr. unfold cross_product.
  pose proof (is_array_of_Forall _ _ Hb) as Hba.
  set (F := fun d u =>
         get2 0 b rj u * get2 0 b (rk + 1) (d - 1 - u)
         + get2 0 b rk u * get2 0 b (rj + 1) (d - 1 - u)).
  set (done := fun u v d =>
         if (u <? d) && (d - 1 - u <? v) then u + 1 else Z.min u d).
  set (Inv := fun (cnt : Z -> Z) (c' : list (list Z)) =>
         is_array N (n + 1) c' /\
         (forall r' d, r' <> r -> get2 0 c' r' d = get2 0 c r' d) /\
         (forall d, 0 <= d <= n ->
            eq64 (get2 0 c' r d) (get2 0 c r d + zsum (cnt d) (F d)))).
  destruct (for_rangeM_inv (fun u c' => Inv (fun d => Z.min u d) c') 0 n
              (fun u c =>
                 for_rangeM 0 (n - u) (fun v c =>
                   bind (at2 c r (u + v + 1)) (fun old =>
                   bind (at2 b rj u) (fun bju =>
                   bind (at2 b (rk + 1) v) (fun bkv =>
                   bind (at2 b rk u) (fun bku =>
                   bind (at2 b (rj + 1) v) (fun bjv =>
                   put2 c r (u + v + 1)
                     (ll_add old
                        (ll_add (ll_mul bju bkv) (ll_mul bku bjv)))))))))
                   c)
              c Hn) as (c' & Hc' & Harr & Hoth & Hrow).
  - split; [assumption|]. split; [reflexivity|]. intros d Hd.
    replace (Z.min 0 d) with 0 by lia. unfold zsum.
    rewrite for_range_nil by lia. rewrite Z.add_0_r. apply eq64_refl.
  - intros u cu Hu (Harr & Hoth & Hinv).
    destruct (for_rangeM_inv (fun v c' => Inv (done u v) c') 0 (n - u)
                (fun v c =>
                   bind (at2 c r (u + v + 1)) (fun old =>
                   bind (at2 b rj u) (fun bju =>
                   bind (at2 b (rk + 1) v) (fun bkv =>
                   bind (at2 b rk u) (fun bku =>
                   bind (at2 b (rj + 1) v) (fun bjv =>
                   put2 c r (u + v + 1)
                     (ll_add old
                        (ll_add (ll_mul bju bkv) (ll_mul bku bjv)))))))))
                cu ltac:(lia)) as (c' & Hc' & Harr' & Hoth' & Hinv').
    + split; [assumption|]. split; [assumption|]. intros d Hd. unfold done.
      destruct (Z.ltb_spec (d - 1 - u) 0) as [L|L].
      * destruct (Z.ltb_spec u d); [lia|]. cbn [andb]. apply Hinv. lia.
      * rewrite andb_false_r. apply Hinv. lia.
    + intros v c0 Hv (Harr0 & Hoth0 & Hinv0).
      rewrite (at2_ok _ _ _ _ _ Harr0 Hr) by lia. cbn [bind ok].
      rewrite (at2_ok _ _ _ _ _ Hba) by lia. cbn [bind ok].
      rewrite (at2_ok _ _ _ _ _ Hba) by lia. cbn [bind ok].
      rewrite (at2_ok _ _ _ _ _ Hba) by lia. cbn [bind ok].
      rewrite (at2_ok _ _ _ _ _ Hba) by lia. cbn [bind ok].
      destruct (put2_ok N (n + 1) c0 r (u + v + 1)
                  (ll_add (get2 0 c0 r (u + v + 1))
                     (ll_add
                        (ll_mul (get2 0 b rj u) (get2 0 b (rk + 1) v))
                        (ll_mul (get2 0 b rk u) (get2 0 b (rj + 1) v))))
                  Harr0 Hr ltac:(lia)) as [Hp Harr1].
      eexists. split; [exact Hp|].
      pose proof (is_array_row _ _ _ r Harr0 Hr) as Hrl.
      destruct Harr0 as [Hl0 _].
      split; [exact Harr1|]. split.
      * intros r' d Hne. rewrite get2_set2_gen by lia.
        destruct (Z.eqb_spec r r'); [lia|]. cbn [andb]. apply Hoth0. lia.
      * intros d Hd. rewrite get2_set2_gen by lia.
        rewrite Z.eqb_refl. cbn [andb].
        destruct (Z.eqb_spec (u + v + 1) d) as [E|Ne].
        -- subst d. unfold done.
           destruct (Z.ltb_spec u (u + v + 1)); [|lia].
           destruct (Z.ltb_spec (u + v + 1 - 1 - u) (v + 1)); [|lia].
           cbn [andb]. rewrite zsum_succ by lia.
           unfold ll_add, ll_mul. apply eq64_wrap.
           rewrite Z.add_assoc. apply eq64_add.
           ++ pose proof (Hinv0 (u + v + 1) ltac:(lia)) as H1.
              unfold done in H1.
              destruct (Z.ltb_spec (u + v + 1 - 1 - u) v); [lia|].
              rewrite andb_false_r in H1.
              replace (Z.min u (u + v + 1)) with u in H1 by lia. exact H1.
           ++ apply eq64_wrap. unfold F.
              replace (u + v + 1 - 1 - u) with v by lia.
              apply eq64_add; apply eq64_wrap; apply eq64_refl.
        -- pose proof (Hinv0 d Hd) as H1. unfold done in *.
           destruct (Z.ltb_spec u d) as [L1|L1]; cbn [andb] in *;
             [|exact H1].
           destruct (Z.ltb_spec (d - 1 - u) v) as [L2|L2];
             destruct (Z.ltb_spec (d - 1 - u) (v + 1)) as [L3|L3];
             try lia; exact H1.
    + exists c'. split; [exact Hc'|]. split; [assumption|].
      split; [assumption|].
      intros d Hd. pose proof (Hinv' d Hd) as H1. unfold done in H1.
      destruct (Z.ltb_spec u d) as [L1|L1]; cbn [andb] in H1.
      * destruct (Z.ltb_spec (d - 1 - u) (n - u)) as [L2|L2]; [|lia].
        replace (Z.min (u + 1) d) with (u + 1) by lia. exact H1.
      * replace (Z.min (u + 1) d) with (Z.min u d) by lia. exact H1.
  - exists c'. split; [exact Hc'|]. split; [assumption|].
    split; [assumption|].
    intros d Hd. pose proof (Hrow d Hd) as H1.
    replace (Z.min n d) with d in H1 by lia. exact H1.
Qed.

(** The rows of the pairs visited earlier come first. *)
Lemma pair_index_lt j k j' k' :
  1 <= j' -> 0 <= k' < j' -> 0 <= k ->
  j' < j \/ (j' = j /\ k' < k) ->
  cdiv (j' * (j' - 1)) 2 + k' < cdiv (j * (j - 1)) 2 + k.
Proof.
  intros Hj' Hk' Hk Hcase.
  pose proof (half_product (j' - 1) ltac:(lia)) as H1.
  replace ((j' - 1) * (j' - 1 + 1)) with (j' * (j' - 1)) in H1 by lia.
  destruct Hcase as [L|[-> L]]; [|lia].
  pose proof (half_product (j - 1) ltac:(lia)) as H2.
  replace ((j - 1) * (j - 1 + 1)) with (j * (j - 1)) in H2 by lia.
  nia.
Qed.

(** X18.  [augment_c] adds to the row of [c] of every pair [(j, k)],
    [0 <= k < j < s - 2], [1 <= j], the product
    [z (b[J] b[K+1] + b[K] b[J+1])] truncated at degree [n], where
    [J = (j+1)(j+2)/2] and [K = (k+1)(k+2)/2], in 64-bit arithmetic: it
    succeeds, keeps the shape of [c], and the coefficient [d] of the row
    is congruent modulo [2^64] to the old one plus the coefficient of the
    product. *)
Theorem augment_c_product b c s n :
  2 <= s -> 0 <= n ->
  Forall (fun r => vlen r = n + 1) b -> cdiv (s * (s - 1)) 2 <= vlen b ->
  is_array (cdiv ((s - 2) * (s - 3)) 2) (n + 1) c ->
  exists c', augment_c b c s n = ok c' /\
    is_array (cdiv ((s - 2) * (s - 3)) 2) (n + 1) c' /\
    forall j k d, 1 <= j < s - 2 -> 0 <= k < j -> 0 <= d <= n ->
      eq64 (get2 0 c' (cdiv (j * (j - 1)) 2 + k) d)
           (get2 0 c (cdiv (j * (j - 1)) 2 + k) d
            + cross_product b (cdiv ((j + 1) * (j + 2)) 2)
                (cdiv ((k + 1) * (k + 2)) 2) d).
Proof.
  intros Hs Hn Hb Hlen Hc. unfold augment_c.
  pose proof (half_product (s - 1) ltac:(lia)) as Hneed.
  replace ((s - 1) * (s - 1 + 1)) with (s * (s - 1)) in Hneed by lia.
  set (N := cdiv ((s - 2) * (s - 3)) 2) in *.
  set (row := fun j k => cdiv (j * (j - 1)) 2 + k).
  set (tgt := fun j k d =>
         get2 0 c (row j k) d
         + cross_product b (cdiv ((j + 1) * (j + 2)) 2)
             (cdiv ((k + 1) * (k + 2)) 2) d).
  set (Inv := fun (j k : Z) (c' : list (list Z)) =>
         is_array N (n + 1) c' /\
         forall j' k' d, 1 <= j' < s - 2 -> 0 <= k' < j' -> 0 <= d <= n ->
           (j' < j \/ (j' = j /\ k' < k) ->
            eq64 (get2 0 c' (row j' k') d) (tgt j' k' d)) /\
           (~ (j' < j \/ (j' = j /\ k' < k)) ->
            get2 0 c' (row j' k') d = get2 0 c (row j' k') d)).
  destruct (Z.le_gt_cases (s - 2) 1) as [Hsmall|Hbig].
  { rewrite for_rangeM_nil by lia. exists c. split; [reflexivity|].
    split; [assumption|]. intros j k d Hj. lia. }
  assert (HN : 2 * N = (s - 2) * (s - 3)).
  { pose proof (half_product (s - 3) ltac:(lia)) as H.
    replace ((s - 3) * (s - 3 + 1)) with ((s - 2) * (s - 3)) in H by lia.
    exact H. }
  destruct (for_rangeM_inv (fun j c' => Inv j 0 c') 1 (s - 2)
              (fun j c =>
                 for_rangeM 0 j (fun k c =>
                   for_rangeM 0 n (fun u c =>
                     for_rangeM 0 (n - u) (fun v c =>
                       bind (at2 c (cdiv (j * (j - 1)) 2 + k) (u + v + 1))
                         (fun old =>
                       bind (at2 b (cdiv ((j + 1) * (j + 2)) 2) u)
                         (fun bju =>
                       bind (at2 b (cdiv ((k + 1) * (k + 2)) 2 + 1) v)
                         (fun bkv =>
                       bind (at2 b (cdiv ((k + 1) * (k + 2)) 2) u)
                         (fun bku =>
                       bind (at2 b (cdiv ((j + 1) * (j + 2)) 2 + 1) v)
                         (fun bjv =>
                       put2 c (cdiv (j * (j - 1)) 2 + k) (u + v + 1)
                         (ll_add old
                            (ll_add (ll_mul bju bkv) (ll_mul bku bjv)))))))))
                       c) c) c)
              c ltac:(lia)) as (c' & Hc' & Harr & Hall).
  - split; [assumption|]. intros j' k' d Hj' Hk' Hd.
    split; [lia|reflexivity].
  - intros j cj Hj Hcj.
    pose proof (half_product (j - 1) ltac:(lia)) as Hj1.
    replace ((j - 1) * (j - 1 + 1)) with (j * (j - 1)) in Hj1 by lia.
    pose proof (half_product (j + 1) ltac:(lia)) as Hj2.
    replace (j + 1 + 1) with (j + 2) in Hj2 by lia.
    destruct (for_rangeM_inv (fun k c' => Inv j k c') 0 j
                (fun k c =>
                   for_rangeM 0 n (fun u c =>
                     for_rangeM 0 (n - u) (fun v c =>
                       bind (at2 c (cdiv (j * (j - 1)) 2 + k) (u + v + 1))
                         (fun old =>
                       bind (at2 b (cdiv ((j + 1) * (j + 2)) 2) u)
                         (fun bju =>
                       bind (at2 b (cdiv ((k + 1) * (k + 2)) 2 + 1) v)
                         (fun bkv =>
                       bind (at2 b (cdiv ((k + 1) * (k + 2)) 2) u)
                         (fun bku =>
                       bind (at2 b (cdiv ((j + 1) * (j + 2)) 2 + 1) v)
                         (fun bjv =>
                       put2 c (cdiv (j * (j - 1)) 2 + k) (u + v + 1)
                         (ll_add old
                            (ll_add (ll_mul bju bkv) (ll_mul bku bjv)))))))))
                       c) c)
                cj ltac:(lia) Hcj) as (c1 & Hc1 & Harr1 & Hall1).
    + intros k ck Hk (Harrk & Hallk).
      pose proof (half_product (k + 1) ltac:(lia)) as Hk2.
      replace (k + 1 + 1) with (k + 2) in Hk2 by lia.
      assert (Hr : 0 <= cdiv (j * (j - 1)) 2 + k < N) by nia.
      destruct (accumulate_row b ck N n (cdiv (j * (j - 1)) 2 + k)
                  (cdiv ((j + 1) * (j + 2)) 2)
                  (cdiv ((k + 1) * (k + 2)) 2)
                  Hn Hb ltac:(nia) ltac:(nia) ltac:(nia) ltac:(nia)
                  Harrk Hr) as (c2 & Hc2 & Harr2 & Hoth2 & Hrow2).
      exists c2. split; [exact Hc2|]. split; [exact Harr2|].
      intros j' k' d Hj' Hk' Hd.
      destruct (Hallk j' k' d Hj' Hk' Hd) as [Hdone Hnot].
      destruct (Z.eq_dec j' j) as [Ej|Nj];
        [destruct (Z.eq_dec k' k) as [Ek|Nk]|].
      * subst j' k'. split; [|lia]. intros _.
        eapply eq64_trans; [apply Hrow2; assumption|].
        unfold tgt. change (cdiv (j * (j - 1)) 2 + k) with (row j k).
        rewrite Hnot by lia. apply eq64_refl.
      * subst j'.
        assert (Hne : row j k' <> cdiv (j * (j - 1)) 2 + k)
          by (unfold row; lia).
        rewrite (Hoth2 _ d Hne). split.
        -- intros Hcase. apply Hdone. lia.
        -- intros Hcase. apply Hnot. lia.
      * assert (Hne : row j' k' <> cdiv (j * (j - 1)) 2 + k).
        { unfold row. destruct (Z.lt_total j' j) as [L|[L|L]]; [|lia|].
          - pose proof (pair_index_lt j k j' k' ltac:(lia) ltac:(lia)
                          ltac:(lia) ltac:(lia)). lia.
          - pose proof (pair_index_lt j' k' j k ltac:(lia) ltac:(lia)
                          ltac:(lia) ltac:(lia)). lia. }
        rewrite (Hoth2 _ d Hne). split.
        -- intros Hcase. apply Hdone. lia.
        -- intros Hcase. apply Hnot. lia.
    + exists c1. split; [exact Hc1|]. split; [exact Harr1|].
      intros j' k' d Hj' Hk' Hd.
      destruct (Hall1 j' k' d Hj' Hk' Hd) as [Hdone Hnot]. split.
      * intros Hcase. apply Hdone. lia.
      * intros Hcase. apply Hnot. lia.
  - exists c'. split; [exact Hc'|]. split; [exact Harr|].
    intros j k d Hj Hk Hd.
    destruct (Hall j k d Hj Hk Hd) as [Hdone _]. apply Hdone. lia.
Qed.

(** X18 at [s = 4] and [n = 1]: one pair, [(1, 0)], whose row is [c[0]],
    with [J = 3] and [K = 1]. *)
Lemma augment_c_product_witness :
  exists c', augment_c [[0; 0]; [1; 2]; [3; 4]; [5; 6]; [7; 8]; [0; 0]]
               [[9; 9]] 4 1 = ok c' /\
    is_array (cdiv ((4 - 2) * (4 - 3)) 2) (1 + 1) c' /\
    forall j k d, 1 <= j < 4 - 2 -> 0 <= k < j -> 0 <= d <= 1 ->
      eq64 (get2 0 c' (cdiv (j * (j - 1)) 2 + k) d)
           (get2 0 [[9; 9]] (cdiv (j * (j - 1)) 2 + k) d
            + cross_product [[0; 0]; [1; 2]; [3; 4]; [5; 6]; [7; 8]; [0; 0]]
                (cdiv ((j + 1) * (j + 2)) 2)
                (cdiv ((k + 1) * (k + 2)) 2) d).
Proof.
  apply (augment_c_product
           [[0; 0]; [1; 2]; [3; 4]; [5; 6]; [7; 8]; [0; 0]] [[9; 9]] 4 1).
  - lia.
  - lia.
  - repeat constructor.
  - vm_compute. intros H. discriminate H.
  - split; [reflexivity|]. repeat constructor.
Defined.
